(** * Document processing core: chunker, progress reporter, dispatcher, OCR join

    A shallow embedding of [processors.py] (classes [DocumentProcessor] and
    [OCRProcessor]) and the properties its specification states about it.

    Python values are modelled as follows.
    - A [str] is a list of Unicode code points ([text]), so that [len] counts
      code points the way Python does; the danda U+0964 is one character.
    - An [int] is a [Z]; a [float] is an IEEE 754 binary64 value of the
      standard library's executable specification ([spec_float]).
    - A [dict] is a [gmap]; a list updated by index uses stdpp's insert.
    - Code that may raise returns an [outcome]; code that touches shared
      state threads a [state] record. *)

From Stdlib Require Import ZArith NArith List Bool Lia String Ascii.
From Stdlib Require Import Floats.SpecFloat.
From stdpp Require Import base list gmap.

Import ListNotations.
Local Open Scope Z_scope.

(** ** Python strings *)

Module Text.

Abbreviation char := N (only parsing).
Abbreviation text := (list N) (only parsing).

(** A literal of the source, as code points (ASCII literals only). *)
Definition lit (s : string) : text := map N_of_ascii (list_ascii_of_string s).

Definition NL : char := 10%N.
Definition TAB : char := 9%N.
(** The Devanagari danda, the sentence boundary the chunker splits on. *)
Definition DANDA : char := 2404%N.

Definition para_sep : text := [NL; NL].
Definition tab_sep : text := [TAB].
Definition danda_sep : text := [DANDA].

(** [len(s)] *)
Definition len (s : text) : Z := Z.of_nat (length s).

(** Truth value of a [str]: non-empty. *)
Definition nonempty (s : text) : bool :=
  match s with [] => false | _ :: _ => true end.

(** The characters [str.strip()] removes: those for which [str.isspace]
    holds (U+0009..U+000D, U+001C..U+0020, U+0085, U+00A0, U+1680,
    U+2000..U+200A, U+2028, U+2029, U+202F, U+205F, U+3000). *)
Definition isspace (c : char) : bool :=
  (((9 <=? c) && (c <=? 13)) || ((28 <=? c) && (c <=? 32))
   || (c =? 133) || (c =? 160) || (c =? 5760)
   || ((8192 <=? c) && (c <=? 8202))
   || (c =? 8232) || (c =? 8233) || (c =? 8239) || (c =? 8287)
   || (c =? 12288))%N.

Fixpoint lstrip (s : text) : text :=
  match s with
  | [] => []
  | c :: s' => if isspace c then lstrip s' else s
  end.

(** A character is removed from the right end exactly when it is whitespace
    and everything after it is removed too. *)
Fixpoint rstrip (s : text) : text :=
  match s with
  | [] => []
  | c :: s' =>
      match rstrip s' with
      | [] => if isspace c then [] else [c]
      | r => c :: r
      end
  end.

(** [s.strip()] *)
Definition strip (s : text) : text := rstrip (lstrip s).

(** [s.startswith(p)] *)
Fixpoint startswith (p s : text) : bool :=
  match p, s with
  | [], _ => true
  | _ :: _, [] => false
  | a :: p', c :: s' => (a =? c)%N && startswith p' s'
  end.

(** [needle in s] *)
Fixpoint contains (needle s : text) : bool :=
  startswith needle s ||
  match s with
  | [] => false
  | _ :: s' => contains needle s'
  end.

Definition cons_head (c : char) (ps : list text) : list text :=
  match ps with
  | [] => [[c]]
  | p :: ps' => (c :: p) :: ps'
  end.

(** [s.split(sep)] for a non-empty [sep]: occurrences are found left to
    right and do not overlap. [skip] counts the characters of a separator
    just matched that are still to be passed over. *)
Fixpoint split_go (sep : text) (skip : nat) (s : text) : list text :=
  match s with
  | [] => [[]]
  | c :: s' =>
      match skip with
      | S k => split_go sep k s'
      | O =>
          if startswith sep s
          then [] :: split_go sep (Nat.pred (length sep)) s'
          else cons_head c (split_go sep O s')
      end
  end.

Definition split (sep s : text) : list text := split_go sep O s.

(** [sep.join(parts)] *)
Fixpoint join (sep : text) (parts : list text) : text :=
  match parts with
  | [] => []
  | [p] => p
  | p :: ps => p ++ sep ++ join sep ps
  end.

(** [s.lower()], on the letters A..Z. The dispatcher only looks for the
    ASCII words "quota" and "rate" in a lowered message, and no code point
    outside A..Z lowers to a letter of those words, so this is all of
    [str.lower] that the search can observe. *)
Definition lower_char (c : char) : char :=
  if ((65 <=? c) && (c <=? 90))%N then (c + 32)%N else c.

Definition lower (s : text) : text := map lower_char s.

(** [str(n)] for a non-negative [int]. *)
Definition digit_char (d : N) : char := (48 + d)%N.

Fixpoint uint_chars (u : Decimal.uint) : text :=
  match u with
  | Decimal.Nil => []
  | Decimal.D0 u' => digit_char 0 :: uint_chars u'
  | Decimal.D1 u' => digit_char 1 :: uint_chars u'
  | Decimal.D2 u' => digit_char 2 :: uint_chars u'
  | Decimal.D3 u' => digit_char 3 :: uint_chars u'
  | Decimal.D4 u' => digit_char 4 :: uint_chars u'
  | Decimal.D5 u' => digit_char 5 :: uint_chars u'
  | Decimal.D6 u' => digit_char 6 :: uint_chars u'
  | Decimal.D7 u' => digit_char 7 :: uint_chars u'
  | Decimal.D8 u' => digit_char 8 :: uint_chars u'
  | Decimal.D9 u' => digit_char 9 :: uint_chars u'
  end.

Definition str_of_nat (n : nat) : text := uint_chars (Nat.to_uint n).

End Text.

Import Text.

(** ** Chunker: [DocumentProcessor.chunk_text] *)

Module Chunker.

(** The loop state: the list [chunks] and the buffer [current_chunk]. *)
Definition acc : Type := (list text * text)%type.

(** [if current_chunk: chunks.append(current_chunk.strip())] *)
Definition append_stripped (chunks : list text) (current_chunk : text) : list text :=
  if nonempty current_chunk then chunks ++ [strip current_chunk] else chunks.

(** Body of [for sentence in sentences]. *)
Definition sentence_step (max_chunk_size : Z) (a : acc) (sentence : text) : acc :=
  let '(chunks, current_chunk) := a in
  if len (current_chunk ++ sentence) >? max_chunk_size
  then (append_stripped chunks current_chunk, sentence ++ tab_sep)
  else (chunks, current_chunk ++ sentence ++ tab_sep).

(** [sentences = paragraph.split(danda)], or the split on tab when that
    gives a single piece. *)
Definition sentences_of (paragraph : text) : list text :=
  let sentences := split danda_sep paragraph in
  if (length sentences =? 1)%nat then split tab_sep paragraph else sentences.

(** Body of [for paragraph in paragraphs]. *)
Definition paragraph_step (max_chunk_size : Z) (a : acc) (paragraph : text) : acc :=
  let '(chunks, current_chunk) := a in
  if len paragraph >? max_chunk_size
  then
    let a' :=
      if nonempty current_chunk
      then (chunks ++ [strip current_chunk], [])
      else (chunks, current_chunk) in
    fold_left (sentence_step max_chunk_size) (sentences_of paragraph) a'
  else
    if len (current_chunk ++ paragraph) >? max_chunk_size
    then (append_stripped chunks current_chunk, paragraph ++ para_sep)
    else (chunks, current_chunk ++ paragraph ++ para_sep).

Definition chunk_text (t : text) (max_chunk_size : Z) : list text :=
  let paragraphs := split para_sep t in
  let '(chunks, current_chunk) :=
    fold_left (paragraph_step max_chunk_size) paragraphs ([], []) in
  append_stripped chunks current_chunk.

End Chunker.

Import Chunker.

(** ** Python floats and the progress reporter *)

Module Progress.

(** binary64 *)
Definition prec : Z := 53.
Definition emax : Z := 1024.

Definition float : Type := spec_float.

(** [float(z)] *)
Definition float_of_int (z : Z) : float := binary_normalize prec emax z 0 false.

Definition fmul : float -> float -> float := SFmul prec emax.
Definition fdiv : float -> float -> float := SFdiv prec emax.
Definition fsub : float -> float -> float := SFsub prec emax.
Definition flt : float -> float -> bool := SFltb.

(** An [int] as an operand of the division: taken whole, not rounded. *)
Definition exact_int (z : Z) : float :=
  match z with
  | Z0 => S754_zero false
  | Zpos p => S754_finite false p 0
  | Zneg p => S754_finite true p 0
  end.

(** [a / b] on two [int]s: the exact quotient of the two integers,
    rounded once to the nearest binary64 (ties to even). Where the
    quotient is too large for a binary64 Python raises [OverflowError];
    here the result is then an infinity. *)
Definition true_div (a b : Z) : float := fdiv (exact_int a) (exact_int b).

(** [int(x)]: truncation towards zero. Python raises on an infinity or a
    NaN; no quotient of counts [0 <= current <= total] reaches them, and
    they are mapped to 0 here. *)
Definition int_of_float (x : float) : Z :=
  match x with
  | S754_finite s m e => cond_Zopp s (Z.shiftl (Zpos m) e)
  | _ => 0
  end.

(** [int((current / total) * 100) if total > 0 else 0] *)
Definition percentage_of (current total : Z) : Z :=
  if total >? 0
  then int_of_float (fmul (true_div current total) (float_of_int 100))
  else 0.

(** The dictionary stored under a job identifier. *)
Record snapshot : Type := Snapshot {
  snap_current : Z;
  snap_total : Z;
  snap_status : text;
  snap_percentage : Z
}.

(** [if self.job_id:] on an optional [str]: set and non-empty. *)
Definition job_id_set (job_id : option text) : option text :=
  match job_id with
  | Some j => if nonempty j then Some j else None
  | None => None
  end.

(** [update_progress], the same body in [DocumentProcessor] and in
    [OCRProcessor], acting on the module-level [progress_tracker]. *)
Definition update_progress (job_id : option text) (current total : Z)
    (status : text) (progress_tracker : gmap text snapshot) : gmap text snapshot :=
  match job_id_set job_id with
  | Some j =>
      <[ j := Snapshot current total status (percentage_of current total) ]>
        progress_tracker
  | None => progress_tracker
  end.

(** What the specification asks of the percentage: the floor of the exact
    quotient. *)
Definition spec_percentage (current total : Z) : Z :=
  if total >? 0 then (100 * current) / total else 0.

End Progress.

Import Progress.

(** ** Values, exceptions and the shared state *)

Module Runtime.

(** The result of code that may raise: a value, or [Exception(msg)] with
    [str(e) = msg]. *)
Inductive outcome (A : Type) : Type :=
| Returns (a : A)
| Raises (msg : text).

Arguments Returns {A} a.
Arguments Raises {A} msg.

(** What a unit processor may return: a [str], or [None]
    ([extract_corrected_text] is [Optional[str]]). *)
Inductive value : Type :=
| VNone
| VStr (s : text).

(** Truth value, as tested by [result if result else chunks[index]]. *)
Definition truthy (v : value) : bool :=
  match v with
  | VNone => false
  | VStr s => nonempty s
  end.

(** What an execution did, in order. [slot] is the index of the unit on
    whose behalf a call was made; it only labels the record. *)
Inductive event : Type :=
| EvSleep (secs : float)
| EvLock
| EvUnlock
| EvCall (slot : nat) (arg : text) (o : outcome value)
| EvExtract (slot : nat) (o : outcome text).

(** A future of the thread pool: not run yet, finished with a result, or
    already handed to the main loop by [as_completed]. *)
Inductive future (A : Type) : Type :=
| Pending
| Finished (a : A)
| Yielded.

Arguments Pending {A}.
Arguments Finished {A} a.
Arguments Yielded {A}.

(** The interleaving of one execution: a pool worker runs the task of
    unit [i], or [as_completed] yields the future of unit [i] to the main
    loop. *)
Inductive sched_event : Type :=
| Run (i : nat)
| Complete (i : nat).

Fixpoint after_run (i : nat) (sched : list sched_event) : option (list sched_event) :=
  match sched with
  | [] => None
  | Run j :: rest => if (j =? i)%nat then Some rest else after_run i rest
  | Complete _ :: rest => after_run i rest
  end.

Definition is_complete (i : nat) (ev : sched_event) : bool :=
  match ev with
  | Complete j => (j =? i)%nat
  | Run _ => false
  end.

(** Every one of the [n] tasks runs and its future is yielded afterwards:
    the executions in which the [as_completed] loop ends. *)
Definition schedule_ok (n : nat) (sched : list sched_event) : bool :=
  forallb
    (fun i => match after_run i sched with
              | Some rest => existsb (is_complete i) rest
              | None => false
              end)
    (seq 0 n).

Section World.

(** The world outside the process: the services the processors call and
    the clock. [time_time] is [time.time()], [time_sleep] is
    [time.sleep(secs)]. *)
Context {W : Type}.
Variable time_time : W -> float * W.
Variable time_sleep : float -> W -> W.

Record state : Type := State {
  world : W;
  last_request_time : float;
  progress_tracker : gmap text snapshot;
  trace : list event
}.

Definition with_world (w : W) (s : state) : state :=
  State w (last_request_time s) (progress_tracker s) (trace s).

Definition with_tracker (f : gmap text snapshot -> gmap text snapshot) (s : state) : state :=
  State (world s) (last_request_time s) (f (progress_tracker s)) (trace s).

Definition log (e : event) (s : state) : state :=
  State (world s) (last_request_time s) (progress_tracker s) (trace s ++ [e]).

Definition now (s : state) : float * state :=
  let '(t, w) := time_time (world s) in (t, with_world w s).

Definition sleep (secs : float) (s : state) : state :=
  log (EvSleep secs) (with_world (time_sleep secs (world s)) s).

(** The fields of [self] that do not change after [__init__]. *)
Record DocumentProcessor : Type := {
  max_workers : Z;
  min_request_interval : float;
  job_id : option text
}.

(** [0.2] *)
Definition one_fifth : float := S754_finite false 7205759403792794 (-55).

(** [DocumentProcessor.__init__]: the instance, and [last_request_time = 0]. *)
Definition init (max_workers : Z) (job_id : option text) : DocumentProcessor :=
  {| max_workers := max_workers; min_request_interval := one_fifth; job_id := job_id |}.

Definition initial_state (w : W) (tracker : gmap text snapshot) : state :=
  State w (float_of_int 0) tracker [].

(** A unit processor: called on a unit, it answers or raises, and may
    change the world. *)
Definition processor : Type := text -> W -> outcome value * W.

(** [process_with_rate_limit]: under the lock (between [EvLock] and
    [EvUnlock]) the clock is read, the thread sleeps for what is missing
    of the interval since [last_request_time], and the new start time is
    recorded; [process_func] is called after the lock is released. *)
Definition process_with_rate_limit (self : DocumentProcessor) (slot : nat)
    (process_func : processor) (arg : text) (s : state) : outcome value * state :=
  let s := log EvLock s in
  let '(current_time, s) := now s in
  let time_since_last := fsub current_time (last_request_time s) in
  let s :=
    if flt time_since_last (min_request_interval self)
    then sleep (fsub (min_request_interval self) time_since_last) s
    else s in
  let '(t, s) := now s in
  let s := State (world s) t (progress_tracker s) (trace s) in
  let s := log EvUnlock s in
  let '(o, w) := process_func arg (world s) in
  (o, log (EvCall slot arg o) (with_world w s)).

(** The test on [str(e)] that decides a retry. *)
Definition is_rate_limit (msg : text) : bool :=
  contains (lit "429") msg
  || contains (lit "quota") (lower msg)
  || contains (lit "rate") (lower msg).

(** [result if result else chunks[index]] *)
Definition or_chunk (result : value) (chunk : text) : value :=
  if truthy result then result else VStr chunk.

Definition status_line (operation_name : text) (completed total : nat) : text :=
  operation_name ++ lit ": " ++ str_of_nat completed ++ lit "/" ++ str_of_nat total.

(** [chunks[index]], for an index the dispatcher made itself. *)
Definition chunk_at (chunks : list text) (index : nat) : text :=
  default [] (chunks !! index).

Record job : Type := Job {
  futures : list (future (outcome value));
  results : list value;
  completed : nat;
  st : state
}.

(** Body of [for future in as_completed(future_to_index)], for the future
    of unit [index] that finished with [o]. *)
Definition handle (self : DocumentProcessor) (chunks : list text)
    (process_func : processor) (operation_name : text)
    (index : nat) (o : outcome value) (j : job) : job :=
  let total := length chunks in
  let completed := S (completed j) in
  let chunk := chunk_at chunks index in
  let s :=
    with_tracker
      (update_progress (job_id self) (Z.of_nat completed) (Z.of_nat total)
         (status_line operation_name completed total))
      (st j) in
  match o with
  | Returns result =>
      Job (futures j) (<[index := or_chunk result chunk]> (results j)) completed s
  | Raises e =>
      if is_rate_limit e
      then
        let s := sleep (float_of_int 5) s in
        let '(o', s) := process_with_rate_limit self index process_func chunk s in
        match o' with
        | Returns result =>
            Job (futures j) (<[index := or_chunk result chunk]> (results j)) completed s
        | Raises _ =>
            Job (futures j) (<[index := VStr chunk]> (results j)) completed s
        end
      else Job (futures j) (<[index := VStr chunk]> (results j)) completed s
  end.

(** One step of an execution. A worker runs the submitted call
    [process_with_rate_limit(process_func, chunk)] of a task that has not
    run; the main loop takes a finished future from [as_completed] and
    handles it. A step that names no such task or future changes nothing:
    a task runs once and a future is yielded once. *)
Definition step (self : DocumentProcessor) (chunks : list text)
    (process_func : processor) (operation_name : text)
    (j : job) (ev : sched_event) : job :=
  match ev with
  | Run i =>
      match futures j !! i, chunks !! i with
      | Some Pending, Some chunk =>
          let '(o, s) := process_with_rate_limit self i process_func chunk (st j) in
          Job (<[i := Finished o]> (futures j)) (results j) (completed j) s
      | _, _ => j
      end
  | Complete i =>
      match futures j !! i with
      | Some (Finished o) =>
          handle self chunks process_func operation_name i o
            (Job (<[i := Yielded]> (futures j)) (results j) (completed j) (st j))
      | _ => j
      end
  end.

(** [process_chunks_parallel], along the interleaving [sched].
    [ThreadPoolExecutor] refuses a pool of no workers. *)
Definition process_chunks_parallel (self : DocumentProcessor) (chunks : list text)
    (process_func : processor) (operation_name : text)
    (sched : list sched_event) (s : state) : outcome (list value) * state :=
  let n := length chunks in
  if max_workers self <=? 0
  then (Raises (lit "max_workers must be greater than 0"), s)
  else
    let j :=
      fold_left (step self chunks process_func operation_name) sched
        (Job (replicate n Pending) (replicate n VNone) O s) in
    (Returns (results j), st j).

(** *** The OCR page pipeline: [OCRProcessor.perform_ocr] *)

Section OCR.

(** A page image, and the request made for it: [image_to_base64] followed
    by [extract_text_from_image]. *)
Context {image : Type}.
Variable ocr_request : image -> W -> outcome text * W.

Definition page_status (prefix : text) (page total : nat) : text :=
  prefix ++ str_of_nat page ++ lit "/" ++ str_of_nat total.

(** The progress reports of [pdf_to_images], over the pages the
    rasteriser renders. *)
Definition pdf_to_images (job_id : option text) (pages : list image)
    (s : state) : list image * state :=
  let total_pages := length pages in
  (pages,
   fold_left
     (fun s page_num =>
        with_tracker
          (update_progress job_id (Z.of_nat (page_num + 1)) (Z.of_nat total_pages)
             (page_status (lit "Converting page ") (page_num + 1) total_pages)) s)
     (seq 0 total_pages) s).

(** The text a page contributes: what was extracted if it is not blank,
    the empty string otherwise and after a failure. *)
Definition page_text (o : outcome text) : text :=
  match o with
  | Returns t => if nonempty (strip t) then t else []
  | Raises _ => []
  end.

(** [ocr_page]: the whole body is under [try]; any failure gives
    [(index, "")]. *)
Definition ocr_page (job_id : option text) (total : nat) (index : nat) (img : image)
    (s : state) : (nat * text) * state :=
  let s :=
    with_tracker
      (update_progress job_id (Z.of_nat (index + 1)) (Z.of_nat total)
         (page_status (lit "Extracting text from page ") (index + 1) total)) s in
  let '(o, w) := ocr_request img (world s) in
  ((index, page_text o), log (EvExtract index o) (with_world w s)).

Record ocr_job : Type := OcrJob {
  page_futures : list (future (nat * text));
  extracted_texts : list value;
  ocr_st : state
}.

(** One step of [perform_ocr]: a worker runs [ocr_page] for a page, or
    the main loop stores the text of a finished page at its index. *)
Definition ocr_step (job_id : option text) (images : list image)
    (j : ocr_job) (ev : sched_event) : ocr_job :=
  match ev with
  | Run i =>
      match page_futures j !! i, images !! i with
      | Some Pending, Some img =>
          let '(r, s) := ocr_page job_id (length images) i img (ocr_st j) in
          OcrJob (<[i := Finished r]> (page_futures j)) (extracted_texts j) s
      | _, _ => j
      end
  | Complete i =>
      match page_futures j !! i with
      | Some (Finished (index, t)) =>
          OcrJob (<[i := Yielded]> (page_futures j))
            (<[index := VStr t]> (extracted_texts j)) (ocr_st j)
      | _ => j
      end
  end.

(** [[t for t in extracted_texts if t]] *)
Definition truthy_texts (l : list value) : list text :=
  flat_map
    (fun v => match v with
              | VStr t => if nonempty t then [t] else []
              | VNone => []
              end) l.

Definition perform_ocr (job_id : option text) (pages : list image)
    (sched : list sched_event) (s : state) : outcome text * state :=
  let '(images, s) := pdf_to_images job_id pages s in
  let total := length images in
  let j :=
    fold_left (ocr_step job_id images) sched
      (OcrJob (replicate total Pending) (replicate total VNone) s) in
  (Returns (join para_sep (truthy_texts (extracted_texts j))), ocr_st j).

End OCR.

End World.

End Runtime.

Import Runtime.

(** ** Proofreading: [ProofreadingProcessor] *)

Module Proofreading.

(** A [str] literal of the source with characters outside ASCII, given by
    its UTF-8 bytes. *)
Fixpoint utf8_decode (bs : list N) : text :=
  match bs with
  | [] => []
  | b0 :: r0 =>
      if (b0 <? 128)%N then b0 :: utf8_decode r0
      else
        match r0 with
        | [] => []
        | b1 :: r1 =>
            if (b0 <? 224)%N
            then ((b0 - 192) * 64 + (b1 - 128))%N :: utf8_decode r1
            else
              match r1 with
              | [] => []
              | b2 :: r2 =>
                  if (b0 <? 240)%N
                  then ((b0 - 224) * 4096 + (b1 - 128) * 64 + (b2 - 128))%N
                         :: utf8_decode r2
                  else
                    match r2 with
                    | [] => []
                    | b3 :: r3 =>
                        ((b0 - 240) * 262144 + (b1 - 128) * 4096
                         + (b2 - 128) * 64 + (b3 - 128))%N :: utf8_decode r3
                    end
              end
        end
  end.

Definition utf8 (s : string) : text := utf8_decode (lit s).

Definition QUOTE : char := 34%N.

(** [a == b] on two [str]. *)
Fixpoint text_eqb (a b : text) : bool :=
  match a, b with
  | [], [] => true
  | x :: a', y :: b' => (x =? y)%N && text_eqb a' b'
  | _, _ => false
  end.

(** The header the prompt asks the model to answer under. *)
Definition CORRECTED_TEXT : text := lit "CORRECTED_TEXT:".
Definition CHANGES_MADE : text := lit "CHANGES_MADE:".
Definition FORMATTING_APPLIED : text := lit "FORMATTING_APPLIED:".

Definition sections : list text := [CHANGES_MADE; FORMATTING_APPLIED].

Definition prefixes_to_remove : list text :=
  [lit "TECHNICAL ERRORS FOUND:"; CHANGES_MADE; FORMATTING_APPLIED;
   lit "No technical corrections needed"; lit "No obvious technical errors found"].

(** [if section in corrected_part: corrected_part = corrected_part.split(section)[0]] *)
Definition cut_section (corrected_part section : text) : text :=
  if contains section corrected_part
  then hd [] (split section corrected_part)
  else corrected_part.

(** [if cleaned_response.startswith(prefix):
       cleaned_response = cleaned_response[len(prefix):].strip()] *)
Definition remove_prefix (cleaned_response prefix : text) : text :=
  if startswith prefix cleaned_response
  then strip (drop (length prefix) cleaned_response)
  else cleaned_response.

(** The first block of [extract_corrected_text]: the text under the
    header, when there is one and it is not blank. *)
Definition marked_text (ai_response : text) : option text :=
  if contains CORRECTED_TEXT ai_response
  then
    let parts := split CORRECTED_TEXT ai_response in
    if (1 <? length parts)%nat
    then
      let corrected_part := nth 1 parts [] in
      let corrected_part := fold_left cut_section sections corrected_part in
      let corrected_text := strip corrected_part in
      if nonempty corrected_text then Some corrected_text else None
    else None
  else None.

(** [extract_corrected_text]; on a [str] nothing in its body raises. *)
Definition extract_corrected_text (ai_response : text) : value :=
  match marked_text ai_response with
  | Some corrected_text => VStr corrected_text
  | None =>
      let cleaned_response :=
        fold_left remove_prefix prefixes_to_remove (strip ai_response) in
      if len cleaned_response >? 50 then VStr cleaned_response else VNone
  end.

(** The two texts of [specific_instructions]. *)
Definition gujarati_instructions : text :=
  utf8 "
- Check for proper Gujarati matras (ા, િ, ી, ુ, ૂ, ૃ, ે, ૈ, ો, ૌ)
- Verify correct use of Gujarati conjuncts and half letters
- Check Gujarati punctuation marks (।, ॥, etc.)
- Ensure proper spacing in Gujarati text
- Fix common OCR errors in Gujarati: confusing similar letters (ત/ટ, પ/બ, ક/ખ, etc.)
".

Definition hindi_instructions : text :=
  utf8 "
- Check for proper Hindi matras (ा, ि, ी, ु, ू, ृ, े, ै, ो, ौ)
- Verify correct use of Hindi conjuncts and half letters
- Check Hindi punctuation marks (।, ॥, etc.)
- Ensure proper spacing in Hindi text
- Fix common OCR errors in Hindi: confusing similar letters (त/ट, प/फ, क/ख, द/ध, etc.)
".

Definition prompt_role : text :=
  utf8 "
ROLE & CORE DIRECTIVE: You are a meticulous digital text restorer. Your sole function is to correct technical errors from an OCR scan while perfectly preserving the original author's voice, style, and intent.

GUIDING PRINCIPLES:
 * The Rule of Minimum Intervention: Only change what is absolutely necessary to fix a clear technical OCR error.
 * The Rule of Stylistic Invisibility: Your corrections must be so perfectly matched to the original style that a reader would never know an OCR error ever existed.

YOUR TASKS (In Order of Priority):
LEVEL 1: PURELY TECHNICAL CORRECTIONS (Mechanical Fixes)
 * Character Recognition: Fix misidentified characters
 * Vowel Marks & Conjuncts (".

Definition prompt_tasks : text :=
  utf8 "): Correct any missing, extra, or broken matras, bindis/anusvaras, and repair broken conjunct characters
 * Spacing: Eliminate incorrect spaces inside words and add missing spaces between words
 * Punctuation: Correct OCR-mangled punctuation
 * Line Breaks & Hyphenation: Join words incorrectly split by end-of-line hyphenation
 * Formatting & Structure: Reconstruct paragraph breaks, preserve headings
   ".

Definition prompt_rules : text :=
  utf8 "

LEVEL 2: CONTEXT-AWARE CORRECTIONS (Word-Level Fixes)
 * Nonsensical Words: Replace words that are gibberish due to OCR errors
 * Style-Matched Replacement: Replacements MUST match the exact same formality and tone

ABSOLUTE PROHIBITIONS:
  DO NOT TRANSALATE THE CONTENT
 * DO NOT "
  ++ [QUOTE]
  ++ utf8 "IMPROVE"
  ++ [QUOTE]
  ++ utf8 " THE TEXT
 * DO NOT MODERNIZE OR SANITIZE
 * DO NOT ALTER THE TONE
 * DO NOT CHANGE VOCABULARY LEVEL
 * DO NOT REPHRASE FOR CLARITY

Text to process:
".

Definition prompt_format : text :=
  utf8 "

Response format:
CORRECTED_TEXT:
[Provide the corrected version with ONLY OCR errors fixed, maintaining the exact original style and tone.]
".

(** [specific_instructions], chosen by [language.lower() == 'gujarati']. *)
Definition specific_instructions (language : text) : text :=
  if text_eqb (lower language) (lit "gujarati")
  then gujarati_instructions
  else hindi_instructions.

(** The f-string [prompt]. *)
Definition proofread_prompt (text_chunk language : text) : text :=
  prompt_role ++ language ++ prompt_tasks ++ specific_instructions language
  ++ prompt_rules ++ text_chunk ++ prompt_format.

Section Model.

(** [self.model.generate_content(prompt)] followed by [response.text]:
    the text of the answer, or a failure of either. *)
Context {W : Type}.
Variable generate_content : text -> W -> outcome text * W.

(** [proofread_chunk]: whatever fails under [try] gives the chunk back. *)
Definition proofread_chunk (language : text) : @processor W :=
  fun text_chunk w =>
    match generate_content (proofread_prompt text_chunk language) w with
    | (Returns response_text, w') =>
        (Returns (extract_corrected_text response_text), w')
    | (Raises _, w') => (Returns (VStr text_chunk), w')
    end.

End Model.

End Proofreading.

Import Proofreading.

(** ** Translation: [TranslationProcessor] *)

Module Translation.

Definition LT : char := 60%N.
Definition GT : char := 62%N.

(** Whether the character [p] of a pattern matches the character [c] of
    the text under [re.IGNORECASE]. The patterns are written with the
    lower-case letters of "sanskrit" and with punctuation: a letter
    matches itself, its capital, and for i, k and s also U+0130 and
    U+0131, the Kelvin sign U+212A, and the long s U+017F. *)
Definition ci_eq (p c : char) : bool :=
  ((p =? c) || (lower_char c =? p)
   || ((p =? 105) && ((c =? 304) || (c =? 305)))
   || ((p =? 107) && (c =? 8490))
   || ((p =? 115) && (c =? 383)))%N.

(** The literal [p] matches at the start of [s]. *)
Fixpoint ci_startswith (p s : text) : bool :=
  match p, s with
  | [], _ => true
  | _ :: _, [] => false
  | a :: p', c :: s' => ci_eq a c && ci_startswith p' s'
  end.

(** [(.*?)close] with [re.DOTALL]: the shortest content after which
    [close] matches, and what follows the match. *)
Fixpoint find_close (close : text) (s : text) : option (text * text) :=
  if ci_startswith close s then Some ([], drop (length close) s)
  else
    match s with
    | [] => None
    | c :: s' =>
        match find_close close s' with
        | Some (content, rest) => Some (c :: content, rest)
        | None => None
        end
    end.

(** [re.sub(open(.*?)close, r'<\1>', s, flags=re.DOTALL | re.IGNORECASE)]:
    matches are looked for from left to right and do not overlap; [skip]
    counts the characters of the match just replaced that are still to be
    passed over. *)
Fixpoint sub_go (open close : text) (skip : nat) (s : text) : text :=
  match s with
  | [] => []
  | c :: s' =>
      match skip with
      | S k => sub_go open close k s'
      | O =>
          if ci_startswith open s
          then
            match find_close close (drop (length open) s) with
            | Some (content, _) =>
                LT :: content ++ GT ::
                  sub_go open close
                    (Nat.pred (length open + length content + length close)) s'
            | None => c :: sub_go open close O s'
            end
          else c :: sub_go open close O s'
      end
  end.

Definition sub_tagged (tags : text * text) (s : text) : text :=
  sub_go (fst tags) (snd tags) O s.

(** The four patterns, as opening and closing literal. *)
Definition patterns : list (text * text) :=
  [(lit "*sanskrit*", lit "*/sanskrit*");
   (lit "**sanskrit**", lit "**/sanskrit**");
   (lit "[sanskrit]", lit "[/sanskrit]");
   (lit "<sanskrit>", lit "</sanskrit>")].

Definition clean_sanskrit_formatting (t : text) : text :=
  fold_left (fun t tags => sub_tagged tags t) patterns t.

Definition translation_a : text :=
  utf8 "You are a master translator and literary stylist specializing in texts with high cultural and religious specificity. Your primary goal is to produce a polished, high-register ".

Definition translation_b : text :=
  utf8 " translation that prioritizes natural flow, contextual dignity, and cultural resonance for the specified audience, moving far beyond literal or word-for-word rendering.

USER QUERY:

Translate the following source document into simple yet professional, highly fluent ".

Definition translation_c : text :=
  utf8 ". CRITICAL OUTPUT RULE: The final response MUST consist SOLELY of the translated text. Do not include any introductory phrases, file headers, AI-generated headings, metadata, commentary, or extraneous text whatsoever.

Preprocessing:
The source text may contain scanning errors (OCR mistakes). Your critical first step is to look past these technical flaws to discern the author's true, intended words and meaning. Do not "
  ++ [QUOTE]
  ++ utf8 "correct"
  ++ [QUOTE]
  ++ utf8 " the style, only reconstruct the text to make it intelligible for translation.

Translation Strategy & Non-Negotiable Rules:

Step 1: Document Analysis (Internal Only): Before generating the first word of the translation, you must internally analyze the provided text to determine:

Original Writing Style: Identify the core stylistic register (e.g., highly academic, devotional/hymnal, historical narrative, legal/prescriptive, direct instructional, etc.).

Document Type & Genre: Classify the specific type (e.g., philosophical treatise, historical commentary, religious sermon, contemporary report) and the general genre (e.g., philosophy, spirituality, history).

Step 2: Automated Style Directive (Genre-Based Translation): You must automatically select the most appropriate elevated ".

Definition translation_d : text :=
  utf8 " style (e.g., Scholarly/Academic, Devotional/Inspirational, or Modern/Interpretive) that directly corresponds to the identified Document Type & Genre (from Step 1). This ensures the translation's tone and syntax are inherently suited to the text's original purpose, without requiring further user input.

Step 3: Target Audience Adaptation (Indian ".

Definition translation_e : text :=
  utf8 "): The entire tone and lexicon must be optimized for an educated Indian ".

Definition translation_f : text :=
  utf8 "-speaking audience. Favor vocabulary and phrasing that is precise, formal, and widely understood within that context, avoiding overly colloquial, American, or casual Western phrasing.

CRITICAL NOTIFICATION: Jain Terminology Preservation: DO NOT TRANSLATE core Jain religious, philosophical, or technical terms (e.g., Anekantavada, Samyak Charitra, Kevala Jnana, Tirthankara, etc.). These terms must be preserved as they are transliterated in the source text, ensuring the religious and scholarly integrity of the document is maintained. Only surrounding contextual language should be translated. Text within <brackets> should be kept as is since it's usually Sanskrit/technical terms.

Text:
".

Definition translation_g : text :=
  utf8 "

Response format:
[Provide the complete translated text maintaining structure and formatting.]
".

(** [self.translation_prompt.format(target_lang=..., text_chunk=...)] *)
Definition translation_prompt (target_lang text_chunk : text) : text :=
  translation_a ++ target_lang ++ translation_b ++ target_lang
  ++ translation_c ++ target_lang ++ translation_d ++ target_lang
  ++ translation_e ++ target_lang ++ translation_f ++ text_chunk
  ++ translation_g.

Section Model.

Context {W : Type}.
Variable generate_content : text -> W -> outcome text * W.

(** [translate_chunk]; [source_lang] is not used by the source either. *)
Definition translate_chunk (source_lang target_lang : text) : @processor W :=
  fun text_chunk w =>
    let cleaned_text := clean_sanskrit_formatting text_chunk in
    match generate_content (translation_prompt target_lang cleaned_text) w with
    | (Returns response_text, w') => (Returns (VStr (strip response_text)), w')
    | (Raises _, w') => (Returns (VStr text_chunk), w')
    end.

End Model.

End Translation.

Import Translation.

(** ** Vocabulary of the statements *)

Module Vocabulary.

(** *** Chunker *)

(** No leading whitespace. *)
Definition no_lead (s : text) : Prop :=
  match s with
  | [] => True
  | c :: _ => isspace c = false
  end.

Definition all_space (ws : text) : Prop := Forall (fun c => isspace c = true) ws.




(** The characters of a text that are not whitespace, in order. *)
Definition visible (c : char) : bool := negb (isspace c).

Definition visible_text (s : text) : text := List.filter visible s.

(** Neither whitespace nor the danda. *)
Definition not_boundary (c : char) : bool := negb (isspace c) && negb (c =? DANDA)%N.

(** The characters that separate paragraphs and sentences. *)
Definition boundary_char (c : char) : bool := isspace c || (c =? DANDA)%N.

(** The chunks in order, with [seps] put back between them. *)
Fixpoint rejoin (seps : list text) (chunks : list text) : text :=
  match chunks with
  | [] => []
  | c :: cs =>
      match cs with
      | [] => c
      | _ :: _ =>
          match seps with
          | [] => c ++ rejoin [] cs
          | sp :: seps' => c ++ sp ++ rejoin seps' cs
          end
      end
  end.

(** The chunks reconstruct [t] up to whitespace: for some boundary
    characters put back between the chunks, the result has the
    non-whitespace characters of [t], all of them and in order. *)
Definition reconstructs (t : text) (chunks : list text) : Prop :=
  exists seps,
    Forall (Forall (fun c => boundary_char c = true)) seps /\
    visible_text (rejoin seps chunks) = visible_text t.

(** No paragraph longer than the limit contains the danda. *)
Definition no_danda_split (t : text) (max_chunk_size : Z) : bool :=
  forallb (fun p => negb (len p >? max_chunk_size) || negb (contains danda_sep p))
    (split para_sep t).

(** Three sentences in one paragraph: "a", danda, "b", danda, "c". *)
Definition three_sentences : text := [97; 2404; 98; 2404; 99]%N.

(** What a loop state of the chunker holds of the characters [keep]
    selects: those of the chunks emitted so far, then those of the buffer. *)
Definition kept (keep : char -> bool) (a : acc) : text :=
  List.filter keep (concat (fst a) ++ snd a).

(** *** Progress reporter *)

(** The percentage, over every pair of counts up to [n]: within [0,100],
    and the floor the specification asks for or one below it. *)
Definition percentages_close (n : nat) : bool :=
  forallb
    (fun total =>
       forallb
         (fun current =>
            let p := percentage_of (Z.of_nat current) (Z.of_nat total) in
            let q := spec_percentage (Z.of_nat current) (Z.of_nat total) in
            (0 <=? p) && (p <=? 100) && (q - 1 <=? p) && (p <=? q))
         (seq 0 (S total)))
    (seq 0 (S n)).

(** *** Dispatcher *)

(** The calls made on behalf of unit [i], in order: argument and answer. *)
Definition calls_of (i : nat) (tr : list event) : list (text * outcome value) :=
  flat_map
    (fun e => match e with
              | EvCall j u o => if (j =? i)%nat then [(u, o)] else []
              | _ => []
              end) tr.

(** [time.sleep(5)] *)
Definition five_seconds : float := float_of_int 5.

(** What the rate limiter may do between taking and releasing the lock:
    nothing, or one sleep. *)
Definition pacing (pace : list event) : Prop :=
  pace = [] \/ exists d, pace = [EvSleep d].

(** The events of one call made through [process_with_rate_limit]: the
    guarded pacing, then the call, outside the lock. *)
Definition limited_call (slot : nat) (u : text) (o : outcome value)
    (evs : list event) : Prop :=
  exists pace, pacing pace /\ evs = EvLock :: pace ++ [EvUnlock; EvCall slot u o].

(** The value stored after the only or the second call. *)
Definition stored (u : text) (o : outcome value) : value :=
  match o with
  | Returns r => or_chunk r u
  | Raises _ => VStr u
  end.

(** The entry the specification asks for at the index of the unit [u],
    given what the last call made on [u] gave: an answer that is a
    non-empty string is the entry; after anything else (a failure,
    [None], the empty string) the entry is the unit, unchanged. Written
    from the specification, without the dispatcher's own test. *)
Definition expected_entry (u : text) (o : outcome value) : value :=
  match o with
  | Returns (VStr (c :: answer)) => VStr (c :: answer)
  | _ => VStr u
  end.

(** What the dispatcher did for unit [i], [u = chunks[i]], as the record
    [tr] of the execution shows it, and the value [v] it stored:
    one call that answered; one call that failed outside the rate-limit
    class; or a rate-limit failure, then the back-off of five seconds and
    one more call through the rate limiter. *)
Inductive slot_done (i : nat) (u : text) (tr : list event) : value -> Prop :=
| done_returned r :
    calls_of i tr = [(u, Returns r)] ->
    slot_done i u tr (or_chunk r u)
| done_failed e :
    is_rate_limit e = false ->
    calls_of i tr = [(u, Raises e)] ->
    slot_done i u tr (VStr u)
| done_retried e o' pre evs post :
    is_rate_limit e = true ->
    tr = pre ++ EvSleep five_seconds :: evs ++ post ->
    calls_of i pre = [(u, Raises e)] ->
    limited_call i u o' evs ->
    calls_of i post = [] ->
    slot_done i u tr (stored u o').

(** An answer after which the dispatcher does not call again: a failure
    outside the rate-limit class, or an empty result. *)
Definition final_fallback (o : outcome value) : bool :=
  match o with
  | Raises e => negb (is_rate_limit e)
  | Returns r => negb (truthy r)
  end.

(** What holds of unit [i], [u = chunks[i]], at any point of an execution,
    by the state of its future. *)
Definition slot_inv {W : Type} (j : @job W) (i : nat) (u : text) : Prop :=
  match futures j !! i with
  | Some Pending => calls_of i (trace (st j)) = []
  | Some (Finished o) => calls_of i (trace (st j)) = [(u, o)]
  | Some Yielded =>
      exists v, results j !! i = Some v /\ slot_done i u (trace (st j)) v
  | None => False
  end.

Definition job_inv {W : Type} (chunks : list text) (j : @job W) : Prop :=
  length (futures j) = length chunks /\
  length (results j) = length chunks /\
  forall i u, chunks !! i = Some u -> slot_inv j i u.

(** The task of unit [i] has run. *)
Definition started {A : Type} (fs : list (future A)) (i : nat) : Prop :=
  match fs !! i with
  | Some (Finished _) | Some Yielded => True
  | _ => False
  end.

(** The unit a step of the interleaving is about. *)
Definition sched_index (ev : sched_event) : nat :=
  match ev with
  | Run i | Complete i => i
  end.

(** Every call on record was answered as [answer] says. *)
Definition answers_recorded (answer : text -> outcome value) (tr : list event) : Prop :=
  Forall
    (fun e => match e with
              | EvCall _ u o => o = answer u
              | _ => True
              end) tr.

(** The message of the processor that always hits the quota. *)
Definition quota_exceeded : text := lit "429 quota exceeded".

(** *** OCR page pipeline *)

(** The answers recorded for the request of page [i], in order. *)
Definition extracts_of (i : nat) (tr : list event) : list (outcome text) :=
  flat_map
    (fun e => match e with
              | EvExtract j o => if (j =? i)%nat then [o] else []
              | _ => []
              end) tr.


(** What holds of page [i] at any point of an execution of [perform_ocr]. *)
Definition page_inv {W : Type} (j : @ocr_job W) (i : nat) : Prop :=
  match page_futures j !! i with
  | Some Pending => extracts_of i (trace (ocr_st j)) = []
  | Some (Finished (k, t)) =>
      k = i /\ exists o, extracts_of i (trace (ocr_st j)) = [o] /\ t = page_text o
  | Some Yielded =>
      exists o, extracts_of i (trace (ocr_st j)) = [o] /\
                extracted_texts j !! i = Some (VStr (page_text o))
  | None => False
  end.

Definition ocr_inv {W : Type} (n : nat) (j : @ocr_job W) : Prop :=
  length (page_futures j) = n /\
  length (extracted_texts j) = n /\
  forall i, (i < n)%nat -> page_inv j i.

(** *** Concrete executions *)

(** A small execution used to instantiate the statements: a world that
    counts the calls, a clock that stands still, two units, and an
    interleaving in which the second unit runs and completes first. *)
Definition demo_time (w : nat) : float * nat := (float_of_int 1000, w).
Definition demo_sleep (secs : float) (w : nat) : nat := w.
Definition demo_self : DocumentProcessor := init 5 (Some (lit "job")).
Definition demo_chunks : list text := [lit "alpha"; lit "beta"].
Definition demo_sched : list sched_event := [Run 1; Run 0; Complete 1; Complete 0]%nat.
Definition demo_state : @state nat := initial_state O ∅.

Definition shouting : @processor nat :=
  fun u w => (Returns (VStr (u ++ lit "!")), S w).
Definition always_quota : @processor nat :=
  fun u w => (Raises quota_exceeded, S w).
Definition always_broken : @processor nat :=
  fun u w => (Raises (lit "boom"), S w).

(** Three pages; the request for the second one fails. *)
Definition three_pages : list nat := [0; 1; 2]%nat.
Definition second_fails (page : nat) (w : nat) : outcome text * nat :=
  match page with
  | 0%nat => (Returns (lit "first page"), S w)
  | 1%nat => (Raises (lit "Google Vision API error: timeout"), S w)
  | _ => (Returns (lit "third page"), S w)
  end.
Definition ocr_sched : list sched_event :=
  [Run 2; Run 0; Complete 2; Run 1; Complete 1; Complete 0]%nat.

(** *** More about the dispatcher *)

Definition is_yielded {A : Type} (f : future A) : bool :=
  match f with
  | Yielded => true
  | _ => false
  end.

(** How many futures the main loop has taken. *)
Definition yielded_count {A : Type} (fs : list (future A)) : nat :=
  length (List.filter is_yielded fs).

(** Every call on record satisfies [Q] (slot, argument, answer). *)
Definition calls_recorded (Q : nat -> text -> outcome value -> Prop)
    (tr : list event) : Prop :=
  Forall
    (fun e => match e with
              | EvCall i u o => Q i u o
              | _ => True
              end) tr.

(** The snapshot written when [done] of [total] units are complete. *)
Definition progress_snapshot (operation_name : text) (done total : nat) : snapshot :=
  Snapshot (Z.of_nat done) (Z.of_nat total) (status_line operation_name done total)
    (percentage_of (Z.of_nat done) (Z.of_nat total)).

(** The progress store while the loop runs, from the store [tracker0] it
    started with: untouched before the first completion and without a job
    identifier, and holding the latest count under the job's key after. *)
Definition progress_inv {W : Type} (job_id : option text) (operation_name : text)
    (total : nat) (tracker0 : gmap text snapshot) (j : @job W) : Prop :=
  completed j = yielded_count (futures j) /\
  match job_id_set job_id, completed j with
  | Some k, S _ =>
      progress_tracker (st j) =
        <[k := progress_snapshot operation_name (completed j) total]> tracker0
  | _, _ => progress_tracker (st j) = tracker0
  end.

(** 1.0 and 100.0 *)
Definition float_one : float := S754_finite false 4503599627370496 (-52).
Definition float_hundred : float := S754_finite false 7036874417766400 (-46).

(** *** Proofreading *)

(** [r] is a contiguous part of [s]. *)
Definition part_of (r s : text) : Prop := exists a b, s = a ++ r ++ b.




(** Two texts agree as far as both go. *)
Fixpoint agree (a b : text) : bool :=
  match a, b with
  | x :: a', y :: b' => (x =? y)%N && agree a' b'
  | _, _ => true
  end.

(** An occurrence of [sep] that begins before a text starting with [h]
    could run into it: a proper tail of [sep] agrees with [h]. *)
Definition overlaps (sep h : text) : bool :=
  existsb (fun k => agree (drop k sep) h) (seq 1 (length sep - 1)).

(** An occurrence of [sep] could begin inside [h]. *)
Definition inside (sep h : text) : bool :=
  existsb (fun j => agree sep (drop j h)) (seq 0 (length h)).

(** The three headers of an answer. *)
Definition headers : list text := [CORRECTED_TEXT; CHANGES_MADE; FORMATTING_APPLIED].

(** A text the dispatcher may store for a proofread unit: non-empty and
    without surrounding whitespace. *)
Definition clean_text (r : text) : Prop := nonempty r = true /\ strip r = r.

(** *** The rate limiter *)

(** The exact value of a binary64 number, counted in units of 2^-1074,
    the smallest positive one: an integer for every finite number. *)
Definition ulps (x : float) : Z :=
  match x with
  | S754_finite s m e => cond_Zopp s (Zpos m * 2 ^ (e + 1074))
  | _ => 0
  end.

(** A finite binary64 number in its canonical form. *)
Definition canonical (x : float) : Prop :=
  match x with
  | S754_zero _ => True
  | S754_finite _ m e => bounded prec emax m e = true
  | _ => False
  end.

(** What the specification asks of two recorded start times: the later
    one is at least [min_interval] after the earlier one, exactly. *)
Definition apart (min_interval t t' : float) : Prop :=
  ulps t + ulps min_interval <= ulps t'.

(** The conditions on the clock during the pass through the limiter that
    starts in state [s]: the two subtractions of the limiter are exact on
    the readings (their results are the exact differences), the sleep,
    when there is one, lasts at least as long as asked, measured by the
    readings before and after it, and the clock does not run backwards. *)
Definition honest_pass {W : Type} (time_time : W -> float * W)
    (time_sleep : float -> W -> W) (self : DocumentProcessor) (s : @state W) : Prop :=
  let '(t1, w1) := time_time (world s) in
  let elapsed := fsub t1 (last_request_time s) in
  let wait := fsub (min_request_interval self) elapsed in
  let slept := flt elapsed (min_request_interval self) in
  let '(t2, _) := time_time (if slept then time_sleep wait w1 else w1) in
  canonical elapsed /\
  ulps elapsed = ulps t1 - ulps (last_request_time s) /\
  (slept = true ->
     ulps wait = ulps (min_request_interval self) - ulps elapsed /\
     ulps t1 + ulps wait <= ulps t2) /\
  (slept = false -> ulps t1 <= ulps t2).

(** Acquisitions one after the other, in the order in which the workers
    take the lock: each is one pass through [process_with_rate_limit]. *)
Definition rapid {W : Type} (time_time : W -> float * W)
    (time_sleep : float -> W -> W) (self : DocumentProcessor)
    (process_func : @processor W) (calls : list (nat * text)) (s : @state W) : @state W :=
  fold_left
    (fun s call =>
       snd (process_with_rate_limit time_time time_sleep self (fst call) process_func
              (snd call) s))
    calls s.

(** [x + y] in binary64. *)
Definition fadd : float -> float -> float := SFadd prec emax.

(** A clock that loses no time: the world is the time it shows, reading
    it takes no time, and a sleep adds its duration, in binary64. *)
Definition ideal_time (w : float) : float * float := (w, w).
Definition ideal_sleep (secs : float) (w : float) : float := fadd w secs.

(** A processor that takes no time. *)
Definition instant : @processor float := fun u w => (Returns (VStr u), w).

(** Two acquisitions in a row on that clock, started at [T] seconds with
    a fresh limiter ([last_request_time = 0]). *)
Definition after_first (T : Z) : @state float :=
  snd (process_with_rate_limit ideal_time ideal_sleep (init 5 None) 0 instant (lit "a")
         (initial_state (float_of_int T) ∅)).
Definition after_second (T : Z) : @state float :=
  snd (process_with_rate_limit ideal_time ideal_sleep (init 5 None) 1 instant (lit "b")
         (after_first T)).

(** Three more acquisitions, and the state they start from: the clock
    shows 1000 s and the last start was recorded at 1000 s. *)
Definition three_calls : list (nat * text) :=
  [(0%nat, lit "a"); (1%nat, lit "b"); (2%nat, lit "c")].
Definition at_1000 : @state float :=
  State (float_of_int 1000) (float_of_int 1000) ∅ [].

(** *** Translation *)

(** A character of the patterns that is not a lower-case letter. *)
Definition symbol (m : char) : Prop := (m < 97 \/ 122 < m)%N.

(** The characters that open or close a marker: * / < [ *)
Definition marker (c : char) : bool :=
  ((c =? 42) || (c =? 47) || (c =? 60) || (c =? 91))%N.

(** A text without any of them. *)
Definition plain (s : text) : bool := forallb (fun c => negb (marker c)) s.

(** [s] is the literal [p] of a pattern, in some mix of upper and lower
    case. *)
Definition written_as (p s : text) : Prop :=
  length s = length p /\ ci_startswith p s = true.

(** The three markers with one delimiter character. *)
Definition single_tags : list (text * text) :=
  [(lit "*sanskrit*", lit "*/sanskrit*");
   (lit "[sanskrit]", lit "[/sanskrit]");
   (lit "<sanskrit>", lit "</sanskrit>")].


(** *** More about the OCR page pipeline *)

(** Every request on record satisfies [Q] (page index, answer). *)
Definition extracts_recorded (Q : nat -> outcome text -> Prop)
    (tr : list event) : Prop :=
  Forall
    (fun e => match e with
              | EvExtract i o => Q i o
              | _ => True
              end) tr.

(** The snapshot [ocr_page] writes when the task of page [index] starts. *)
Definition page_snapshot (index total : nat) : snapshot :=
  Snapshot (Z.of_nat (index + 1)) (Z.of_nat total)
    (page_status (lit "Extracting text from page ") (index + 1) total)
    (percentage_of (Z.of_nat (index + 1)) (Z.of_nat total)).

(** The snapshot [pdf_to_images] writes for page number [page]. *)
Definition convert_snapshot (page total : nat) : snapshot :=
  Snapshot (Z.of_nat page) (Z.of_nat total)
    (page_status (lit "Converting page ") page total)
    (percentage_of (Z.of_nat page) (Z.of_nat total)).

(** A model that is out of quota, and one that answers. *)
Definition busy_model (prompt : text) (w : nat) : outcome text * nat :=
  (Raises quota_exceeded, S w).
Definition terse_model (prompt : text) (w : nat) : outcome text * nat :=
  (Returns (lit "  done  "), S w).

End Vocabulary.

Import Vocabulary.

(** * Properties *)

(** ** Facts about [strip], [split] and [join] *)

Section TextFacts.

Lemma lstrip_all_space (ws : text) :
  Forall (fun c => isspace c = true) ws -> lstrip ws = [].
Proof.
  induction 1 as [| c ws Hc _ IH]; simpl; [reflexivity |].
  rewrite Hc. exact IH.
Qed.

Lemma rstrip_all_space (ws : text) :
  Forall (fun c => isspace c = true) ws -> rstrip ws = [].
Proof.
  induction 1 as [| c ws Hc _ IH]; simpl; [reflexivity |].
  rewrite IH, Hc. reflexivity.
Qed.

Lemma rstrip_app_space (s ws : text) :
  Forall (fun c => isspace c = true) ws -> rstrip (s ++ ws) = rstrip s.
Proof.
  intros Hws. induction s as [| c s IH]; simpl.
  - apply rstrip_all_space, Hws.
  - rewrite IH. reflexivity.
Qed.

Lemma strip_app_space (s ws : text) :
  Forall (fun c => isspace c = true) ws -> strip (s ++ ws) = strip s.
Proof.
  intros Hws. unfold strip. induction s as [| c s IH]; simpl.
  - rewrite (lstrip_all_space ws Hws). reflexivity.
  - destruct (isspace c); [exact IH |].
    apply (rstrip_app_space (c :: s) ws Hws).
Qed.

Lemma length_lstrip (s : text) : (length (lstrip s) <= length s)%nat.
Proof.
  induction s as [| c s IH]; simpl; [lia |].
  destruct (isspace c); simpl; lia.
Qed.

Lemma length_rstrip (s : text) : (length (rstrip s) <= length s)%nat.
Proof.
  induction s as [| c s IH]; simpl; [lia |].
  destruct (rstrip s) as [| x r]; [destruct (isspace c) |]; simpl in *; lia.
Qed.

Lemma len_strip (s : text) : len (strip s) <= len s.
Proof.
  unfold len, strip.
  pose proof (length_rstrip (lstrip s)). pose proof (length_lstrip s). lia.
Qed.

Lemma lstrip_no_lead (s : text) : no_lead (lstrip s).
Proof.
  induction s as [| c s IH]; simpl; [exact I |].
  destruct (isspace c) eqn:Hc; [exact IH | exact Hc].
Qed.

Lemma lstrip_fixed (s : text) : no_lead s -> lstrip s = s.
Proof.
  destruct s as [| c s]; simpl; [reflexivity |].
  intros ->. reflexivity.
Qed.

Lemma rstrip_no_lead (s : text) : no_lead s -> no_lead (rstrip s).
Proof.
  destruct s as [| c s]; simpl; [exact id |].
  intros Hc. destruct (rstrip s); [rewrite Hc |]; exact Hc.
Qed.

Lemma rstrip_idem (s : text) : rstrip (rstrip s) = rstrip s.
Proof.
  induction s as [| c s IH]; simpl; [reflexivity |].
  destruct (rstrip s) as [| x r] eqn:Hr.
  - destruct (isspace c) eqn:Hc; simpl; [reflexivity |].
    rewrite Hc. reflexivity.
  - change (rstrip (c :: x :: r)) with
      (match rstrip (x :: r) with
       | [] => if isspace c then [] else [c]
       | y :: r' => c :: y :: r'
       end).
    rewrite IH. reflexivity.
Qed.

Lemma strip_idem (s : text) : strip (strip s) = strip s.
Proof.
  unfold strip.
  rewrite (lstrip_fixed (rstrip (lstrip s))).
  - apply rstrip_idem.
  - apply rstrip_no_lead, lstrip_no_lead.
Qed.

(** Stripping removes whitespace only. *)
Lemma filter_lstrip (keep : char -> bool) (s : text) :
  (forall c, isspace c = true -> keep c = false) ->
  List.filter keep (lstrip s) = List.filter keep s.
Proof.
  intros Hk. induction s as [| c s IH]; simpl; [reflexivity |].
  destruct (isspace c) eqn:Hc; [| reflexivity].
  rewrite (Hk c Hc). exact IH.
Qed.

Lemma filter_rstrip (keep : char -> bool) (s : text) :
  (forall c, isspace c = true -> keep c = false) ->
  List.filter keep (rstrip s) = List.filter keep s.
Proof.
  intros Hk. induction s as [| c s IH]; simpl; [reflexivity |].
  destruct (rstrip s) as [| x r].
  - rewrite <- IH. destruct (isspace c) eqn:Hc; simpl.
    + rewrite (Hk c Hc). reflexivity.
    + destruct (keep c); reflexivity.
  - rewrite <- IH. reflexivity.
Qed.

Lemma filter_strip (keep : char -> bool) (s : text) :
  (forall c, isspace c = true -> keep c = false) ->
  List.filter keep (strip s) = List.filter keep s.
Proof.
  intros Hk. unfold strip.
  rewrite (filter_rstrip keep _ Hk). apply (filter_lstrip keep _ Hk).
Qed.

Lemma split_go_skip (sep : text) (k : nat) (s : text) :
  split_go sep k s = split sep (drop k s).
Proof.
  revert k. induction s as [| c s IH]; intros [| k]; try reflexivity.
  simpl. apply IH.
Qed.

(** The equation of [split] on a non-empty string. *)
Lemma split_cons (sep : text) (c : char) (s : text) :
  split sep (c :: s) =
  if startswith sep (c :: s)
  then [] :: split sep (drop (Nat.pred (length sep)) s)
  else cons_head c (split sep s).
Proof.
  unfold split at 1. cbn [split_go].
  destruct (startswith sep (c :: s)); [| reflexivity].
  rewrite split_go_skip. reflexivity.
Qed.

Lemma split_not_nil (sep s : text) : split sep s <> [].
Proof.
  destruct s as [| c s]; [discriminate |].
  rewrite split_cons. destruct (startswith sep (c :: s)); [discriminate |].
  destruct (split sep s); discriminate.
Qed.

Lemma startswith_app (p s : text) :
  startswith p s = true -> s = p ++ drop (length p) s.
Proof.
  revert s. induction p as [| a p IH]; intros s H; [reflexivity |].
  destruct s as [| c s]; [discriminate |]. simpl in H.
  apply andb_prop in H as [Hac Hp]. apply N.eqb_eq in Hac. subst c.
  simpl. f_equal. apply IH, Hp.
Qed.

Lemma join_cons_head (sep : text) (c : char) (ps : list text) :
  ps <> [] -> join sep (cons_head c ps) = c :: join sep ps.
Proof.
  destruct ps as [| p [| q ps]]; [congruence | reflexivity | reflexivity].
Qed.

Lemma join_nil_cons (sep : text) (ps : list text) :
  ps <> [] -> join sep ([] :: ps) = sep ++ join sep ps.
Proof. destruct ps; [congruence | reflexivity]. Qed.

(** Splitting loses nothing: joining the pieces gives the string back. *)
Lemma join_split (sep s : text) : sep <> [] -> join sep (split sep s) = s.
Proof.
  intros Hsep.
  assert (H : forall n s, (length s <= n)%nat -> join sep (split sep s) = s).
  { clear s. induction n as [| n IH]; intros [| c s] Hn; try reflexivity.
    - simpl in Hn. lia.
    - rewrite split_cons. destruct (startswith sep (c :: s)) eqn:Hp.
      + rewrite join_nil_cons by apply split_not_nil.
        rewrite IH by (rewrite length_drop; simpl in Hn; lia).
        destruct sep as [| a sep]; [congruence |].
        apply startswith_app in Hp. simpl in Hp. simpl Nat.pred.
        symmetry. exact Hp.
      + rewrite join_cons_head by apply split_not_nil.
        rewrite IH by (simpl in Hn; lia). reflexivity. }
  apply (H (length s)). lia.
Qed.

Lemma split_without (sep s : text) : contains sep s = false -> split sep s = [s].
Proof.
  induction s as [| c s IH]; intros H; [reflexivity |].
  rewrite split_cons. simpl contains in H.
  apply orb_false_elim in H as [H1 H2].
  rewrite H1, (IH H2). reflexivity.
Qed.

Lemma filter_join (keep : char -> bool) (sep : text) (ps : list text) :
  List.filter keep sep = [] ->
  List.filter keep (join sep ps) = List.filter keep (concat ps).
Proof.
  intros Hsep. induction ps as [| p [| q ps] IH]; [reflexivity | |].
  - simpl. rewrite app_nil_r. reflexivity.
  - change (join sep (p :: q :: ps)) with (p ++ sep ++ join sep (q :: ps)).
    change (concat (p :: q :: ps)) with (p ++ concat (q :: ps)).
    rewrite !List.filter_app, Hsep, IH. reflexivity.
Qed.

(** The pieces of a split hold every character the separator does not. *)
Lemma filter_split (keep : char -> bool) (sep s : text) :
  sep <> [] -> List.filter keep sep = [] ->
  List.filter keep (concat (split sep s)) = List.filter keep s.
Proof.
  intros Hne Hsep. rewrite <- (filter_join keep sep) by exact Hsep.
  rewrite join_split by exact Hne. reflexivity.
Qed.

End TextFacts.

(** ** The chunker *)

Section ChunkerFacts.

Lemma gtb_false_iff (a b : Z) : (a >? b) = false <-> a <= b.
Proof. rewrite Z.gtb_ltb. apply Z.ltb_ge. Qed.

Lemma gtb_true_iff (a b : Z) : (a >? b) = true <-> b < a.
Proof. rewrite Z.gtb_ltb. apply Z.ltb_lt. Qed.

Lemma all_space_tab : all_space tab_sep.
Proof. repeat constructor. Qed.

Lemma all_space_para : all_space para_sep.
Proof. repeat constructor. Qed.

Lemma Forall_append_stripped (P : text -> Prop) (chunks : list text) (cur : text) :
  Forall P chunks -> (nonempty cur = true -> P (strip cur)) ->
  Forall P (append_stripped chunks cur).
Proof.
  intros Hc Hcur. unfold append_stripped.
  destruct (nonempty cur); [| exact Hc].
  apply Forall_app. split; [exact Hc |]. constructor; [auto | constructor].
Qed.

(** A property of [strip]ped buffers holds of every chunk. *)
Lemma chunk_text_stripped (P : text -> Prop) (t : text) (max_chunk_size : Z) :
  (forall s, P (strip s)) -> Forall P (chunk_text t max_chunk_size).
Proof.
  intros HP.
  assert (Hs : forall l a, Forall P (fst a) ->
            Forall P (fst (fold_left (sentence_step max_chunk_size) l a))).
  { induction l as [| x l IH]; intros [chunks cur] Ha; [exact Ha |].
    simpl fold_left. apply IH. unfold sentence_step.
    destruct (len (cur ++ x) >? max_chunk_size); simpl; [| exact Ha].
    apply Forall_append_stripped; auto. }
  assert (Hp : forall l a, Forall P (fst a) ->
            Forall P (fst (fold_left (paragraph_step max_chunk_size) l a))).
  { induction l as [| x l IH]; intros [chunks cur] Ha; [exact Ha |].
    simpl fold_left. apply IH. unfold paragraph_step. simpl in Ha.
    destruct (len x >? max_chunk_size).
    - apply Hs. destruct (nonempty cur); simpl; [| exact Ha].
      apply Forall_app. split; [exact Ha |]. constructor; [apply HP | constructor].
    - destruct (len (cur ++ x) >? max_chunk_size); simpl; [| exact Ha].
      apply Forall_append_stripped; auto. }
  unfold chunk_text.
  specialize (Hp (split para_sep t) ([], []) ltac:(constructor)).
  destruct (fold_left _ _ _) as [chunks cur]. simpl in Hp.
  apply Forall_append_stripped; auto.
Qed.

(** C10. Every chunk [chunk_text] returns equals its own [strip()]: no
    chunk has leading or trailing whitespace, whatever the text and the
    limit. *)
Theorem chunk_text_chunks_stripped (t : text) (max_chunk_size : Z) :
  Forall (fun c => strip c = c) (chunk_text t max_chunk_size).
Proof. apply chunk_text_stripped. intros s. apply strip_idem. Qed.

(** C6 (failing input). On the empty text [chunk_text] returns one chunk,
    the empty string, for every limit: the buffer then holds only the
    separator appended after the empty paragraph, which passes the test
    [if current_chunk] and is stripped to nothing. The specification asks
    for no chunk at all. *)
Theorem chunk_text_empty (max_chunk_size : Z) :
  chunk_text [] max_chunk_size = [[]] /\ chunk_text [] max_chunk_size <> [].
Proof.
  assert (H : chunk_text [] max_chunk_size = [[]]).
  { unfold chunk_text, paragraph_step. simpl split. simpl fold_left.
    change (len []) with 0. destruct (0 >? max_chunk_size) eqn:H0.
    - reflexivity.
    - reflexivity. }
  rewrite H. split; [reflexivity | discriminate].
Qed.

(** The second half of C6 holds: a text within the limit and without a
    blank-line boundary gives the single chunk [t.strip()]. *)
Lemma chunk_text_single (t : text) (max_chunk_size : Z) :
  len t <= max_chunk_size -> contains para_sep t = false ->
  chunk_text t max_chunk_size = [strip t].
Proof.
  intros Hlen Hsep. unfold chunk_text. rewrite (split_without _ _ Hsep).
  simpl fold_left. unfold paragraph_step.
  assert (Hgt : (len t >? max_chunk_size) = false) by (apply gtb_false_iff; lia).
  change ([] ++ t) with t. rewrite Hgt.
  unfold append_stripped.
  assert (Hne : nonempty (t ++ para_sep) = true) by (destruct t; reflexivity).
  rewrite Hne. simpl. f_equal. apply strip_app_space, all_space_para.
Qed.





End ChunkerFacts.

(** ** What the chunks keep of the text *)

Section ChunkerContent.

Variable keep : char -> bool.
Hypothesis keep_space : forall c, isspace c = true -> keep c = false.

Lemma filter_all_space (ws : text) : all_space ws -> List.filter keep ws = [].
Proof.
  induction 1 as [| c ws Hc _ IH]; simpl; [reflexivity |].
  rewrite (keep_space c Hc). exact IH.
Qed.

Local Abbreviation content := (kept keep).

Lemma content_append_stripped (chunks : list text) (cur : text) :
  List.filter keep (concat (append_stripped chunks cur)) = content (chunks, cur).
Proof.
  unfold kept, append_stripped. simpl.
  destruct cur as [| c cur]; simpl nonempty; cbv iota.
  - rewrite app_nil_r. reflexivity.
  - rewrite concat_app. simpl concat. rewrite app_nil_r.
    rewrite !List.filter_app. rewrite (filter_strip keep (c :: cur) keep_space).
    reflexivity.
Qed.

Lemma content_sentence_step (max_chunk_size : Z) (a : acc) (x : text) :
  content (sentence_step max_chunk_size a x) = content a ++ List.filter keep x.
Proof.
  destruct a as [chunks cur]. unfold sentence_step.
  destruct (len (cur ++ x) >? max_chunk_size); unfold kept; simpl fst; simpl snd.
  - rewrite !List.filter_app.
    rewrite (filter_all_space tab_sep all_space_tab), app_nil_r.
    rewrite content_append_stripped. unfold kept. simpl fst; simpl snd.
    rewrite List.filter_app. reflexivity.
  - rewrite !List.filter_app.
    rewrite (filter_all_space tab_sep all_space_tab), app_nil_r.
    rewrite app_assoc. reflexivity.
Qed.

Lemma content_sentences (max_chunk_size : Z) (l : list text) (a : acc) :
  content (fold_left (sentence_step max_chunk_size) l a) =
  content a ++ List.filter keep (concat l).
Proof.
  revert a. induction l as [| x l IH]; intros a; simpl.
  - rewrite app_nil_r. reflexivity.
  - rewrite IH, content_sentence_step, List.filter_app, app_assoc. reflexivity.
Qed.

Lemma content_paragraph_step (max_chunk_size : Z) (a : acc) (x : text) :
  (max_chunk_size < len x ->
   List.filter keep (concat (sentences_of x)) = List.filter keep x) ->
  content (paragraph_step max_chunk_size a x) = content a ++ List.filter keep x.
Proof.
  intros Hlong. destruct a as [chunks cur]. unfold paragraph_step.
  destruct (len x >? max_chunk_size) eqn:Hgt.
  - rewrite content_sentences. rewrite Hlong by (apply gtb_true_iff, Hgt).
    f_equal. destruct cur as [| c cur]; [reflexivity |].
    simpl nonempty. cbv iota.
    rewrite <- (content_append_stripped chunks (c :: cur)).
    unfold kept. simpl. rewrite app_nil_r. reflexivity.
  - destruct (len (cur ++ x) >? max_chunk_size); unfold kept; simpl fst; simpl snd.
    + rewrite !List.filter_app.
      rewrite (filter_all_space para_sep all_space_para), app_nil_r.
      rewrite content_append_stripped. unfold kept. simpl fst; simpl snd.
      rewrite List.filter_app. reflexivity.
    + rewrite !List.filter_app.
      rewrite (filter_all_space para_sep all_space_para), app_nil_r.
      rewrite app_assoc. reflexivity.
Qed.

Lemma content_paragraphs (max_chunk_size : Z) (l : list text) (a : acc) :
  (forall p, In p l -> max_chunk_size < len p ->
     List.filter keep (concat (sentences_of p)) = List.filter keep p) ->
  content (fold_left (paragraph_step max_chunk_size) l a) =
  content a ++ List.filter keep (concat l).
Proof.
  revert a. induction l as [| x l IH]; intros a Hl; simpl.
  - rewrite app_nil_r. reflexivity.
  - rewrite IH by (intros p Hp; apply Hl; right; exact Hp).
    rewrite content_paragraph_step by (apply Hl; left; reflexivity).
    rewrite List.filter_app, app_assoc. reflexivity.
Qed.

(** The kept characters of the text are the kept characters of the chunks,
    as soon as the sentence split of every oversized paragraph keeps them. *)
Lemma chunk_text_content (t : text) (max_chunk_size : Z) :
  (forall p, In p (split para_sep t) -> max_chunk_size < len p ->
     List.filter keep (concat (sentences_of p)) = List.filter keep p) ->
  List.filter keep (concat (chunk_text t max_chunk_size)) = List.filter keep t.
Proof.
  intros Hl. unfold chunk_text.
  pose proof (content_paragraphs max_chunk_size (split para_sep t) ([], []) Hl) as H.
  destruct (fold_left _ _ _) as [chunks cur].
  rewrite content_append_stripped, H. unfold kept. simpl.
  apply filter_split; [discriminate |].
  apply filter_all_space, all_space_para.
Qed.

End ChunkerContent.

Section ChunkerReconstruction.

Lemma visible_space (c : char) : isspace c = true -> visible c = false.
Proof. unfold visible. intros ->. reflexivity. Qed.

Lemma not_boundary_space (c : char) : isspace c = true -> not_boundary c = false.
Proof. unfold not_boundary. intros ->. reflexivity. Qed.

Lemma sentences_not_boundary (p : text) :
  List.filter not_boundary (concat (sentences_of p)) = List.filter not_boundary p.
Proof.
  unfold sentences_of.
  destruct (length (split danda_sep p) =? 1)%nat;
    apply filter_split; try discriminate; reflexivity.
Qed.

Lemma sentences_visible (p : text) :
  contains danda_sep p = false ->
  List.filter visible (concat (sentences_of p)) = List.filter visible p.
Proof.
  intros H. unfold sentences_of. rewrite (split_without _ _ H). simpl.
  apply filter_split; [discriminate | reflexivity].
Qed.

(** X3. Nothing but whitespace and the danda is ever lost: for every text
    and limit, the chunks of [chunk_text] concatenated in order hold
    exactly the characters of the text that are neither whitespace nor the
    danda, in the same order; and when no paragraph longer than the limit
    contains the danda, they hold exactly its non-whitespace characters. *)
Lemma chunk_text_keeps_content (t : text) (max_chunk_size : Z) :
  List.filter not_boundary (concat (chunk_text t max_chunk_size)) =
    List.filter not_boundary t /\
  (no_danda_split t max_chunk_size = true ->
   visible_text (concat (chunk_text t max_chunk_size)) = visible_text t).
Proof.
  split.
  - apply chunk_text_content; [exact not_boundary_space |].
    intros p _ _. apply sentences_not_boundary.
  - intros H. unfold visible_text.
    apply chunk_text_content; [exact visible_space |].
    intros p Hp Hlong. apply sentences_visible.
    unfold no_danda_split in H. rewrite forallb_forall in H.
    specialize (H p Hp). apply gtb_true_iff in Hlong. rewrite Hlong in H.
    simpl in H. apply negb_true_iff in H. exact H.
Qed.

(** The statement above at the text "ab<TAB>cd  ef" with limit 3. *)
Lemma chunk_text_keeps_content_example :
  no_danda_split (lit "ab" ++ [TAB] ++ lit "cd  ef") 3 = true /\
  visible_text (concat (chunk_text (lit "ab" ++ [TAB] ++ lit "cd  ef") 3)) =
    visible_text (lit "ab" ++ [TAB] ++ lit "cd  ef").
Proof.
  split; [reflexivity |].
  apply (proj2 (chunk_text_keeps_content (lit "ab" ++ [TAB] ++ lit "cd  ef") 3)).
  reflexivity.
Defined.

(** C2 (failing input). With limit 4 the text "a।b।c" is one oversized
    paragraph: it is split on the danda and its sentences are put together
    again with tabs, which gives the chunks "a<TAB>b" and "c". The dandas
    are gone; the first one stood inside the first chunk, so no boundary
    characters put back between the chunks reconstruct the text. The
    specification asks that no character of the text be dropped. *)
Theorem chunk_text_drops_danda :
  chunk_text three_sentences 4 = [[97; 9; 98]; [99]]%N /\
  ~ reconstructs three_sentences (chunk_text three_sentences 4).
Proof.
  split; [reflexivity |].
  intros (seps & _ & H).
  change (chunk_text three_sentences 4) with ([[97; 9; 98]; [99]]%N : list text) in H.
  destruct seps as [| sp seps]; simpl in H; discriminate H.
Qed.

End ChunkerReconstruction.

(** ** Futures along an interleaving *)

Section Scheduler.

(** A loop over an interleaving, seen through the futures it keeps: a
    step touches the future of its own unit only; [Run] starts a task
    that has a future; [Complete] yields a started one; nothing is
    un-started or un-yielded. *)
Context {J A : Type}.
Variable fut : J -> list (future A).
Variable stepf : J -> sched_event -> J.
Variable n : nat.

Hypothesis step_len : forall j ev, length (fut (stepf j ev)) = length (fut j).
Hypothesis step_run : forall j i,
  (i < n)%nat -> length (fut j) = n -> started (fut (stepf j (Run i))) i.
Hypothesis step_keep : forall j ev i,
  started (fut j) i -> started (fut (stepf j ev)) i.
Hypothesis step_yield : forall j i,
  started (fut j) i -> fut (stepf j (Complete i)) !! i = Some Yielded.
Hypothesis step_yielded : forall j ev i,
  fut j !! i = Some Yielded -> fut (stepf j ev) !! i = Some Yielded.

Lemma fold_yielded (sched : list sched_event) (j : J) (i : nat) :
  fut j !! i = Some Yielded ->
  fut (fold_left stepf sched j) !! i = Some Yielded.
Proof.
  revert j. induction sched as [| ev sched IH]; intros j Hj; [exact Hj |].
  cbn [fold_left]. apply IH, step_yielded, Hj.
Qed.

(** Once the task has run, the first [Complete] that follows yields it. *)
Lemma fold_completes (sched : list sched_event) (j : J) (i : nat) :
  started (fut j) i -> existsb (is_complete i) sched = true ->
  fut (fold_left stepf sched j) !! i = Some Yielded.
Proof.
  revert j. induction sched as [| ev sched IH]; intros j Hj He; [discriminate |].
  cbn [fold_left]. simpl in He. destruct (is_complete i ev) eqn:Hev.
  - destruct ev as [k | k]; [discriminate |]. simpl in Hev.
    apply Nat.eqb_eq in Hev. subst k. apply fold_yielded, step_yield, Hj.
  - apply IH; [apply step_keep, Hj | exact He].
Qed.

Lemma fold_runs (sched rest : list sched_event) (j : J) (i : nat) :
  (i < n)%nat -> length (fut j) = n ->
  after_run i sched = Some rest ->
  exists j', fold_left stepf sched j = fold_left stepf rest j' /\ started (fut j') i.
Proof.
  intros Hi. revert j.
  induction sched as [| ev sched IH]; intros j Hlen Hr; [discriminate |].
  simpl in Hr. cbn [fold_left]. destruct ev as [k | k].
  - destruct (k =? i)%nat eqn:Hk.
    + apply Nat.eqb_eq in Hk. subst k. injection Hr as <-.
      exists (stepf j (Run i)). split; [reflexivity |].
      apply step_run; assumption.
    + apply IH; [rewrite step_len; exact Hlen | exact Hr].
  - apply IH; [rewrite step_len; exact Hlen | exact Hr].
Qed.

(** When the interleaving is complete, every future has been yielded. *)
Lemma fold_all_yielded (sched : list sched_event) (j : J) (i : nat) :
  schedule_ok n sched = true -> length (fut j) = n -> (i < n)%nat ->
  fut (fold_left stepf sched j) !! i = Some Yielded.
Proof.
  intros Hok Hlen Hi. unfold schedule_ok in Hok. rewrite forallb_forall in Hok.
  specialize (Hok i ltac:(apply in_seq; lia)).
  destruct (after_run i sched) as [rest |] eqn:Hrest; [| discriminate].
  destruct (fold_runs sched rest j i Hi Hlen Hrest) as (j' & -> & Hst).
  apply fold_completes; assumption.
Qed.

End Scheduler.

(** ** The dispatcher *)

Section DispatcherFacts.

Context {W : Type}.
Variable time_time : W -> float * W.
Variable time_sleep : float -> W -> W.
Variable self : DocumentProcessor.
Variable chunks : list text.
Variable process_func : @processor W.
Variable operation_name : text.

Local Abbreviation limiter := (process_with_rate_limit time_time time_sleep self).
Local Abbreviation handle' := (handle time_time time_sleep self chunks process_func operation_name).
Local Abbreviation step' := (step time_time time_sleep self chunks process_func operation_name).

Lemma calls_of_app (i : nat) (tr1 tr2 : list event) :
  calls_of i (tr1 ++ tr2) = calls_of i tr1 ++ calls_of i tr2.
Proof. unfold calls_of. apply flat_map_app. Qed.

Lemma calls_of_limited (i slot : nat) (u : text) (o : outcome value) (evs : list event) :
  limited_call slot u o evs ->
  calls_of i evs = if (slot =? i)%nat then [(u, o)] else [].
Proof.
  intros (pace & [-> | [d ->]] & ->); simpl; destruct (slot =? i)%nat; reflexivity.
Qed.

(** One pass through the rate limiter: only the record grows, by the
    events of a limited call; the progress store is not touched. *)
Lemma limiter_events (slot : nat) (arg : text) (s : @state W) :
  exists evs,
    limited_call slot arg (fst (limiter slot process_func arg s)) evs /\
    trace (snd (limiter slot process_func arg s)) = trace s ++ evs.
Proof.
  unfold process_with_rate_limit, now, sleep, log, with_world. simpl.
  destruct (time_time (world s)) as [t1 w1]. simpl.
  destruct (flt _ _); simpl.
  - destruct (time_time (time_sleep _ w1)) as [t2 w2]. simpl.
    destruct (process_func arg w2) as [o w3]. simpl.
    eexists. split.
    + exists [EvSleep (fsub (min_request_interval self) (fsub t1 (last_request_time s)))].
      split; [right; eexists; reflexivity | reflexivity].
    + rewrite <- !app_assoc. reflexivity.
  - destruct (time_time w1) as [t2 w2]. simpl.
    destruct (process_func arg w2) as [o w3]. simpl.
    eexists. split.
    + exists []. split; [left; reflexivity | reflexivity].
    + rewrite <- !app_assoc. reflexivity.
Qed.

Lemma chunk_at_lookup (l : list text) (i : nat) (u : text) :
  l !! i = Some u -> chunk_at l i = u.
Proof. unfold chunk_at. intros ->. reflexivity. Qed.

Lemma slot_done_app (i : nat) (u : text) (tr evs : list event) (v : value) :
  slot_done i u tr v -> calls_of i evs = [] -> slot_done i u (tr ++ evs) v.
Proof.
  intros H Hevs. destruct H as [r H | e He H | e o' pre evs' post He Htr Hpre Hcall Hpost].
  - apply done_returned. rewrite calls_of_app, H, Hevs. reflexivity.
  - apply (done_failed i u _ e He). rewrite calls_of_app, H, Hevs. reflexivity.
  - apply (done_retried i u _ e o' pre evs' (post ++ evs) He); try assumption.
    + rewrite Htr. rewrite <- !app_assoc. simpl. rewrite <- !app_assoc. reflexivity.
    + rewrite calls_of_app, Hpost, Hevs. reflexivity.
Qed.

(** The body of the loop, for a future that finished with [o] after the
    single call recorded for unit [index]. *)
Lemma handle_slot (index : nat) (u : text) (o : outcome value) (j : @job W) :
  chunks !! index = Some u ->
  calls_of index (trace (st j)) = [(u, o)] ->
  futures (handle' index o j) = futures j /\
  exists v evs,
    results (handle' index o j) = <[index := v]> (results j) /\
    trace (st (handle' index o j)) = trace (st j) ++ evs /\
    (forall i, i <> index -> calls_of i evs = []) /\
    slot_done index u (trace (st j) ++ evs) v.
Proof.
  intros Hu Hcalls. unfold handle. rewrite (chunk_at_lookup _ _ _ Hu).
  destruct o as [r | e].
  - split; [reflexivity |]. exists (or_chunk r u), []. simpl.
    rewrite app_nil_r. repeat split; try reflexivity.
    apply done_returned. exact Hcalls.
  - destruct (is_rate_limit e) eqn:He.
    + match goal with
      | |- context [limiter index process_func u ?s0] =>
          destruct (limiter_events index u s0) as (evs & Hev & Htr);
          destruct (limiter index process_func u s0) as [o' s'] eqn:Hl
      end.
      simpl in Hev, Htr.
      assert (Hgoal :
        exists v evs0,
          <[index := stored u o']> (results j) = <[index := v]> (results j) /\
          trace s' = trace (st j) ++ evs0 /\
          (forall i, i <> index -> calls_of i evs0 = []) /\
          slot_done index u (trace (st j) ++ evs0) v).
      { exists (stored u o'), (EvSleep five_seconds :: evs). split; [reflexivity |].
        split; [rewrite Htr; simpl; rewrite <- app_assoc; reflexivity |]. split.
        - intros i Hi. change (calls_of i (EvSleep five_seconds :: evs)) with (calls_of i evs).
          rewrite (calls_of_limited i index u o' evs Hev).
          destruct (index =? i)%nat eqn:E; [apply Nat.eqb_eq in E; congruence | reflexivity].
        - apply (done_retried index u _ e o' (trace (st j)) evs [] He);
            [rewrite app_nil_r; reflexivity | exact Hcalls | exact Hev | reflexivity]. }
      destruct o' as [r | e']; (split; [reflexivity | exact Hgoal]).
    + split; [reflexivity |]. exists (VStr u), []. simpl.
      rewrite app_nil_r. repeat split; try reflexivity.
      apply (done_failed index u _ e He). exact Hcalls.
Qed.

Lemma slot_inv_other (j j' : @job W) (i : nat) (u : text) (evs : list event) :
  futures j' !! i = futures j !! i ->
  results j' !! i = results j !! i ->
  trace (st j') = trace (st j) ++ evs ->
  calls_of i evs = [] ->
  slot_inv j i u -> slot_inv j' i u.
Proof.
  intros Hf Hr Ht Hevs. unfold slot_inv. rewrite Hf, Hr, Ht.
  destruct (futures j !! i) as [[| o |] |]; try exact id.
  - intros H. rewrite calls_of_app, H, Hevs. reflexivity.
  - intros H. rewrite calls_of_app, H, Hevs. reflexivity.
  - intros (v & Hv & Hd). exists v. split; [exact Hv |].
    apply slot_done_app; assumption.
Qed.

Lemma handle_futures (index : nat) (o : outcome value) (j : @job W) :
  futures (handle' index o j) = futures j.
Proof.
  unfold handle. destruct o as [r | e]; [reflexivity |].
  destruct (is_rate_limit e); [| reflexivity].
  destruct (limiter _ _ _ _) as [[r | e'] s']; reflexivity.
Qed.

Lemma step_length_futures (j : @job W) (ev : sched_event) :
  length (futures (step' j ev)) = length (futures j).
Proof.
  destruct ev as [i | i]; simpl.
  - destruct (futures j !! i) as [[| o |] |]; try reflexivity.
    destruct (chunks !! i) as [c |]; [| reflexivity].
    destruct (limiter _ _ _ _) as [o s']. simpl. apply length_insert.
  - destruct (futures j !! i) as [[| o |] |]; try reflexivity.
    rewrite handle_futures. simpl. apply length_insert.
Qed.

(** A step changes the future of the unit it names only. *)
Lemma step_futures_other (j : @job W) (ev : sched_event) (i : nat) :
  sched_index ev <> i ->
  futures (step' j ev) !! i = futures j !! i.
Proof.
  destruct ev as [k | k]; simpl; intros Hk.
  - destruct (futures j !! k) as [[| o |] |]; try reflexivity.
    destruct (chunks !! k) as [c |]; [| reflexivity].
    destruct (limiter _ _ _ _) as [o s']. simpl.
    apply list_lookup_insert_ne. exact Hk.
  - destruct (futures j !! k) as [[| o |] |]; try reflexivity.
    rewrite handle_futures. simpl. apply list_lookup_insert_ne. exact Hk.
Qed.

(** The invariant holds along every interleaving. *)
Lemma step_inv (j : @job W) (ev : sched_event) :
  job_inv chunks j -> job_inv chunks (step' j ev).
Proof.
  intros (Hlf & Hlr & Hslots). destruct ev as [k | k]; simpl.
  - destruct (futures j !! k) as [[| o |] |] eqn:Hk;
      try (repeat split; assumption).
    destruct (chunks !! k) as [c |] eqn:Hc; [| repeat split; assumption].
    destruct (limiter_events k c (st j)) as (evs & Hev & Htr).
    destruct (limiter k process_func c (st j)) as [o s'] eqn:Hl. simpl in Hev, Htr.
    assert (Hlt : (k < length (futures j))%nat) by (apply lookup_lt_Some in Hk; exact Hk).
    split; [simpl; rewrite length_insert; exact Hlf |].
    split; [exact Hlr |].
    intros i u Hu. destruct (Nat.eq_dec i k) as [-> | Hne].
    + unfold slot_inv. simpl.
      rewrite list_lookup_insert_eq by exact Hlt.
      specialize (Hslots k u Hu). unfold slot_inv in Hslots. rewrite Hk in Hslots.
      rewrite Htr, calls_of_app, Hslots, (calls_of_limited k k c o evs Hev).
      rewrite Nat.eqb_refl. simpl. congruence.
    + apply (slot_inv_other j _ i u evs); simpl; try reflexivity.
      * apply list_lookup_insert_ne. congruence.
      * exact Htr.
      * rewrite (calls_of_limited i k c o evs Hev).
        destruct (k =? i)%nat eqn:E; [apply Nat.eqb_eq in E; congruence | reflexivity].
      * apply Hslots, Hu.
  - destruct (futures j !! k) as [[| o |] |] eqn:Hk;
      try (repeat split; assumption).
    assert (Hlt : (k < length (futures j))%nat) by (apply lookup_lt_Some in Hk; exact Hk).
    destruct (chunks !! k) as [c |] eqn:Hc;
      [| apply lookup_ge_None in Hc; lia].
    pose proof (Hslots k c Hc) as Hslot. unfold slot_inv in Hslot. rewrite Hk in Hslot.
    set (j0 := Job (<[k := Yielded]> (futures j)) (results j) (completed j) (st j)).
    destruct (handle_slot k c o j0 Hc Hslot) as (Hfut & v & evs & Hres & Htr & Hother & Hdone).
    split; [rewrite Hfut; simpl; rewrite length_insert; exact Hlf |].
    split; [rewrite Hres; simpl; rewrite length_insert; exact Hlr |].
    intros i u Hu. destruct (Nat.eq_dec i k) as [-> | Hne].
    + unfold slot_inv. rewrite Hfut, Hres, Htr. simpl.
      rewrite list_lookup_insert_eq by exact Hlt.
      exists v. split; [apply list_lookup_insert_eq; lia |].
      assert (u = c) by congruence. subst u. exact Hdone.
    + apply (slot_inv_other j _ i u evs).
      * rewrite Hfut. simpl. apply list_lookup_insert_ne. congruence.
      * rewrite Hres. simpl. apply list_lookup_insert_ne. congruence.
      * exact Htr.
      * apply Hother, Hne.
      * apply Hslots, Hu.
Qed.

Lemma fold_inv (sched : list sched_event) (j : @job W) :
  job_inv chunks j -> job_inv chunks (fold_left step' sched j).
Proof.
  revert j. induction sched as [| ev sched IH]; intros j Hj; [exact Hj |].
  simpl. apply IH, step_inv, Hj.
Qed.

Lemma step_yielded (j : @job W) (ev : sched_event) (i : nat) :
  futures j !! i = Some Yielded -> futures (step' j ev) !! i = Some Yielded.
Proof.
  intros Hi. destruct (Nat.eq_dec (sched_index ev) i) as [He | He].
  - destruct ev as [k | k]; simpl in He; subst k; simpl; rewrite Hi; exact Hi.
  - rewrite step_futures_other; [exact Hi |]. destruct ev; exact He.
Qed.

Lemma step_started (j : @job W) (ev : sched_event) (i : nat) :
  started (futures j) i -> started (futures (step' j ev)) i.
Proof.
  unfold started. destruct (Nat.eq_dec (sched_index ev) i) as [He | He].
  - destruct ev as [k | k]; simpl in He; subst k; simpl.
    + destruct (futures j !! i) as [[| o |] |] eqn:Hi; try contradiction; simpl;
        rewrite Hi; exact id.
    + destruct (futures j !! i) as [[| o |] |] eqn:Hi; try contradiction; simpl.
      * intros _. rewrite handle_futures. simpl.
        rewrite list_lookup_insert_eq by (apply lookup_lt_Some in Hi; exact Hi). exact I.
      * rewrite Hi. exact id.
  - rewrite step_futures_other; [exact id |]. destruct ev; exact He.
Qed.

Lemma step_yields (j : @job W) (i : nat) :
  started (futures j) i -> futures (step' j (Complete i)) !! i = Some Yielded.
Proof.
  unfold started. simpl.
  destruct (futures j !! i) as [[| o |] |] eqn:Hi; try contradiction; intros _.
  - rewrite handle_futures. simpl.
    apply list_lookup_insert_eq. apply lookup_lt_Some in Hi. exact Hi.
  - exact Hi.
Qed.

Lemma step_runs (j : @job W) (i : nat) :
  (i < length chunks)%nat -> length (futures j) = length chunks ->
  started (futures (step' j (Run i))) i.
Proof.
  intros Hi Hlen. unfold started. simpl.
  destruct (lookup_lt_is_Some_2 (futures j) i ltac:(lia)) as [f Hf].
  destruct (lookup_lt_is_Some_2 chunks i Hi) as [c Hc].
  rewrite Hf, Hc. destruct f as [| o |]; simpl; try (rewrite Hf; exact I).
  destruct (limiter _ _ _ _) as [o s']. simpl.
  rewrite list_lookup_insert_eq by lia. exact I.
Qed.

(** Every unit is settled when the loop ends: the master statement, from
    which the statements about the dispatcher follow. *)
Lemma dispatch_settles (sched : list sched_event) (s : @state W) :
  trace s = [] ->
  schedule_ok (length chunks) sched = true ->
  let j :=
    fold_left step' sched
      (Job (replicate (length chunks) Pending) (replicate (length chunks) VNone) O s) in
  length (results j) = length chunks /\
  forall i u, chunks !! i = Some u ->
    exists v, results j !! i = Some v /\ slot_done i u (trace (st j)) v.
Proof.
  intros Htr Hok j.
  set (j0 := Job (replicate (length chunks) Pending) (replicate (length chunks) VNone) O s).
  assert (H0 : job_inv chunks j0).
  { split; [apply length_replicate |]. split; [apply length_replicate |].
    intros i u Hu. unfold slot_inv. simpl.
    rewrite lookup_replicate_2 by (apply lookup_lt_Some in Hu; exact Hu).
    rewrite Htr. reflexivity. }
  pose proof (fold_inv sched j0 H0) as (Hlf & Hlr & Hslots).
  split; [exact Hlr |].
  intros i u Hu. pose proof (lookup_lt_Some _ _ _ Hu) as Hi.
  pose proof (fold_all_yielded futures step' (length chunks)
                step_length_futures step_runs step_started step_yields step_yielded
                sched j0 i Hok (length_replicate _ _) Hi) as Hy.
  specialize (Hslots i u Hu). unfold slot_inv in Hslots.
  rewrite Hy in Hslots. exact Hslots.
Qed.

Lemma stored_cases (u : text) (o : outcome value) :
  stored u o = VStr u \/ truthy (stored u o) = true.
Proof.
  destruct o as [r | e]; [| left; reflexivity].
  unfold stored, or_chunk. destruct (truthy r) eqn:Hr; [right; exact Hr | left; reflexivity].
Qed.

(** A stored value is the unit itself or a non-empty answer. *)
Lemma slot_done_value (i : nat) (u : text) (tr : list event) (v : value) :
  slot_done i u tr v -> v = VStr u \/ truthy v = true.
Proof.
  intros [r _ | e _ _ | e o' pre evs post _ _ _ _ _].
  - apply (stored_cases u (Returns r)).
  - left. reflexivity.
  - apply stored_cases.
Qed.

(** The calls on record for a settled unit, and the value stored. *)
Lemma stored_expected (u : text) (o : outcome value) :
  stored u o = expected_entry u o.
Proof. destruct o as [[| [| c answer]] | e]; reflexivity. Qed.

(** The stored value is decided by the last call made for the unit. *)
Lemma slot_done_last (i : nat) (u : text) (tr : list event) (v : value) :
  slot_done i u tr v ->
  exists earlier o,
    calls_of i tr = earlier ++ [(u, o)] /\ v = expected_entry u o.
Proof.
  intros [r H | e He H | e o' pre evs post He Htr Hpre Hcall Hpost].
  - exists [], (Returns r). split; [exact H |].
    apply (stored_expected u (Returns r)).
  - exists [], (Raises e). split; [exact H | reflexivity].
  - exists [(u, Raises e)], o'. split; [| apply stored_expected].
    rewrite Htr, calls_of_app. change (EvSleep five_seconds :: evs ++ post)
      with ([EvSleep five_seconds] ++ evs ++ post).
    rewrite !calls_of_app, Hpre, Hpost, (calls_of_limited i i u o' evs Hcall).
    rewrite Nat.eqb_refl. reflexivity.
Qed.

Lemma slot_done_calls (i : nat) (u : text) (tr : list event) (v : value) :
  slot_done i u tr v ->
  (exists o, calls_of i tr = [(u, o)] /\
             (match o with Raises e => is_rate_limit e | Returns _ => false end) = false /\
             v = stored u o) \/
  (exists e o' pre evs post,
     calls_of i tr = [(u, Raises e); (u, o')] /\ is_rate_limit e = true /\
     tr = pre ++ EvSleep five_seconds :: evs ++ post /\
     calls_of i pre = [(u, Raises e)] /\ limited_call i u o' evs /\
     calls_of i post = [] /\ v = stored u o').
Proof.
  intros [r H | e He H | e o' pre evs post He Htr Hpre Hcall Hpost].
  - left. exists (Returns r). repeat split. exact H.
  - left. exists (Raises e). repeat split; assumption.
  - right. exists e, o', pre, evs, post. repeat split; try assumption.
    rewrite Htr, calls_of_app. change (EvSleep five_seconds :: evs ++ post)
      with ([EvSleep five_seconds] ++ evs ++ post).
    rewrite !calls_of_app, Hpre, Hpost, (calls_of_limited i i u o' evs Hcall).
    rewrite Nat.eqb_refl. reflexivity.
Qed.

Lemma calls_of_In (i : nat) (u : text) (o : outcome value) (tr : list event) :
  In (u, o) (calls_of i tr) -> In (EvCall i u o) tr.
Proof.
  unfold calls_of. rewrite in_flat_map. intros (e & He & Hin).
  destruct e as [| | | k u' o' |]; try contradiction.
  destruct (k =? i)%nat eqn:Hk; [| contradiction].
  apply Nat.eqb_eq in Hk. subst k.
  destruct Hin as [Heq | []]. injection Heq as -> ->. exact He.
Qed.

Section PureProcessor.

(** A processor whose answer depends on the unit alone. *)
Variable answer : text -> outcome value.
Hypothesis answer_spec : forall u w, fst (process_func u w) = answer u.

Lemma limiter_answer (slot : nat) (arg : text) (s : @state W) :
  fst (limiter slot process_func arg s) = answer arg.
Proof.
  unfold process_with_rate_limit, now, sleep, log, with_world. simpl.
  destruct (time_time (world s)) as [t1 w1]. simpl.
  destruct (flt _ _); simpl.
  - destruct (time_time (time_sleep _ w1)) as [t2 w2]. simpl.
    rewrite <- (answer_spec arg w2). destruct (process_func arg w2). reflexivity.
  - destruct (time_time w1) as [t2 w2]. simpl.
    rewrite <- (answer_spec arg w2). destruct (process_func arg w2). reflexivity.
Qed.

Lemma limited_call_answers (slot : nat) (u : text) (evs : list event) :
  limited_call slot u (answer u) evs -> answers_recorded answer evs.
Proof.
  intros (pace & [-> | [d ->]] & ->); repeat constructor.
Qed.

Lemma limiter_answers (slot : nat) (arg : text) (s : @state W) :
  answers_recorded answer (trace s) ->
  answers_recorded answer (trace (snd (limiter slot process_func arg s))).
Proof.
  intros H. destruct (limiter_events slot arg s) as (evs & Hev & Htr).
  rewrite Htr. apply Forall_app. split; [exact H |].
  rewrite limiter_answer in Hev. apply (limited_call_answers slot arg evs Hev).
Qed.

Lemma step_answers (j : @job W) (ev : sched_event) :
  answers_recorded answer (trace (st j)) ->
  answers_recorded answer (trace (st (step' j ev))).
Proof.
  intros H. destruct ev as [k | k]; simpl.
  - destruct (futures j !! k) as [[| o |] |]; try exact H.
    destruct (chunks !! k) as [c |]; [| exact H].
    pose proof (limiter_answers k c (st j) H) as H'.
    destruct (limiter _ _ _ _) as [o s']. exact H'.
  - destruct (futures j !! k) as [[| o |] |]; try exact H.
    unfold handle. simpl. destruct o as [r | e]; [exact H |].
    destruct (is_rate_limit e); [| exact H].
    match goal with
    | |- context [limiter k process_func ?c ?s0] =>
        pose proof (limiter_answers k c s0) as H';
        destruct (limiter k process_func c s0) as [[r | e'] s']
    end; simpl in H' |- *; apply H'; simpl;
      (apply Forall_app; split; [exact H | repeat constructor]).
Qed.

Lemma fold_answers (sched : list sched_event) (j : @job W) :
  answers_recorded answer (trace (st j)) ->
  answers_recorded answer (trace (st (fold_left step' sched j))).
Proof.
  revert j. induction sched as [| ev sched IH]; intros j Hj; [exact Hj |].
  cbn [fold_left]. apply IH, step_answers, Hj.
Qed.

(** With such a processor the stored value is a function of the unit. *)
Lemma slot_done_answer (i : nat) (u : text) (tr : list event) (v : value) :
  answers_recorded answer tr -> slot_done i u tr v -> v = stored u (answer u).
Proof.
  intros Hans Hdone.
  assert (Hrec : forall o, In (u, o) (calls_of i tr) -> o = answer u).
  { intros o Hin. apply calls_of_In in Hin.
    unfold answers_recorded in Hans. rewrite List.Forall_forall in Hans.
    apply (Hans _ Hin). }
  destruct (slot_done_calls i u tr v Hdone)
    as [(o & Hc & _ & ->) | (e & o' & pre & evs & post & Hc & _ & _ & _ & _ & _ & ->)].
  - rewrite (Hrec o); [reflexivity |]. rewrite Hc. left. reflexivity.
  - rewrite (Hrec o'); [reflexivity |]. rewrite Hc. right. left. reflexivity.
Qed.

End PureProcessor.

Lemma dispatch_returns (sched : list sched_event) (s : @state W) :
  0 < max_workers self ->
  process_chunks_parallel time_time time_sleep self chunks process_func
    operation_name sched s =
  (let j :=
     fold_left step' sched
       (Job (replicate (length chunks) Pending) (replicate (length chunks) VNone) O s) in
   (Returns (results j), st j)).
Proof.
  intros Hw. unfold process_chunks_parallel.
  destruct (max_workers self <=? 0) eqn:E; [apply Z.leb_le in E; lia | reflexivity].
Qed.

Local Abbreviation dispatch :=
  (process_chunks_parallel time_time time_sleep self chunks process_func operation_name).

(** C1. For every list of units, every processor and every interleaving
    of the workers, [process_chunks_parallel] returns a list as long as
    the units in which entry [i] is the outcome for unit [i]: it is
    decided by the last call made on [chunks[i]], whose non-empty answer
    is the entry itself, while after a failure, [None] or the empty
    string the entry is that unit unchanged. When the processor's answer
    depends on the unit alone, the list is therefore the same for every
    order of completion. *)
Theorem process_chunks_parallel_ordered (sched : list sched_event)
    (w : W) (last : float) (tracker : gmap text snapshot) :
  0 < max_workers self ->
  schedule_ok (length chunks) sched = true ->
  exists results s',
    dispatch sched (State w last tracker []) = (Returns results, s') /\
    length results = length chunks /\
    (forall i u, chunks !! i = Some u ->
       exists v, results !! i = Some v /\ slot_done i u (trace s') v /\
                 (v = VStr u \/ truthy v = true)) /\
    (forall i u, chunks !! i = Some u ->
       exists earlier o,
         calls_of i (trace s') = earlier ++ [(u, o)] /\
         results !! i = Some (expected_entry u o) /\
         (forall c answer, o = Returns (VStr (c :: answer)) ->
            results !! i = Some (VStr (c :: answer)))) /\
    (forall answer, (forall u w', fst (process_func u w') = answer u) ->
       results = map (fun u => expected_entry u (answer u)) chunks).
Proof.
  intros Hw Hok. rewrite (dispatch_returns sched _ Hw). cbv zeta.
  destruct (dispatch_settles sched (State w last tracker []) eq_refl Hok) as [Hlen Hall].
  cbv zeta in Hlen, Hall.
  eexists _, _. split; [reflexivity |]. split; [exact Hlen |]. split; [| split].
  - intros i u Hu. destruct (Hall i u Hu) as (v & Hv & Hd).
    exists v. repeat split; [exact Hv | exact Hd | apply (slot_done_value i u _ v Hd)].
  - intros i u Hu. destruct (Hall i u Hu) as (v & Hv & Hd).
    destruct (slot_done_last i u _ v Hd) as (earlier & o & Hc & ->).
    exists earlier, o. split; [exact Hc |]. split; [exact Hv |].
    intros c answer ->. exact Hv.
  - intros answer Hans. apply list_eq. intros i.
    rewrite list_lookup_fmap.
    destruct (chunks !! i) as [u |] eqn:Hu; simpl.
    + destruct (Hall i u Hu) as (v & Hv & Hd). rewrite Hv. f_equal.
      rewrite <- stored_expected.
      eapply (slot_done_answer answer); [| exact Hd].
      apply fold_answers; [exact Hans | constructor].
    + apply lookup_ge_None. apply lookup_ge_None in Hu. lia.
Qed.


(** C4. When the call for a unit raises a failure outside the rate-limit
    class, or returns an empty result, the dispatcher does not call again:
    that call is the only one on record for the unit, the unit itself is
    stored at its index, the dispatcher returns normally, and every other
    unit is settled as usual. *)
Theorem dispatcher_falls_back_without_retry (sched : list sched_event)
    (w : W) (last : float) (tracker : gmap text snapshot) :
  0 < max_workers self ->
  schedule_ok (length chunks) sched = true ->
  exists results s',
    dispatch sched (State w last tracker []) = (Returns results, s') /\
    length results = length chunks /\
    (forall i u o rest,
       chunks !! i = Some u ->
       calls_of i (trace s') = (u, o) :: rest ->
       final_fallback o = true ->
       rest = [] /\ results !! i = Some (VStr u)) /\
    (forall k u', chunks !! k = Some u' ->
       exists v, results !! k = Some v /\ slot_done k u' (trace s') v).
Proof.
  intros Hw Hok. rewrite (dispatch_returns sched _ Hw). cbv zeta.
  destruct (dispatch_settles sched (State w last tracker []) eq_refl Hok) as [Hlen Hall].
  cbv zeta in Hlen, Hall.
  eexists _, _. split; [reflexivity |]. split; [exact Hlen |]. split; [| exact Hall].
  intros i u o rest Hu Hcalls Hfinal.
  destruct (Hall i u Hu) as (v & Hv & Hd).
  destruct (slot_done_calls i u _ v Hd)
    as [(o0 & Hc & _ & ->) | (e0 & o' & pre & evs & post & Hc & He0 & _)].
  - rewrite Hc in Hcalls. injection Hcalls as Ho Hrest. subst o0 rest.
    split; [reflexivity |].
    rewrite Hv. f_equal. destruct o as [r | e]; [| reflexivity].
    simpl in Hfinal. apply negb_true_iff in Hfinal.
    unfold stored, or_chunk. rewrite Hfinal. reflexivity.
  - rewrite Hc in Hcalls. injection Hcalls as Ho Hrest. subst o.
    simpl in Hfinal. rewrite He0 in Hfinal. discriminate Hfinal.
Qed.

End DispatcherFacts.

(** ** The OCR page pipeline *)

Section OCRFacts.

Context {W image : Type}.
Variable ocr_request : image -> W -> outcome text * W.
Variable job_id : option text.
Variable pages : list image.

Local Abbreviation ocr_step' := (ocr_step ocr_request job_id pages).

Lemma extracts_of_app (i : nat) (tr1 tr2 : list event) :
  extracts_of i (tr1 ++ tr2) = extracts_of i tr1 ++ extracts_of i tr2.
Proof. unfold extracts_of. apply flat_map_app. Qed.

(** [pdf_to_images] reports progress and hands the pages over. *)
Lemma pdf_to_images_spec (s : @state W) :
  fst (pdf_to_images job_id pages s) = pages /\
  trace (snd (pdf_to_images job_id pages s)) = trace s.
Proof.
  unfold pdf_to_images. simpl. split; [reflexivity |].
  generalize (length pages) at 1. intros total.
  generalize (seq 0 (length pages)). intros l. revert s.
  induction l as [| x l IH]; intros s; [reflexivity |].
  simpl. rewrite IH. reflexivity.
Qed.

(** One page task: one request on record, and the page's text. *)
Lemma ocr_page_spec (total index : nat) (img : image) (s : @state W) :
  exists o,
    fst (ocr_page ocr_request job_id total index img s) = (index, page_text o) /\
    trace (snd (ocr_page ocr_request job_id total index img s)) =
      trace s ++ [EvExtract index o].
Proof.
  unfold ocr_page. simpl.
  destruct (ocr_request img _) as [o w']. exists o. split; reflexivity.
Qed.

Lemma ocr_step_length (j : @ocr_job W) (ev : sched_event) :
  length (page_futures (ocr_step' j ev)) = length (page_futures j).
Proof.
  destruct ev as [i | i]; simpl.
  - destruct (page_futures j !! i) as [[| r |] |]; try reflexivity.
    destruct (pages !! i) as [img |]; [| reflexivity].
    destruct (ocr_page _ _ _ _ _ _) as [r s']. simpl. apply length_insert.
  - destruct (page_futures j !! i) as [[| [k t] |] |]; try reflexivity.
    simpl. apply length_insert.
Qed.

Lemma ocr_step_other (j : @ocr_job W) (ev : sched_event) (i : nat) :
  sched_index ev <> i ->
  page_futures (ocr_step' j ev) !! i = page_futures j !! i.
Proof.
  destruct ev as [k | k]; simpl; intros Hk.
  - destruct (page_futures j !! k) as [[| r |] |]; try reflexivity.
    destruct (pages !! k) as [img |]; [| reflexivity].
    destruct (ocr_page _ _ _ _ _ _) as [r s']. simpl.
    apply list_lookup_insert_ne. exact Hk.
  - destruct (page_futures j !! k) as [[| [k' t] |] |]; try reflexivity.
    simpl. apply list_lookup_insert_ne. exact Hk.
Qed.

Lemma ocr_step_yielded (j : @ocr_job W) (ev : sched_event) (i : nat) :
  page_futures j !! i = Some Yielded ->
  page_futures (ocr_step' j ev) !! i = Some Yielded.
Proof.
  intros Hi. destruct (Nat.eq_dec (sched_index ev) i) as [He | He].
  - destruct ev as [k | k]; simpl in He; subst k; simpl; rewrite Hi; exact Hi.
  - rewrite ocr_step_other; [exact Hi | exact He].
Qed.

Lemma ocr_step_started (j : @ocr_job W) (ev : sched_event) (i : nat) :
  started (page_futures j) i -> started (page_futures (ocr_step' j ev)) i.
Proof.
  unfold started. destruct (Nat.eq_dec (sched_index ev) i) as [He | He].
  - destruct ev as [k | k]; simpl in He; subst k; simpl.
    + destruct (page_futures j !! i) as [[| r |] |] eqn:Hi; try contradiction; simpl;
        rewrite Hi; exact id.
    + destruct (page_futures j !! i) as [[| [k t] |] |] eqn:Hi; try contradiction; simpl.
      * intros _.
        rewrite list_lookup_insert_eq by (apply lookup_lt_Some in Hi; exact Hi). exact I.
      * rewrite Hi. exact id.
  - rewrite ocr_step_other; [exact id | exact He].
Qed.

Lemma ocr_step_yields (j : @ocr_job W) (i : nat) :
  started (page_futures j) i ->
  page_futures (ocr_step' j (Complete i)) !! i = Some Yielded.
Proof.
  unfold started. simpl.
  destruct (page_futures j !! i) as [[| [k t] |] |] eqn:Hi; try contradiction; intros _.
  - simpl. apply list_lookup_insert_eq. apply lookup_lt_Some in Hi. exact Hi.
  - exact Hi.
Qed.

Lemma ocr_step_runs (j : @ocr_job W) (i : nat) :
  (i < length pages)%nat -> length (page_futures j) = length pages ->
  started (page_futures (ocr_step' j (Run i))) i.
Proof.
  intros Hi Hlen. unfold started. simpl.
  destruct (lookup_lt_is_Some_2 (page_futures j) i ltac:(lia)) as [f Hf].
  destruct (lookup_lt_is_Some_2 pages i Hi) as [img Himg].
  rewrite Hf, Himg. destruct f as [| r |]; simpl; try (rewrite Hf; exact I).
  destruct (ocr_page _ _ _ _ _ _) as [r s']. simpl.
  rewrite list_lookup_insert_eq by lia. exact I.
Qed.

Lemma page_inv_other (j j' : @ocr_job W) (i : nat) (evs : list event) :
  page_futures j' !! i = page_futures j !! i ->
  extracted_texts j' !! i = extracted_texts j !! i ->
  trace (ocr_st j') = trace (ocr_st j) ++ evs ->
  extracts_of i evs = [] ->
  page_inv j i -> page_inv j' i.
Proof.
  intros Hf Hr Ht Hevs. unfold page_inv. rewrite Hf, Hr, Ht, extracts_of_app, Hevs.
  rewrite app_nil_r. exact id.
Qed.

Lemma ocr_step_inv (j : @ocr_job W) (ev : sched_event) :
  ocr_inv (length pages) j -> ocr_inv (length pages) (ocr_step' j ev).
Proof.
  intros (Hlf & Hlr & Hslots). destruct ev as [k | k]; simpl.
  - destruct (page_futures j !! k) as [[| r |] |] eqn:Hk;
      try (repeat split; assumption).
    destruct (pages !! k) as [img |] eqn:Himg; [| repeat split; assumption].
    destruct (ocr_page_spec (length pages) k img (ocr_st j)) as (o & Hres & Htr).
    destruct (ocr_page _ _ _ _ _ _) as [r s']. simpl in Hres, Htr. subst r.
    assert (Hlt : (k < length (page_futures j))%nat)
      by (apply lookup_lt_Some in Hk; exact Hk).
    split; [simpl; rewrite length_insert; exact Hlf |].
    split; [exact Hlr |].
    intros i Hi. destruct (Nat.eq_dec i k) as [-> | Hne].
    + unfold page_inv. simpl. rewrite list_lookup_insert_eq by exact Hlt.
      split; [reflexivity |]. exists o. split; [| reflexivity].
      specialize (Hslots k Hi). unfold page_inv in Hslots. rewrite Hk in Hslots.
      rewrite Htr, extracts_of_app, Hslots. simpl. rewrite Nat.eqb_refl. reflexivity.
    + apply (page_inv_other j _ i [EvExtract k o]); simpl; try reflexivity.
      * apply list_lookup_insert_ne. congruence.
      * exact Htr.
      * destruct (k =? i)%nat eqn:E; [apply Nat.eqb_eq in E; congruence | reflexivity].
      * apply Hslots, Hi.
  - destruct (page_futures j !! k) as [[| [k' t] |] |] eqn:Hk;
      try (repeat split; assumption).
    assert (Hlt : (k < length (page_futures j))%nat)
      by (apply lookup_lt_Some in Hk; exact Hk).
    pose proof (Hslots k ltac:(lia)) as Hslot. unfold page_inv in Hslot.
    rewrite Hk in Hslot. destruct Hslot as (-> & o & Ho & ->).
    split; [simpl; rewrite length_insert; exact Hlf |].
    split; [simpl; rewrite length_insert; exact Hlr |].
    intros i Hi. destruct (Nat.eq_dec i k) as [-> | Hne].
    + unfold page_inv. simpl. rewrite list_lookup_insert_eq by exact Hlt.
      exists o. split; [exact Ho |]. apply list_lookup_insert_eq. lia.
    + apply (page_inv_other j _ i []); simpl.
      * apply list_lookup_insert_ne. congruence.
      * apply list_lookup_insert_ne. congruence.
      * rewrite app_nil_r. reflexivity.
      * reflexivity.
      * apply Hslots, Hi.
Qed.

Lemma ocr_fold_inv (sched : list sched_event) (j : @ocr_job W) :
  ocr_inv (length pages) j -> ocr_inv (length pages) (fold_left ocr_step' sched j).
Proof.
  revert j. induction sched as [| ev sched IH]; intros j Hj; [exact Hj |].
  cbn [fold_left]. apply IH, ocr_step_inv, Hj.
Qed.



End OCRFacts.

(** ** The progress reporter *)

Section ProgressFacts.

(** An unset job identifier ([None] or the empty string) makes
    [update_progress] a no-op. *)
Lemma update_progress_unset (job_id : option text) (current total : Z)
    (status : text) (tracker : gmap text snapshot) :
  job_id_set job_id = None ->
  update_progress job_id current total status tracker = tracker.
Proof. unfold update_progress. intros ->. reflexivity. Qed.

(** With a job identifier, the snapshot of that job is overwritten. *)
Lemma update_progress_set (j : text) (current total : Z)
    (status : text) (tracker : gmap text snapshot) :
  nonempty j = true ->
  update_progress (Some j) current total status tracker !! j =
  Some (Snapshot current total status (percentage_of current total)).
Proof.
  intros Hj. unfold update_progress, job_id_set. rewrite Hj.
  apply lookup_insert_eq.
Qed.

Lemma percentage_of_no_total (current total : Z) :
  total <= 0 -> percentage_of current total = 0.
Proof.
  intros H. unfold percentage_of.
  destruct (total >? 0) eqn:E; [apply gtb_true_iff in E; lia | reflexivity].
Qed.

(** Up to a hundred units the percentage stays within [0,100] and is the
    exact floor or one below it. *)
Lemma percentages_close_100 : percentages_close 100 = true.
Proof. vm_compute. reflexivity. Qed.

(** C7 (failing input). [update_progress(29, 100, status)] with a job
    identifier stores the percentage 28: in binary64, 29/100 times 100 is
    28.999999999999996, which [int] truncates. The floor of 100*29/100,
    which the specification asks for, is 29. *)
Theorem update_progress_29_of_100 (status : text) (tracker : gmap text snapshot) :
  update_progress (Some (lit "job")) 29 100 status tracker !! lit "job" =
    Some (Snapshot 29 100 status 28) /\
  spec_percentage 29 100 = 29.
Proof.
  split; [| reflexivity].
  rewrite update_progress_set by reflexivity. reflexivity.
Qed.

End ProgressFacts.

(** ** The statements at concrete executions *)

Section Witnesses.

Lemma process_chunks_parallel_ordered_witness :
  0 < max_workers demo_self /\
  schedule_ok (length demo_chunks) demo_sched = true /\
  exists results s',
    process_chunks_parallel demo_time demo_sleep demo_self demo_chunks shouting
      (lit "Proofreading") demo_sched (State O (float_of_int 0) ∅ []) =
      (Returns results, s') /\
    results = [VStr (lit "alpha!"); VStr (lit "beta!")].
Proof.
  split; [reflexivity |]. split; [reflexivity |].
  destruct (process_chunks_parallel_ordered demo_time demo_sleep demo_self demo_chunks
              shouting (lit "Proofreading") demo_sched O (float_of_int 0) ∅
              eq_refl eq_refl) as (results & s' & Hrun & _ & _ & _ & Hpure).
  exists results, s'. split; [exact Hrun |].
  apply (Hpure (fun u => Returns (VStr (u ++ lit "!")))).
  intros u w'. reflexivity.
Defined.


Lemma dispatcher_falls_back_without_retry_witness :
  0 < max_workers demo_self /\
  schedule_ok (length demo_chunks) demo_sched = true /\
  exists results s',
    process_chunks_parallel demo_time demo_sleep demo_self demo_chunks always_broken
      (lit "Proofreading") demo_sched (State O (float_of_int 0) ∅ []) =
      (Returns results, s') /\
    length results = length demo_chunks /\
    (forall i u o rest,
       demo_chunks !! i = Some u ->
       calls_of i (trace s') = (u, o) :: rest ->
       final_fallback o = true ->
       rest = [] /\ results !! i = Some (VStr u)) /\
    (forall k u', demo_chunks !! k = Some u' ->
       exists v, results !! k = Some v /\ slot_done k u' (trace s') v).
Proof.
  split; [reflexivity |]. split; [reflexivity |].
  apply (dispatcher_falls_back_without_retry demo_time demo_sleep demo_self demo_chunks
           always_broken (lit "Proofreading") demo_sched O (float_of_int 0) ∅);
    reflexivity.
Defined.


(** The executions above, evaluated. *)
Lemma demo_always_quota :
  fst (process_chunks_parallel demo_time demo_sleep demo_self demo_chunks always_quota
         (lit "Translating") demo_sched demo_state) =
    Returns [VStr (lit "alpha"); VStr (lit "beta")] /\
  world (snd (process_chunks_parallel demo_time demo_sleep demo_self demo_chunks
                always_quota (lit "Translating") demo_sched demo_state)) = 4%nat.
Proof. split; reflexivity. Qed.

Lemma demo_second_page_fails :
  fst (perform_ocr second_fails (Some (lit "job")) three_pages ocr_sched demo_state) =
    Returns (lit "first page" ++ para_sep ++ lit "third page").
Proof. reflexivity. Qed.

End Witnesses.

(** ** More about the chunker *)

Section ChunkerMore.

Lemma sentence_step_buffer (max_chunk_size : Z) (a : acc) (x : text) :
  nonempty (snd (sentence_step max_chunk_size a x)) = true.
Proof.
  destruct a as [chunks cur]. unfold sentence_step.
  destruct (len (cur ++ x) >? max_chunk_size); simpl.
  - destruct x; reflexivity.
  - destruct cur; [destruct x |]; reflexivity.
Qed.

Lemma sentences_buffer (max_chunk_size : Z) (l : list text) (a : acc) :
  l <> [] ->
  nonempty (snd (fold_left (sentence_step max_chunk_size) l a)) = true.
Proof.
  revert a. induction l as [| x l IH]; intros a Hl; [congruence |].
  cbn [fold_left]. destruct l as [| y l].
  - apply sentence_step_buffer.
  - apply IH. discriminate.
Qed.

Lemma sentences_of_not_nil (p : text) : sentences_of p <> [].
Proof.
  unfold sentences_of.
  destruct (length (split danda_sep p) =? 1)%nat; apply split_not_nil.
Qed.

Lemma paragraph_step_buffer (max_chunk_size : Z) (a : acc) (x : text) :
  nonempty (snd (paragraph_step max_chunk_size a x)) = true.
Proof.
  destruct a as [chunks cur]. unfold paragraph_step.
  destruct (len x >? max_chunk_size).
  - apply sentences_buffer, sentences_of_not_nil.
  - destruct (len (cur ++ x) >? max_chunk_size); simpl.
    + destruct x; reflexivity.
    + destruct cur; [destruct x |]; reflexivity.
Qed.

Lemma paragraphs_buffer (max_chunk_size : Z) (l : list text) (a : acc) :
  l <> [] ->
  nonempty (snd (fold_left (paragraph_step max_chunk_size) l a)) = true.
Proof.
  revert a. induction l as [| x l IH]; intros a Hl; [congruence |].
  cbn [fold_left]. destruct l as [| y l].
  - apply paragraph_step_buffer.
  - apply IH. discriminate.
Qed.

(** X1. [chunk_text] never returns an empty list: whatever the text and
    the limit, there is at least one chunk (after the last paragraph the
    buffer always holds a separator, so the final flush always happens). *)
Theorem chunk_text_not_nil (t : text) (max_chunk_size : Z) :
  chunk_text t max_chunk_size <> [] /\
  (1 <= length (chunk_text t max_chunk_size))%nat.
Proof.
  assert (H : chunk_text t max_chunk_size <> []).
  { unfold chunk_text.
    pose proof (paragraphs_buffer max_chunk_size (split para_sep t) ([], [])
                  (split_not_nil _ _)) as Hb.
    destruct (fold_left _ _ _) as [chunks cur]. simpl in Hb.
    unfold append_stripped. rewrite Hb. destruct chunks; discriminate. }
  split; [exact H |]. destruct (chunk_text t max_chunk_size); [congruence | simpl; lia].
Qed.

Lemma len_app (a b : text) : len (a ++ b) = len a + len b.
Proof. unfold len. rewrite length_app. lia. Qed.

Lemma len_nonneg (a : text) : 0 <= len a.
Proof. unfold len. lia. Qed.

(** While everything still fits, the paragraphs pile up in the buffer. *)
Lemma paragraphs_fit (max_chunk_size : Z) (l : list text) (cur : text) :
  l <> [] ->
  len (cur ++ join para_sep l) <= max_chunk_size ->
  fold_left (paragraph_step max_chunk_size) l ([], cur) =
  ([], cur ++ join para_sep l ++ para_sep).
Proof.
  revert cur. induction l as [| p l IH]; intros cur Hl Hfit; [congruence |].
  cbn [fold_left]. destruct l as [| q l].
  - simpl join in *. simpl fold_left. unfold paragraph_step.
    rewrite len_app in Hfit. pose proof (len_nonneg cur). pose proof (len_nonneg p).
    assert (Hp1 : (len p >? max_chunk_size) = false) by (apply gtb_false_iff; lia).
    assert (Hp2 : (len (cur ++ p) >? max_chunk_size) = false)
      by (apply gtb_false_iff; rewrite len_app; lia).
    rewrite Hp1, Hp2. reflexivity.
  - change (join para_sep (p :: q :: l)) with (p ++ para_sep ++ join para_sep (q :: l)) in *.
    unfold paragraph_step at 2.
    rewrite !len_app in Hfit.
    pose proof (len_nonneg cur). pose proof (len_nonneg p).
    pose proof (len_nonneg (join para_sep (q :: l))). pose proof (len_nonneg para_sep).
    assert (Hp1 : (len p >? max_chunk_size) = false) by (apply gtb_false_iff; lia).
    assert (Hp2 : (len (cur ++ p) >? max_chunk_size) = false)
      by (apply gtb_false_iff; rewrite len_app; lia).
    rewrite Hp1, Hp2.
    rewrite IH; [| discriminate |].
    + rewrite <- !app_assoc. reflexivity.
    + rewrite <- !app_assoc. rewrite !len_app. lia.
Qed.

(** X2. A text that fits in the limit is returned as one chunk, its own
    [strip()], whether or not it has paragraph boundaries. *)
Theorem chunk_text_fits (t : text) (max_chunk_size : Z) :
  len t <= max_chunk_size ->
  chunk_text t max_chunk_size = [strip t].
Proof.
  intros Hfit. unfold chunk_text.
  rewrite (paragraphs_fit max_chunk_size (split para_sep t) []).
  - rewrite join_split by discriminate. simpl app.
    unfold append_stripped.
    assert (Hne : nonempty (t ++ para_sep) = true) by (destruct t; reflexivity).
    rewrite Hne. simpl. f_equal. apply strip_app_space, all_space_para.
  - apply split_not_nil.
  - simpl app. rewrite join_split by discriminate. exact Hfit.
Qed.

Lemma chunk_text_fits_witness :
  len (lit "one" ++ para_sep ++ lit " two ") <= 20 /\
  chunk_text (lit "one" ++ para_sep ++ lit " two ") 20 =
    [strip (lit "one" ++ para_sep ++ lit " two ")].
Proof.
  split; [vm_compute; discriminate |].
  apply chunk_text_fits. vm_compute. discriminate.
Defined.

End ChunkerMore.

(** ** More about the dispatcher *)

Section DispatcherMore.

Context {W : Type}.
Variable time_time : W -> float * W.
Variable time_sleep : float -> W -> W.
Variable self : DocumentProcessor.
Variable chunks : list text.
Variable process_func : @processor W.
Variable operation_name : text.

Local Abbreviation limiter := (process_with_rate_limit time_time time_sleep self).
Local Abbreviation handle' := (handle time_time time_sleep self chunks process_func operation_name).
Local Abbreviation step' := (step time_time time_sleep self chunks process_func operation_name).
Local Abbreviation dispatch :=
  (process_chunks_parallel time_time time_sleep self chunks process_func operation_name).
Local Abbreviation start s :=
  (Job (replicate (length chunks) Pending) (replicate (length chunks) VNone) O s).

(** The answer of a limited call is an answer of the processor, and the
    rate limiter leaves the progress store alone. *)
Lemma limiter_result (slot : nat) (arg : text) (s : @state W) :
  (exists w, fst (limiter slot process_func arg s) = fst (process_func arg w)) /\
  progress_tracker (snd (limiter slot process_func arg s)) = progress_tracker s.
Proof.
  unfold process_with_rate_limit, now, sleep, log, with_world. simpl.
  destruct (time_time (world s)) as [t1 w1]. simpl.
  destruct (flt _ _); simpl.
  - destruct (time_time (time_sleep _ w1)) as [t2 w2]. simpl.
    destruct (process_func arg w2) as [o w3] eqn:E. simpl.
    split; [exists w2; rewrite E; reflexivity | reflexivity].
  - destruct (time_time w1) as [t2 w2]. simpl.
    destruct (process_func arg w2) as [o w3] eqn:E. simpl.
    split; [exists w2; rewrite E; reflexivity | reflexivity].
Qed.

Section CallsRecorded.

Variable Q : nat -> text -> outcome value -> Prop.
Hypothesis Q_spec : forall i u w, chunks !! i = Some u -> Q i u (fst (process_func u w)).

Lemma limiter_recorded (slot : nat) (arg : text) (s : @state W) :
  chunks !! slot = Some arg ->
  calls_recorded Q (trace s) ->
  calls_recorded Q (trace (snd (limiter slot process_func arg s))).
Proof.
  intros Hslot H. destruct (limiter_events time_time time_sleep self process_func slot arg s)
    as (evs & (pace & Hpace & ->) & ->).
  destruct (limiter_result slot arg s) as [[w Hw] _].
  apply Forall_app. split; [exact H |].
  constructor; [exact I |]. apply Forall_app. split.
  - destruct Hpace as [-> | [d ->]]; repeat constructor.
  - constructor; [exact I |]. constructor; [| constructor].
    rewrite Hw. apply Q_spec, Hslot.
Qed.

Lemma step_recorded (j : @job W) (ev : sched_event) :
  length (futures j) = length chunks ->
  calls_recorded Q (trace (st j)) ->
  calls_recorded Q (trace (st (step' j ev))).
Proof.
  intros Hlen H. destruct ev as [k | k]; simpl.
  - destruct (futures j !! k) as [[| o |] |]; try exact H.
    destruct (chunks !! k) as [c |] eqn:Hc; [| exact H].
    pose proof (limiter_recorded k c (st j) Hc H) as H'.
    destruct (limiter _ _ _ _) as [o s']. exact H'.
  - destruct (futures j !! k) as [[| o |] |] eqn:Hk; try exact H.
    assert (Hlt : (k < length chunks)%nat)
      by (apply lookup_lt_Some in Hk; lia).
    destruct (lookup_lt_is_Some_2 chunks k Hlt) as [c Hc].
    unfold handle. rewrite (chunk_at_lookup _ _ _ Hc). simpl.
    destruct o as [r | e]; [exact H |].
    destruct (is_rate_limit e); [| exact H].
    match goal with
    | |- context [limiter k process_func c ?s0] =>
        pose proof (limiter_recorded k c s0 Hc) as H';
        destruct (limiter k process_func c s0) as [[r | e'] s']
    end; simpl in H' |- *; apply H'; simpl;
      (apply Forall_app; split; [exact H | repeat constructor]).
Qed.

Lemma fold_recorded (sched : list sched_event) (j : @job W) :
  length (futures j) = length chunks ->
  calls_recorded Q (trace (st j)) ->
  calls_recorded Q (trace (st (fold_left step' sched j))).
Proof.
  revert j. induction sched as [| ev sched IH]; intros j Hlen Hj; [exact Hj |].
  cbn [fold_left]. apply IH.
  - rewrite (step_length_futures time_time time_sleep self chunks process_func
               operation_name). exact Hlen.
  - apply step_recorded; assumption.
Qed.

Lemma recorded_calls_of (i : nat) (u : text) (o : outcome value) (tr : list event) :
  calls_recorded Q tr -> In (u, o) (calls_of i tr) -> Q i u o.
Proof.
  intros H Hin. apply calls_of_In in Hin.
  unfold calls_recorded in H. rewrite List.Forall_forall in H.
  apply (H _ Hin).
Qed.

End CallsRecorded.

(** X4. Whatever the processor does, the dispatcher calls it once or
    twice for every unit (twice only after a rate-limit failure), always
    on the unit itself, and makes no call that is not for a unit. *)
Theorem dispatcher_calls_once_or_twice (sched : list sched_event)
    (w : W) (last : float) (tracker : gmap text snapshot) :
  0 < max_workers self ->
  schedule_ok (length chunks) sched = true ->
  exists results s',
    dispatch sched (State w last tracker []) = (Returns results, s') /\
    (forall i u, chunks !! i = Some u ->
       (exists o, calls_of i (trace s') = [(u, o)]) \/
       (exists e o', is_rate_limit e = true /\
                     calls_of i (trace s') = [(u, Raises e); (u, o')])) /\
    (forall i, (length chunks <= i)%nat -> calls_of i (trace s') = []).
Proof.
  intros Hw Hok.
  rewrite (dispatch_returns time_time time_sleep self chunks process_func
             operation_name sched _ Hw). cbv zeta.
  destruct (dispatch_settles time_time time_sleep self chunks process_func
              operation_name sched (State w last tracker []) eq_refl Hok) as [_ Hall].
  cbv zeta in Hall.
  eexists _, _. split; [reflexivity |]. split.
  - intros i u Hu. destruct (Hall i u Hu) as (v & _ & Hd).
    destruct (slot_done_calls i u _ v Hd)
      as [(o & Hc & _) | (e & o' & pre & evs & post & Hc & He & _)].
    + left. exists o. exact Hc.
    + right. exists e, o'. split; assumption.
  - intros i Hi.
    pose proof (fold_recorded (fun k u _ => chunks !! k = Some u)
                  (fun k u _ H => H) sched (start (State w last tracker []))
                  (length_replicate _ _) ltac:(constructor)) as Hrec.
    destruct (calls_of i _) as [| [u o] rest] eqn:Hc; [reflexivity |].
    assert (Hin : In (u, o) (calls_of i (trace (st (fold_left step' sched
                     (start (State w last tracker [])))))))
      by (rewrite Hc; left; reflexivity).
    apply (recorded_calls_of _ i u o _ Hrec) in Hin.
    apply lookup_lt_Some in Hin. lia.
Qed.

(** X5. A processor that never raises is called exactly once for every
    unit: the dispatcher's retry cannot happen, and entry [i] is the
    answer to unit [i] when that answer is a non-empty string, the unit
    itself when the answer is [None] or the empty string. *)
Theorem dispatcher_single_call_without_failure (sched : list sched_event)
    (w : W) (last : float) (tracker : gmap text snapshot) :
  0 < max_workers self ->
  schedule_ok (length chunks) sched = true ->
  (forall u w', exists r, fst (process_func u w') = Returns r) ->
  exists results s',
    dispatch sched (State w last tracker []) = (Returns results, s') /\
    forall i u, chunks !! i = Some u ->
      exists r, calls_of i (trace s') = [(u, Returns r)] /\
                results !! i =
                  Some (match r with
                        | VStr (c :: answer) => VStr (c :: answer)
                        | VStr [] | VNone => VStr u
                        end).
Proof.
  intros Hw Hok Hnever.
  rewrite (dispatch_returns time_time time_sleep self chunks process_func
             operation_name sched _ Hw). cbv zeta.
  destruct (dispatch_settles time_time time_sleep self chunks process_func
              operation_name sched (State w last tracker []) eq_refl Hok) as [_ Hall].
  cbv zeta in Hall.
  eexists _, _. split; [reflexivity |].
  intros i u Hu. destruct (Hall i u Hu) as (v & Hv & Hd).
  pose proof (fold_recorded (fun _ _ o => exists r, o = Returns r)
                (fun _ u' w' _ => Hnever u' w') sched (start (State w last tracker []))
                (length_replicate _ _) ltac:(constructor)) as Hrec.
  destruct (slot_done_calls i u _ v Hd)
    as [(o & Hc & _ & ->) | (e & o' & pre & evs & post & Hc & _)].
  - destruct (recorded_calls_of _ i u o _ Hrec) as [r ->];
      [rewrite Hc; left; reflexivity |].
    exists r. split; [exact Hc |]. rewrite Hv.
    destruct r as [| [| c answer]]; reflexivity.
  - destruct (recorded_calls_of _ i u (Raises e) _ Hrec) as [r Hr];
      [rewrite Hc; left; reflexivity | discriminate Hr].
Qed.

Lemma fold_no_units (sched : list sched_event) (j : @job W) :
  chunks = [] -> futures j = [] -> fold_left step' sched j = j.
Proof.
  intros Hc Hf. induction sched as [| ev sched IH]; [reflexivity |].
  cbn [fold_left].
  assert (Hstep : step' j ev = j).
  { destruct ev as [k | k]; simpl; rewrite Hf; reflexivity. }
  rewrite Hstep. exact IH.
Qed.

End DispatcherMore.

(** X7. With no units and a pool of at least one worker the dispatcher
    returns the empty list and touches nothing: no call, no sleep, no
    progress report, whatever the interleaving. With [max_workers] zero
    or negative it raises even then, because the pool is created before
    anything is submitted; the state is untouched as well. *)
Theorem dispatcher_no_units {W : Type} (time_time : W -> float * W)
    (time_sleep : float -> W -> W) (self : DocumentProcessor)
    (process_func : @processor W) (operation_name : text)
    (sched : list sched_event) (s : @state W) :
  process_chunks_parallel time_time time_sleep self [] process_func operation_name
    sched s =
    if 0 <? max_workers self
    then (Returns [], s)
    else (Raises (lit "max_workers must be greater than 0"), s).
Proof.
  unfold process_chunks_parallel.
  destruct (max_workers self <=? 0) eqn:Hle; destruct (0 <? max_workers self) eqn:Hlt;
    try reflexivity.
  - apply Z.leb_le in Hle. apply Z.ltb_lt in Hlt. lia.
  - rewrite (fold_no_units time_time time_sleep self [] process_func operation_name);
      reflexivity.
  - apply Z.leb_gt in Hle. apply Z.ltb_ge in Hlt. lia.
Qed.

(** ** More about the progress reporter *)

Section ProgressMore.

Lemma digits2_iter_xO (p : positive) (k : positive) :
  digits2_pos (Pos.iter xO p k) = (digits2_pos p + k)%positive.
Proof.
  induction k as [| k IH] using Pos.peano_ind.
  - simpl. lia.
  - rewrite Pos.iter_succ. simpl. rewrite IH. lia.
Qed.

Lemma digits2_lower (p : positive) : 2 ^ (Zpos (digits2_pos p) - 1) <= Zpos p.
Proof.
  induction p as [p IH | p IH |]; simpl digits2_pos.
  - replace (Zpos (Pos.succ (digits2_pos p)) - 1) with (Z.succ (Zpos (digits2_pos p) - 1)) by lia.
    rewrite Z.pow_succ_r by lia. lia.
  - replace (Zpos (Pos.succ (digits2_pos p)) - 1) with (Z.succ (Zpos (digits2_pos p) - 1)) by lia.
    rewrite Z.pow_succ_r by lia. lia.
  - simpl. lia.
Qed.

Lemma round_aligned (s : bool) (m : positive) (e : Z) :
  Zpos (digits2_pos m) = 53 -> -1074 <= e <= 971 ->
  binary_round_aux prec emax s (Zpos m) e loc_Exact = S754_finite s m e.
Proof.
  intros Hd He. unfold binary_round_aux, shr_fexp. simpl Zdigits2.
  rewrite Hd. unfold fexp, emin, prec, emax.
  replace (Z.max (53 + e - 53) (3 - 1024 - 53) - e) with 0 by lia.
  simpl. rewrite Hd.
  replace (Z.max (53 + e - 53) (3 - 1024 - 53) - e) with 0 by lia.
  simpl. destruct (e <=? 1024 - 53) eqn:E; [reflexivity | apply Z.leb_gt in E; lia].
Qed.

Lemma float_of_int_small (p : positive) :
  Zpos p < 2 ^ 53 ->
  exists m e, float_of_int (Zpos p) = S754_finite false m e.
Proof.
  intros Hp. unfold float_of_int, binary_normalize, binary_round.
  assert (Hd : Zpos (digits2_pos p) <= 53).
  { pose proof (digits2_lower p) as Hl.
    destruct (Z_le_gt_dec (Zpos (digits2_pos p)) 53) as [H | H]; [exact H |].
    assert (2 ^ 53 <= 2 ^ (Zpos (digits2_pos p) - 1)) by (apply Z.pow_le_mono_r; lia).
    lia. }
  unfold shl_align, fexp, emin, prec, emax.
  replace (Z.max (Zpos (digits2_pos p) + 0 - 53) (3 - 1024 - 53) - 0)
    with (Zpos (digits2_pos p) - 53) by lia.
  destruct (Zpos (digits2_pos p) - 53) as [| k | k] eqn:Hk; [| lia |].
  - exists p, 0. apply round_aligned; lia.
  - exists (Pos.iter xO p k), (Z.max (Zpos (digits2_pos p) + 0 - 53) (3 - 1024 - 53)).
    apply round_aligned.
    + rewrite digits2_iter_xO. lia.
    + lia.
Qed.

Lemma fdiv_self (s : bool) (m : positive) (e : Z) :
  fdiv (S754_finite s m e) (S754_finite s m e) = float_one.
Proof.
  unfold fdiv, SFdiv, SFdiv_core_binary.
  replace (Zdigits2 (Zpos m) + e - (Zdigits2 (Zpos m) + e)) with 0 by lia.
  rewrite Z.sub_diag.
  change (Z.min (fexp prec emax 0) 0) with (-53).
  change (0 - -53) with 53.
  cbv iota beta.
  rewrite Z.shiftl_mul_pow2 by lia.
  destruct (Z.div_eucl (Zpos m * 2 ^ 53) (Zpos m)) as [q r] eqn:E.
  assert (Hq : q = 2 ^ 53).
  { change q with (fst (q, r)). rewrite <- E.
    change (fst (Z.div_eucl (Zpos m * 2 ^ 53) (Zpos m))) with ((Zpos m * 2 ^ 53) / Zpos m).
    rewrite Z.mul_comm. apply Z.div_mul. lia. }
  assert (Hr : r = 0).
  { change r with (snd (q, r)). rewrite <- E.
    change (snd (Z.div_eucl (Zpos m * 2 ^ 53) (Zpos m))) with ((Zpos m * 2 ^ 53) mod Zpos m).
    rewrite Z.mul_comm. apply Z.mod_mul. lia. }
  subst q r.
  assert (Hloc : new_location (Zpos m) 0 = loc_Exact).
  { unfold new_location, new_location_even, new_location_odd.
    destruct (Z.even (Zpos m)); reflexivity. }
  rewrite Hloc. destruct s; vm_compute; reflexivity.
Qed.

(** X8. The ends of the scale are exact in spite of the floating-point
    arithmetic: for every total below 2^53, [update_progress] computes 0
    percent for 0 units and 100 percent for all of them. *)
Theorem percentage_endpoints (total : Z) :
  0 < total < 2 ^ 53 ->
  percentage_of 0 total = 0 /\ percentage_of total total = 100.
Proof.
  intros Hn. unfold percentage_of.
  destruct (total >? 0) eqn:E; [| apply gtb_false_iff in E; lia].
  unfold true_div. destruct total as [| p | p]; try lia.
  split; [reflexivity |]. simpl exact_int.
  rewrite fdiv_self. vm_compute. reflexivity.
Qed.

Lemma percentage_endpoints_witness :
  0 < 7 < 2 ^ 53 /\ percentage_of 0 7 = 0 /\ percentage_of 7 7 = 100.
Proof.
  split; [lia |]. apply percentage_endpoints. lia.
Defined.

(** X9. [update_progress] with a job identifier replaces the snapshot of
    that job and leaves the snapshot of every other job as it was; a
    second report for the job overwrites the first (the last writer
    wins). *)
Theorem update_progress_other_jobs (j k : text) (c1 t1 c2 t2 : Z)
    (st1 st2 : text) (tracker : gmap text snapshot) :
  nonempty j = true -> k <> j ->
  update_progress (Some j) c1 t1 st1 tracker !! k = tracker !! k /\
  update_progress (Some j) c2 t2 st2 (update_progress (Some j) c1 t1 st1 tracker) =
    update_progress (Some j) c2 t2 st2 tracker.
Proof.
  intros Hj Hk. unfold update_progress, job_id_set. rewrite Hj. split.
  - apply lookup_insert_ne. congruence.
  - apply insert_insert_eq.
Qed.

Lemma update_progress_other_jobs_witness :
  nonempty (lit "translate-7") = true /\ lit "ocr-3" <> lit "translate-7" /\
  update_progress (Some (lit "translate-7")) 1 4 (lit "a") ∅ !! lit "ocr-3" =
    (∅ : gmap text snapshot) !! lit "ocr-3" /\
  update_progress (Some (lit "translate-7")) 2 4 (lit "b")
      (update_progress (Some (lit "translate-7")) 1 4 (lit "a") ∅) =
    update_progress (Some (lit "translate-7")) 2 4 (lit "b") ∅.
Proof.
  split; [reflexivity |]. split; [discriminate |].
  apply update_progress_other_jobs; [reflexivity | discriminate].
Defined.

End ProgressMore.

(** ** Progress of the dispatcher *)

Section DispatcherProgress.

Context {W : Type}.
Variable time_time : W -> float * W.
Variable time_sleep : float -> W -> W.
Variable self : DocumentProcessor.
Variable chunks : list text.
Variable process_func : @processor W.
Variable operation_name : text.
Variable tracker0 : gmap text snapshot.

Local Abbreviation limiter := (process_with_rate_limit time_time time_sleep self).
Local Abbreviation handle' := (handle time_time time_sleep self chunks process_func operation_name).
Local Abbreviation step' := (step time_time time_sleep self chunks process_func operation_name).
Local Abbreviation dispatch :=
  (process_chunks_parallel time_time time_sleep self chunks process_func operation_name).
Local Abbreviation inv :=
  (progress_inv (job_id self) operation_name (length chunks) tracker0).

Lemma yielded_count_insert {A : Type} (fs : list (future A)) (k : nat) (x y : future A) :
  fs !! k = Some x ->
  (yielded_count (<[k := y]> fs) + (if is_yielded x then 1 else 0) =
   yielded_count fs + (if is_yielded y then 1 else 0))%nat.
Proof.
  unfold yielded_count. revert k. induction fs as [| f fs IH]; intros k Hk; [discriminate |].
  destruct k as [| k]; simpl in Hk |- *.
  - injection Hk as ->. destruct (is_yielded x), (is_yielded y); simpl; lia.
  - specialize (IH k Hk). destruct (is_yielded f); simpl; lia.
Qed.

Lemma yielded_count_all {A : Type} (fs : list (future A)) :
  (forall i, (i < length fs)%nat -> fs !! i = Some Yielded) ->
  yielded_count fs = length fs.
Proof.
  unfold yielded_count. induction fs as [| f fs IH]; intros H; [reflexivity |].
  pose proof (H O ltac:(simpl; lia)) as H0. simpl in H0. injection H0 as ->.
  simpl. f_equal. apply IH. intros i Hi. apply (H (S i)). simpl. lia.
Qed.

Lemma yielded_count_pending {A : Type} (n : nat) :
  yielded_count (replicate n (@Pending A)) = O.
Proof. unfold yielded_count. induction n as [| n IH]; [reflexivity | exact IH]. Qed.

(** The body of the loop counts one more completion and reports it. *)
Lemma handle_progress (index : nat) (o : outcome value) (j : @job W) :
  completed (handle' index o j) = S (completed j) /\
  progress_tracker (st (handle' index o j)) =
    update_progress (job_id self) (Z.of_nat (S (completed j))) (Z.of_nat (length chunks))
      (status_line operation_name (S (completed j)) (length chunks))
      (progress_tracker (st j)).
Proof.
  unfold handle. destruct o as [r | e]; [split; reflexivity |].
  destruct (is_rate_limit e); [| split; reflexivity].
  match goal with
  | |- context [limiter index process_func ?c ?s0] =>
      destruct (limiter_result time_time time_sleep self process_func index c s0) as [_ Ht];
      destruct (limiter index process_func c s0) as [[r | e'] s']
  end; simpl in Ht |- *; (split; [reflexivity | exact Ht]).
Qed.

Lemma step_progress (j : @job W) (ev : sched_event) : inv j -> inv (step' j ev).
Proof.
  intros [Hc Ht]. destruct ev as [k | k]; simpl.
  - destruct (futures j !! k) as [[| o |] |] eqn:Hk; try (split; assumption).
    destruct (chunks !! k) as [c |]; [| split; assumption].
    destruct (limiter_result time_time time_sleep self process_func k c (st j)) as [_ Hlt].
    destruct (limiter _ _ _ _) as [o s']. simpl in Hlt.
    unfold progress_inv. simpl. rewrite Hlt. split; [| exact Ht].
    pose proof (yielded_count_insert (futures j) k Pending (Finished o) Hk) as Hy.
    simpl in Hy. lia.
  - destruct (futures j !! k) as [[| o |] |] eqn:Hk; try (split; assumption).
    set (j0 := Job (<[k := Yielded]> (futures j)) (results j) (completed j) (st j)).
    destruct (handle_progress k o j0) as [Hcount Htr].
    unfold progress_inv.
    rewrite (handle_futures time_time time_sleep self chunks process_func operation_name).
    rewrite Hcount, Htr. simpl. split.
    + pose proof (yielded_count_insert (futures j) k (Finished o) Yielded Hk) as Hy.
      simpl in Hy. lia.
    + unfold update_progress. destruct (job_id_set (job_id self)) as [key |]; [| exact Ht].
      destruct (completed j); rewrite Ht; [reflexivity | apply insert_insert_eq].
Qed.

Lemma fold_progress (sched : list sched_event) (j : @job W) :
  inv j -> inv (fold_left step' sched j).
Proof.
  revert j. induction sched as [| ev sched IH]; intros j Hj; [exact Hj |].
  cbn [fold_left]. apply IH, step_progress, Hj.
Qed.

(** X6. When the dispatcher returns, the progress store it started from
    has changed at most under the job's key: with a job identifier and at
    least one unit it holds "all units done" there (current = total =
    number of units); without a job identifier, or with no unit, it is
    unchanged. *)
Theorem dispatcher_final_progress (sched : list sched_event) (w : W) (last : float) :
  0 < max_workers self ->
  schedule_ok (length chunks) sched = true ->
  exists results s',
    dispatch sched (State w last tracker0 []) = (Returns results, s') /\
    progress_tracker s' =
      match job_id_set (job_id self), length chunks with
      | Some k, S _ =>
          <[k := progress_snapshot operation_name (length chunks) (length chunks)]> tracker0
      | _, _ => tracker0
      end.
Proof.
  intros Hw Hok.
  rewrite (dispatch_returns time_time time_sleep self chunks process_func
             operation_name sched _ Hw). cbv zeta.
  set (j0 := Job (replicate (length chunks) Pending) (replicate (length chunks) VNone) O
               (State w last tracker0 [])).
  assert (H0 : inv j0).
  { split; simpl.
    - symmetry. apply yielded_count_pending.
    - destruct (job_id_set (job_id self)); reflexivity. }
  pose proof (fold_progress sched j0 H0) as [Hc Ht].
  eexists _, _. split; [reflexivity |].
  assert (Hn : completed (fold_left step' sched j0) = length chunks).
  { rewrite Hc.
    pose proof (fold_inv time_time time_sleep self chunks process_func operation_name
                  sched j0) as Hinv.
    assert (Hj0 : job_inv chunks j0).
    { split; [apply length_replicate |]. split; [apply length_replicate |].
      intros i u Hu. unfold slot_inv. simpl.
      rewrite lookup_replicate_2 by (apply lookup_lt_Some in Hu; exact Hu). reflexivity. }
    destruct (Hinv Hj0) as [Hlf _].
    rewrite <- Hlf. apply yielded_count_all. intros i Hi.
    apply (fold_all_yielded futures step' (length chunks)
             (step_length_futures time_time time_sleep self chunks process_func operation_name)
             (step_runs time_time time_sleep self chunks process_func operation_name)
             (step_started time_time time_sleep self chunks process_func operation_name)
             (step_yields time_time time_sleep self chunks process_func operation_name)
             (step_yielded time_time time_sleep self chunks process_func operation_name)
             sched j0 i Hok (length_replicate _ _)).
    lia. }
  rewrite Hn in Ht. revert Ht. simpl.
  generalize (progress_tracker (st (fold_left step' sched j0))). intros t Ht.
  destruct (job_id_set (job_id self)); [| exact Ht].
  destruct (length chunks); exact Ht.
Qed.

End DispatcherProgress.

(** ** Proofreading *)

Section ProofreadingFacts.

Lemma part_of_refl (s : text) : part_of s s.
Proof. exists [], []. rewrite app_nil_r. reflexivity. Qed.

Lemma part_of_trans (a b c : text) : part_of a b -> part_of b c -> part_of a c.
Proof.
  intros (x & y & ->) (x' & y' & ->). exists (x' ++ x), (y ++ y').
  rewrite <- !app_assoc. reflexivity.
Qed.

Lemma lstrip_suffix (s : text) : exists ws, s = ws ++ lstrip s.
Proof.
  induction s as [| c s [ws IH]]; [exists []; reflexivity |].
  simpl. destruct (isspace c).
  - exists (c :: ws). simpl. f_equal. exact IH.
  - exists []. reflexivity.
Qed.

Lemma rstrip_prefix (s : text) : exists ws, s = rstrip s ++ ws.
Proof.
  induction s as [| c s [ws IH]]; [exists []; reflexivity |].
  simpl. destruct (rstrip s) as [| x r].
  - destruct (isspace c).
    + exists (c :: s). reflexivity.
    + exists s. reflexivity.
  - exists ws. simpl. f_equal. exact IH.
Qed.

Lemma strip_part (s : text) : part_of (strip s) s.
Proof.
  unfold strip. destruct (lstrip_suffix s) as [a Ha].
  destruct (rstrip_prefix (lstrip s)) as [b Hb].
  exists a, b. rewrite <- Hb. exact Ha.
Qed.

Lemma drop_part (n : nat) (s : text) : part_of (drop n s) s.
Proof. exists (take n s), []. rewrite app_nil_r, take_drop. reflexivity. Qed.

Lemma join_part (sep p : text) (ps : list text) :
  In p ps -> part_of p (join sep ps).
Proof.
  induction ps as [| q [| q' ps] IH]; intros Hin; [contradiction | |].
  - destruct Hin as [-> | []]. apply part_of_refl.
  - change (join sep (q :: q' :: ps)) with (q ++ sep ++ join sep (q' :: ps)).
    destruct Hin as [-> | Hin].
    + exists [], (sep ++ join sep (q' :: ps)). reflexivity.
    + destruct (IH Hin) as (a & b & ->). exists (q ++ sep ++ a), b.
      rewrite <- !app_assoc. reflexivity.
Qed.

(** Every piece of a split is a part of the string. *)
Lemma split_part (sep s p : text) : sep <> [] -> In p (split sep s) -> part_of p s.
Proof.
  intros Hsep Hin. pose proof (join_part sep p (split sep s) Hin) as H.
  rewrite (join_split sep s Hsep) in H. exact H.
Qed.

Lemma split_hd_prefix (sep s p : text) (ps : list text) :
  sep <> [] -> split sep s = p :: ps -> exists rest, s = p ++ rest.
Proof.
  intros Hsep Hs. rewrite <- (join_split sep s Hsep), Hs.
  destruct ps as [| q ps].
  - exists []. simpl. rewrite app_nil_r. reflexivity.
  - exists (sep ++ join sep (q :: ps)). reflexivity.
Qed.

Lemma startswith_app_r (p s t : text) :
  startswith p s = true -> startswith p (s ++ t) = true.
Proof.
  revert s. induction p as [| a p IH]; intros s H; [reflexivity |].
  destruct s as [| c s]; [discriminate |]. simpl in H |- *.
  apply andb_prop in H as [H1 H2]. rewrite H1. simpl. apply IH, H2.
Qed.

Lemma startswith_self (p s : text) : startswith p (p ++ s) = true.
Proof.
  induction p as [| a p IH]; [reflexivity |].
  simpl. rewrite N.eqb_refl. exact IH.
Qed.

Lemma contains_app_r (n s t : text) : contains n s = true -> contains n (s ++ t) = true.
Proof.
  induction s as [| c s IH]; simpl; intros H.
  - rewrite orb_false_r in H. destruct n; [| discriminate].
    destruct t; reflexivity.
  - apply orb_prop in H as [H | H].
    + change (c :: s ++ t) with ((c :: s) ++ t).
      rewrite (startswith_app_r n (c :: s) t H). reflexivity.
    + rewrite (IH H). apply orb_true_r.
Qed.

Lemma contains_app_l (n s t : text) : contains n t = true -> contains n (s ++ t) = true.
Proof.
  intros H. induction s as [| c s IH]; [exact H |].
  simpl. rewrite IH. apply orb_true_r.
Qed.

(** What a part contains, the whole contains. *)
Lemma contains_part (n r s : text) : part_of r s -> contains n r = true -> contains n s = true.
Proof.
  intros (a & b & ->) H. apply contains_app_l, contains_app_r, H.
Qed.

Lemma lacks_part (n r s : text) : part_of r s -> contains n s = false -> contains n r = false.
Proof.
  intros Hp Hs. destruct (contains n r) eqn:E; [| reflexivity].
  rewrite (contains_part n r s Hp E) in Hs. discriminate.
Qed.

(** No piece of a split contains the separator. *)
Lemma split_lacks (sep : text) :
  sep <> [] -> forall s p, In p (split sep s) -> contains sep p = false.
Proof.
  intros Hsep.
  assert (Hnil : contains sep [] = false) by (destruct sep; [congruence | reflexivity]).
  assert (H : forall n s, (length s <= n)%nat ->
                forall p, In p (split sep s) -> contains sep p = false).
  { induction n as [| n IH]; intros [| c s] Hn p Hin.
    - destruct Hin as [<- | []]. exact Hnil.
    - simpl in Hn. lia.
    - destruct Hin as [<- | []]. exact Hnil.
    - rewrite split_cons in Hin. destruct (startswith sep (c :: s)) eqn:Hst.
      + destruct Hin as [<- | Hin]; [exact Hnil |].
        apply (IH (drop (Nat.pred (length sep)) s)); [| exact Hin].
        rewrite length_drop. simpl in Hn. lia.
      + destruct (split sep s) as [| p0 ps] eqn:Hs; [destruct (split_not_nil _ _ Hs) |].
        simpl in Hin. destruct Hin as [<- | Hin].
        * simpl. apply orb_false_intro.
          -- destruct (startswith sep (c :: p0)) eqn:E; [| reflexivity].
             destruct (split_hd_prefix sep s p0 ps Hsep Hs) as [rest ->].
             change (c :: p0 ++ rest) with ((c :: p0) ++ rest) in Hst.
             rewrite (startswith_app_r sep (c :: p0) rest E) in Hst. discriminate.
          -- apply (IH s); [simpl in Hn; lia | rewrite Hs; left; reflexivity].
        * apply (IH s); [simpl in Hn; lia | rewrite Hs; right; exact Hin]. }
  intros s p. apply (H (length s)). lia.
Qed.

Lemma split_hd_In (sep s : text) : In (hd [] (split sep s)) (split sep s).
Proof.
  destruct (split sep s) eqn:E; [destruct (split_not_nil _ _ E) | left; reflexivity].
Qed.

Lemma cut_section_part (x section : text) : section <> [] -> part_of (cut_section x section) x.
Proof.
  intros Hs. unfold cut_section. destruct (contains section x); [| apply part_of_refl].
  apply (split_part section x _ Hs), split_hd_In.
Qed.

Lemma cut_section_lacks (x section : text) :
  section <> [] -> contains section (cut_section x section) = false.
Proof.
  intros Hs. unfold cut_section. destruct (contains section x) eqn:E; [| exact E].
  apply (split_lacks section Hs x), split_hd_In.
Qed.

Lemma remove_prefix_keeps (resp c prefix : text) :
  strip c = c /\ part_of c resp ->
  strip (remove_prefix c prefix) = remove_prefix c prefix /\
  part_of (remove_prefix c prefix) resp /\
  len (remove_prefix c prefix) <= len c.
Proof.
  intros [Hc Hp]. unfold remove_prefix. destruct (startswith prefix c).
  - split; [apply strip_idem |]. split.
    + apply (part_of_trans _ (drop (length prefix) c)); [apply strip_part |].
      apply (part_of_trans _ c); [apply drop_part | exact Hp].
    + pose proof (len_strip (drop (length prefix) c)) as H.
      unfold len in *. rewrite length_drop in H. lia.
  - repeat split; try assumption. lia.
Qed.

Lemma remove_prefixes_keep (resp : text) (prefixes : list text) (c : text) :
  strip c = c /\ part_of c resp ->
  strip (fold_left remove_prefix prefixes c) = fold_left remove_prefix prefixes c /\
  part_of (fold_left remove_prefix prefixes c) resp /\
  len (fold_left remove_prefix prefixes c) <= len c.
Proof.
  revert c. induction prefixes as [| q prefixes IH]; intros c Hc.
  - simpl. destruct Hc. repeat split; try assumption. lia.
  - cbn [fold_left]. destruct (remove_prefix_keeps resp c q Hc) as (H1 & H2 & H3).
    destruct (IH _ (conj H1 H2)) as (H4 & H5 & H6). repeat split; try assumption. lia.
Qed.

(** The text under the header, when [marked_text] finds one. *)
Lemma marked_text_spec (resp r : text) :
  marked_text resp = Some r ->
  clean_text r /\ part_of r resp /\
  contains CORRECTED_TEXT r = false /\
  contains CHANGES_MADE r = false /\
  contains FORMATTING_APPLIED r = false.
Proof.
  unfold marked_text. destruct (contains CORRECTED_TEXT resp); [| discriminate].
  destruct (1 <? length (split CORRECTED_TEXT resp))%nat eqn:Hlen; [| discriminate].
  apply Nat.ltb_lt in Hlen.
  set (part1 := nth 1 (split CORRECTED_TEXT resp) []).
  assert (Hin : In part1 (split CORRECTED_TEXT resp)) by (apply nth_In; exact Hlen).
  simpl fold_left.
  set (c1 := cut_section part1 CHANGES_MADE).
  set (c2 := cut_section c1 FORMATTING_APPLIED).
  destruct (nonempty (strip c2)) eqn:Hne; [| discriminate].
  intros H. injection H as <-.
  assert (P2 : part_of c2 c1) by (apply cut_section_part; discriminate).
  assert (P1 : part_of c1 part1) by (apply cut_section_part; discriminate).
  assert (P0 : part_of part1 resp) by (apply (split_part CORRECTED_TEXT); [discriminate | exact Hin]).
  assert (Ps : part_of (strip c2) c2) by apply strip_part.
  split; [split; [exact Hne | apply strip_idem] |].
  split; [eauto using part_of_trans |].
  split; [| split].
  - apply (lacks_part _ _ part1); [eauto using part_of_trans |].
    apply (split_lacks CORRECTED_TEXT ltac:(discriminate) resp), Hin.
  - apply (lacks_part _ _ c1); [eauto using part_of_trans |].
    apply cut_section_lacks. discriminate.
  - apply (lacks_part _ _ c2); [exact Ps |].
    apply cut_section_lacks. discriminate.
Qed.

(** What [extract_corrected_text] returns, whichever way it goes. *)
Lemma extract_spec (resp : text) :
  match extract_corrected_text resp with
  | VStr r => clean_text r /\ part_of r resp
  | VNone => True
  end.
Proof.
  unfold extract_corrected_text. destruct (marked_text resp) as [r |] eqn:Hm.
  - destruct (marked_text_spec resp r Hm) as (H1 & H2 & _). split; assumption.
  - destruct (remove_prefixes_keep resp prefixes_to_remove (strip resp)
                (conj (strip_idem resp) (strip_part resp))) as (H1 & H2 & _).
    destruct (len _ >? 50) eqn:Hlen; [| exact I].
    split; [| exact H2]. split; [| exact H1].
    apply gtb_true_iff in Hlen.
    destruct (fold_left remove_prefix prefixes_to_remove (strip resp));
      [vm_compute in Hlen; discriminate | reflexivity].
Qed.

(** X10. Whatever the model answers, [extract_corrected_text] returns
    [None] or a non-empty text without surrounding whitespace that is a
    contiguous part of the answer: it never returns the empty string and
    never text the model did not write. *)
Theorem extract_corrected_text_part (ai_response : text) :
  match extract_corrected_text ai_response with
  | VStr r => nonempty r = true /\ strip r = r /\ part_of r ai_response
  | VNone => True
  end.
Proof.
  pose proof (extract_spec ai_response) as H.
  destruct (extract_corrected_text ai_response); [exact I |].
  destruct H as [[H1 H2] H3]. repeat split; assumption.
Qed.

(** X12. An answer without the header whose text, stripped, has at most
    50 characters is rejected: [extract_corrected_text] returns [None]
    (and the dispatcher then keeps the original chunk). *)
Theorem extract_corrected_text_short (ai_response : text) :
  contains CORRECTED_TEXT ai_response = false ->
  len (strip ai_response) <= 50 ->
  extract_corrected_text ai_response = VNone.
Proof.
  intros Hm Hlen. unfold extract_corrected_text, marked_text. rewrite Hm.
  destruct (remove_prefixes_keep ai_response prefixes_to_remove (strip ai_response)
              (conj (strip_idem ai_response) (strip_part ai_response))) as (_ & _ & H).
  destruct (len _ >? 50) eqn:E; [| reflexivity].
  apply gtb_true_iff in E. lia.
Qed.

Lemma extract_corrected_text_short_witness :
  contains CORRECTED_TEXT (lit "  No technical corrections needed.  ") = false /\
  len (strip (lit "  No technical corrections needed.  ")) <= 50 /\
  extract_corrected_text (lit "  No technical corrections needed.  ") = VNone.
Proof.
  split; [reflexivity |]. split; [vm_compute; discriminate |].
  apply extract_corrected_text_short; [reflexivity | vm_compute; discriminate].
Defined.

(** X13. The answer in the format the prompt asks for, the header
    followed by a text that has none of the three headers in it and is
    not blank, gives that text, stripped. *)
Theorem extract_corrected_text_format (body : text) :
  contains CORRECTED_TEXT body = false ->
  contains CHANGES_MADE body = false ->
  contains FORMATTING_APPLIED body = false ->
  nonempty (strip body) = true ->
  extract_corrected_text (CORRECTED_TEXT ++ body) = VStr (strip body).
Proof.
  intros Hm Hc Hf Hne. unfold extract_corrected_text, marked_text.
  assert (Hcont : contains CORRECTED_TEXT (CORRECTED_TEXT ++ body) = true).
  { apply contains_app_r. reflexivity. }
  rewrite Hcont.
  assert (Hsplit : split CORRECTED_TEXT (CORRECTED_TEXT ++ body) = [[]; body]).
  { change (CORRECTED_TEXT ++ body)
      with (67%N :: (lit "ORRECTED_TEXT:" ++ body)).
    rewrite split_cons.
    change (67%N :: (lit "ORRECTED_TEXT:" ++ body)) with (CORRECTED_TEXT ++ body).
    rewrite startswith_self.
    change (drop (Nat.pred (length CORRECTED_TEXT)) (lit "ORRECTED_TEXT:" ++ body))
      with body.
    rewrite (split_without _ _ Hm). reflexivity. }
  rewrite Hsplit. simpl length. simpl nth. cbv iota beta.
  change (1 <? 2)%nat with true. cbv iota.
  simpl fold_left. unfold cut_section. rewrite Hc, Hf, Hne. reflexivity.
Qed.

Lemma extract_corrected_text_format_witness :
  contains CORRECTED_TEXT (lit " namaste duniya ") = false /\
  contains CHANGES_MADE (lit " namaste duniya ") = false /\
  contains FORMATTING_APPLIED (lit " namaste duniya ") = false /\
  nonempty (strip (lit " namaste duniya ")) = true /\
  extract_corrected_text (CORRECTED_TEXT ++ lit " namaste duniya ") =
    VStr (strip (lit " namaste duniya ")).
Proof.
  repeat (split; [reflexivity |]).
  apply extract_corrected_text_format; reflexivity.
Defined.

Lemma split_after_space (sep ws rest : text) (c : char) (sep' : text) :
  sep = c :: sep' -> isspace c = false -> all_space ws ->
  hd [] (split sep (ws ++ sep ++ rest)) = ws.
Proof.
  intros -> Hc Hws. induction Hws as [| x ws Hx _ IH].
  - change ([] ++ (c :: sep') ++ rest) with (c :: (sep' ++ rest)).
    rewrite split_cons.
    change (c :: (sep' ++ rest)) with ((c :: sep') ++ rest).
    rewrite startswith_self. reflexivity.
  - change ((x :: ws) ++ (c :: sep') ++ rest) with (x :: (ws ++ (c :: sep') ++ rest)).
    rewrite split_cons.
    assert (Hst : startswith (c :: sep') (x :: (ws ++ (c :: sep') ++ rest)) = false).
    { simpl. destruct (c =? x)%N eqn:E; [| reflexivity].
      apply N.eqb_eq in E. subst x. congruence. }
    rewrite Hst.
    destruct (split (c :: sep') (ws ++ (c :: sep') ++ rest)) as [| p ps] eqn:Hs;
      [destruct (split_not_nil _ _ Hs) |].
    simpl in IH |- *. rewrite IH. reflexivity.
Qed.

Lemma all_space_lacks (sep ws : text) (c : char) (sep' : text) :
  sep = c :: sep' -> isspace c = false -> all_space ws -> contains sep ws = false.
Proof.
  intros -> Hc Hws. induction Hws as [| x ws Hx _ IH]; [reflexivity |].
  simpl. rewrite IH, orb_false_r.
  destruct (c =? x)%N eqn:E; [| reflexivity].
  apply N.eqb_eq in E. subst x. congruence.
Qed.

(** X14. An answer whose "CORRECTED_TEXT:" block is blank and is followed
    by "CHANGES_MADE:" notes is not rejected when it is longer than 50
    characters: the whole answer, headers and notes included, is returned
    as the corrected text. *)
Theorem extract_corrected_text_blank_block (ws notes : text) :
  all_space ws ->
  contains CORRECTED_TEXT (ws ++ CHANGES_MADE ++ notes) = false ->
  50 < len (strip (CORRECTED_TEXT ++ ws ++ CHANGES_MADE ++ notes)) ->
  extract_corrected_text (CORRECTED_TEXT ++ ws ++ CHANGES_MADE ++ notes) =
    VStr (strip (CORRECTED_TEXT ++ ws ++ CHANGES_MADE ++ notes)).
Proof.
  intros Hws Hm Hlen.
  set (resp := CORRECTED_TEXT ++ ws ++ CHANGES_MADE ++ notes) in *.
  assert (Hmarked : marked_text resp = None).
  { unfold marked_text.
    assert (Hcont : contains CORRECTED_TEXT resp = true)
      by (apply contains_app_r; reflexivity).
    rewrite Hcont.
    assert (Hsplit : split CORRECTED_TEXT resp = [[]; ws ++ CHANGES_MADE ++ notes]).
    { unfold resp.
      change (CORRECTED_TEXT ++ ws ++ CHANGES_MADE ++ notes)
        with (67%N :: (lit "ORRECTED_TEXT:" ++ ws ++ CHANGES_MADE ++ notes)).
      rewrite split_cons.
      change (67%N :: (lit "ORRECTED_TEXT:" ++ ws ++ CHANGES_MADE ++ notes))
        with (CORRECTED_TEXT ++ ws ++ CHANGES_MADE ++ notes).
      rewrite startswith_self.
      change (drop (Nat.pred (length CORRECTED_TEXT))
                (lit "ORRECTED_TEXT:" ++ ws ++ CHANGES_MADE ++ notes))
        with (ws ++ CHANGES_MADE ++ notes).
      rewrite (split_without _ _ Hm). reflexivity. }
    rewrite Hsplit.
    change (1 <? length [[]; ws ++ CHANGES_MADE ++ notes])%nat with true. cbv iota.
    change (nth 1 [[]; ws ++ CHANGES_MADE ++ notes] []) with (ws ++ CHANGES_MADE ++ notes).
    unfold sections. cbn [fold_left]. unfold cut_section.
    assert (Hc : contains CHANGES_MADE (ws ++ CHANGES_MADE ++ notes) = true)
      by (apply contains_app_l, contains_app_r; reflexivity).
    rewrite Hc.
    rewrite (split_after_space CHANGES_MADE ws notes 67%N (lit "HANGES_MADE:")
               eq_refl eq_refl Hws).
    rewrite (all_space_lacks FORMATTING_APPLIED ws 70%N (lit "ORMATTING_APPLIED:")
               eq_refl eq_refl Hws).
    unfold strip. rewrite (lstrip_all_space ws Hws). reflexivity. }
  unfold extract_corrected_text. rewrite Hmarked.
  assert (Hshape : exists rest, strip resp = 67%N :: 79%N :: rest).
  { unfold strip in *.
    change (lstrip resp) with resp in *.
    destruct (rstrip_prefix resp) as [tail Htail].
    destruct (rstrip resp) as [| a [| b r]] eqn:Hr;
      [vm_compute in Hlen; discriminate | vm_compute in Hlen; discriminate |].
    exists r. unfold resp in Htail.
    change (CORRECTED_TEXT ++ ws ++ CHANGES_MADE ++ notes)
      with (67%N :: 79%N :: (lit "RRECTED_TEXT:" ++ ws ++ CHANGES_MADE ++ notes)) in Htail.
    simpl in Htail. injection Htail as <- <- _. reflexivity. }
  destruct Hshape as [rest Hrest].
  assert (Hfold : fold_left remove_prefix prefixes_to_remove (strip resp) = strip resp).
  { rewrite Hrest. reflexivity. }
  rewrite Hfold.
  destruct (len (strip resp) >? 50) eqn:E; [reflexivity |].
  apply gtb_false_iff in E. lia.
Qed.

Lemma extract_corrected_text_blank_block_witness :
  all_space [NL] /\
  contains CORRECTED_TEXT
    ([NL] ++ CHANGES_MADE ++ lit " fixed the matras in several words") = false /\
  50 < len (strip (CORRECTED_TEXT ++ [NL] ++ CHANGES_MADE
                   ++ lit " fixed the matras in several words")) /\
  extract_corrected_text
    (CORRECTED_TEXT ++ [NL] ++ CHANGES_MADE ++ lit " fixed the matras in several words") =
  VStr (strip (CORRECTED_TEXT ++ [NL] ++ CHANGES_MADE
               ++ lit " fixed the matras in several words")).
Proof.
  split; [repeat constructor |]. split; [reflexivity |]. split; [reflexivity |].
  apply extract_corrected_text_blank_block;
    [repeat constructor | reflexivity | reflexivity].
Defined.

Lemma startswith_agree (p h tail : text) :
  startswith p (h ++ tail) = true -> agree p h = true.
Proof.
  revert h. induction p as [| a p IH]; intros h H; [reflexivity |].
  destruct h as [| y h]; [reflexivity |].
  simpl in H |- *. apply andb_true_iff in H as [H1 H2].
  rewrite H1. simpl. apply IH, H2.
Qed.

Lemma startswith_tail (p s r : text) :
  startswith p (s ++ r) = true -> (length s <= length p)%nat ->
  startswith (drop (length s) p) r = true.
Proof.
  revert p. induction s as [| c s IH]; intros p H Hlen; [exact H |].
  destruct p as [| a p]; [simpl in Hlen; lia |].
  simpl in H. apply andb_true_iff in H as [_ H].
  simpl. apply IH; [exact H | simpl in Hlen; lia].
Qed.

Lemma startswith_within (p s r : text) :
  startswith p (s ++ r) = true -> (length p <= length s)%nat ->
  startswith p s = true.
Proof.
  revert s. induction p as [| a p IH]; intros s H Hlen; [reflexivity |].
  destruct s as [| c s]; [simpl in Hlen; lia |].
  simpl in H |- *. apply andb_true_iff in H as [H1 H2].
  rewrite H1. simpl. apply IH; [exact H2 | simpl in Hlen; lia].
Qed.

Lemma contains_at (sep a : text) (i : nat) :
  startswith sep (drop i a) = true -> contains sep a = true.
Proof.
  revert a. induction i as [| i IH]; intros a H.
  - destruct a; simpl in *; rewrite H; reflexivity.
  - destruct a as [| c a].
    + simpl in *. rewrite H. reflexivity.
    + simpl. rewrite (IH a H). apply orb_true_r.
Qed.

(** No occurrence of [sep] begins in a part [a] that does not hold it,
    when what follows is the end of the text or begins with a text [h]
    into which no occurrence can run. *)
Lemma no_match_before (sep a h tail : text) (i : nat) :
  contains sep a = false -> overlaps sep h = false -> (i < length a)%nat ->
  startswith sep (drop i (a ++ h ++ tail)) = false.
Proof.
  intros Ha Hov Hi.
  destruct (startswith sep (drop i (a ++ h ++ tail))) eqn:E; [| reflexivity].
  exfalso. rewrite drop_app_le in E by lia.
  destruct (Nat.le_gt_cases (length sep) (length (drop i a))) as [Hin | Hout].
  - apply startswith_within in E; [| exact Hin].
    rewrite (contains_at sep a i E) in Ha. discriminate Ha.
  - apply startswith_tail in E; [| lia].
    apply startswith_agree in E.
    assert (Hex : overlaps sep h = true).
    { unfold overlaps. apply existsb_exists. exists (length (drop i a)).
      split; [| exact E]. apply in_seq. rewrite length_drop in *. lia. }
    rewrite Hex in Hov. discriminate Hov.
Qed.

Lemma no_match_at_end (sep a : text) (i : nat) :
  contains sep a = false -> startswith sep (drop i a) = false.
Proof.
  intros Ha. destruct (startswith sep (drop i a)) eqn:E; [| reflexivity].
  rewrite (contains_at sep a i E) in Ha. discriminate Ha.
Qed.

Lemma no_match_inside (sep h tail : text) (j : nat) :
  inside sep h = false -> (j < length h)%nat ->
  startswith sep (drop j (h ++ tail)) = false.
Proof.
  intros Hin Hj.
  destruct (startswith sep (drop j (h ++ tail))) eqn:E; [| reflexivity].
  exfalso. rewrite drop_app_le in E by lia.
  apply startswith_agree in E.
  assert (Hex : inside sep h = true).
  { unfold inside. apply existsb_exists. exists j.
    split; [apply in_seq; lia | exact E]. }
  rewrite Hex in Hin. discriminate Hin.
Qed.

(** The first piece of a split runs to the first place where the
    separator matches. *)
Lemma split_hd_app (sep a b : text) :
  (forall i, (i < length a)%nat -> startswith sep (drop i (a ++ b)) = false) ->
  hd [] (split sep (a ++ b)) = a ++ hd [] (split sep b).
Proof.
  induction a as [| c a IH]; intros Ha; [reflexivity |].
  change ((c :: a) ++ b) with (c :: (a ++ b)). rewrite split_cons.
  pose proof (Ha 0%nat ltac:(simpl; lia)) as H0.
  change (drop 0 ((c :: a) ++ b)) with (c :: (a ++ b)) in H0. rewrite H0.
  assert (IH' : hd [] (split sep (a ++ b)) = a ++ hd [] (split sep b)).
  { apply IH. intros i Hi. apply (Ha (S i)). simpl. lia. }
  pose proof (split_not_nil sep (a ++ b)) as Hn.
  destruct (split sep (a ++ b)) as [| q qs]; [congruence |].
  simpl in IH' |- *. rewrite IH'. reflexivity.
Qed.

Lemma split_hd_sep (sep b : text) : sep <> [] -> hd [] (split sep (sep ++ b)) = [].
Proof.
  intros Hsep. destruct sep as [| c sep]; [congruence |].
  change ((c :: sep) ++ b) with (c :: (sep ++ b)). rewrite split_cons.
  change (c :: (sep ++ b)) with ((c :: sep) ++ b). rewrite startswith_self.
  reflexivity.
Qed.

Lemma split_tl_sep (sep b : text) : sep <> [] -> tl (split sep (sep ++ b)) = split sep b.
Proof.
  intros Hsep. destruct sep as [| c sep]; [congruence |].
  change ((c :: sep) ++ b) with (c :: (sep ++ b)). rewrite split_cons.
  change (c :: (sep ++ b)) with ((c :: sep) ++ b). rewrite startswith_self.
  simpl. rewrite drop_app_length. reflexivity.
Qed.

(** What is cut off at a section is what follows the first piece. *)
Lemma cut_section_hd (x section : text) :
  cut_section x section = hd [] (split section x).
Proof.
  unfold cut_section. destruct (contains section x) eqn:E; [reflexivity |].
  rewrite (split_without _ _ E). reflexivity.
Qed.

(** The first piece stops at a header of its own kind, ... *)
Lemma first_piece_stop (sep a tail : text) :
  sep <> [] -> contains sep a = false -> overlaps sep sep = false ->
  hd [] (split sep (a ++ sep ++ tail)) = a.
Proof.
  intros Hsep Ha Hov. rewrite split_hd_app.
  - rewrite (split_hd_sep sep tail Hsep). apply app_nil_r.
  - intros i Hi. apply no_match_before; assumption.
Qed.

(** ... runs over a header of another kind, ... *)
Lemma first_piece_pass (sep a h tail : text) :
  contains sep a = false -> overlaps sep h = false -> inside sep h = false ->
  hd [] (split sep (a ++ h ++ tail)) = a ++ h ++ hd [] (split sep tail).
Proof.
  intros Ha Hov Hin. rewrite split_hd_app.
  - f_equal. apply split_hd_app. intros j Hj. apply no_match_inside; assumption.
  - intros i Hi. apply no_match_before; assumption.
Qed.

(** ... and is the whole text when there is no header. *)
Lemma first_piece_all (sep a : text) :
  contains sep a = false -> hd [] (split sep a) = a.
Proof. intros Ha. rewrite (split_without _ _ Ha). reflexivity. Qed.

(** The pieces after a preamble that does not hold the separator. *)
Lemma split_after_preamble (sep pre tail : text) :
  sep <> [] -> contains sep pre = false -> overlaps sep sep = false ->
  exists more,
    split sep (pre ++ sep ++ tail) = pre :: hd [] (split sep tail) :: more.
Proof.
  intros Hsep Hpre Hov.
  assert (Hno : forall i, (i < length pre)%nat ->
            startswith sep (drop i (pre ++ sep ++ tail)) = false)
    by (intros i Hi; apply no_match_before; assumption).
  clear Hpre. induction pre as [| c pre IH].
  - pose proof (split_hd_sep sep tail Hsep) as Hh.
    pose proof (split_tl_sep sep tail Hsep) as Ht.
    pose proof (split_not_nil sep (sep ++ tail)) as Hn0.
    simpl app. destruct (split sep (sep ++ tail)) as [| q qs]; [congruence |].
    simpl in Hh, Ht. subst q qs.
    pose proof (split_not_nil sep tail) as Hn.
    destruct (split sep tail) as [| r rs]; [congruence |].
    exists rs. reflexivity.
  - change ((c :: pre) ++ sep ++ tail) with (c :: (pre ++ sep ++ tail)).
    rewrite split_cons.
    pose proof (Hno 0%nat ltac:(simpl; lia)) as H0.
    change (drop 0 ((c :: pre) ++ sep ++ tail)) with (c :: (pre ++ sep ++ tail)) in H0.
    rewrite H0.
    destruct IH as [more IH]; [intros i Hi; apply (Hno (S i)); simpl; lia |].
    rewrite IH. exists more. reflexivity.
Qed.

(** X11. The text under the first "CORRECTED_TEXT:" header is what
    [extract_corrected_text] returns, stripped: for an answer made of a
    preamble without that header, the header, a body that is not blank
    and holds none of the headers "CORRECTED_TEXT:", "CHANGES_MADE:" and
    "FORMATTING_APPLIED:", and then either nothing or one of the three
    headers followed by anything at all, the result is the body without
    its surrounding whitespace; the preamble and everything from the next
    header on are cut off. *)
Theorem extract_corrected_text_block (pre body rest : text) :
  contains CORRECTED_TEXT pre = false ->
  contains CORRECTED_TEXT body = false ->
  contains CHANGES_MADE body = false ->
  contains FORMATTING_APPLIED body = false ->
  nonempty (strip body) = true ->
  (rest = [] \/ exists header tail, In header headers /\ rest = header ++ tail) ->
  extract_corrected_text (pre ++ CORRECTED_TEXT ++ body ++ rest) = VStr (strip body).
Proof.
  intros Hpre Hb1 Hb2 Hb3 Hne Hrest.
  unfold extract_corrected_text, marked_text.
  assert (Hcont : contains CORRECTED_TEXT (pre ++ CORRECTED_TEXT ++ body ++ rest) = true).
  { apply contains_app_l, contains_app_r. reflexivity. }
  rewrite Hcont.
  destruct (split_after_preamble CORRECTED_TEXT pre (body ++ rest)
              ltac:(discriminate) Hpre eq_refl) as [more Hsplit].
  rewrite Hsplit. cbn [length nth]. change (1 <? S (S (length more)))%nat with true.
  cbv iota. unfold sections. cbn [fold_left]. rewrite !cut_section_hd.
  assert (Hcut :
    hd [] (split FORMATTING_APPLIED
             (hd [] (split CHANGES_MADE
                       (hd [] (split CORRECTED_TEXT (body ++ rest)))))) = body).
  { destruct Hrest as [-> | (header & tail & Hin & ->)].
    - rewrite app_nil_r.
      rewrite (first_piece_all _ _ Hb1), (first_piece_all _ _ Hb2).
      apply (first_piece_all _ _ Hb3).
    - destruct Hin as [<- | [<- | [<- | []]]].
      + rewrite (first_piece_stop CORRECTED_TEXT body tail ltac:(discriminate) Hb1 eq_refl).
        rewrite (first_piece_all _ _ Hb2). apply (first_piece_all _ _ Hb3).
      + rewrite (first_piece_pass CORRECTED_TEXT body CHANGES_MADE tail Hb1 eq_refl eq_refl).
        rewrite (first_piece_stop CHANGES_MADE body _ ltac:(discriminate) Hb2 eq_refl).
        apply (first_piece_all _ _ Hb3).
      + rewrite (first_piece_pass CORRECTED_TEXT body FORMATTING_APPLIED tail
                   Hb1 eq_refl eq_refl).
        rewrite (first_piece_pass CHANGES_MADE body FORMATTING_APPLIED _
                   Hb2 eq_refl eq_refl).
        apply (first_piece_stop FORMATTING_APPLIED body _ ltac:(discriminate) Hb3 eq_refl). }
  rewrite Hcut, Hne. reflexivity.
Qed.

Lemma extract_corrected_text_block_witness :
  contains CORRECTED_TEXT (lit "Here you are. ") = false /\
  contains CORRECTED_TEXT (lit " namaste duniya ") = false /\
  contains CHANGES_MADE (lit " namaste duniya ") = false /\
  contains FORMATTING_APPLIED (lit " namaste duniya ") = false /\
  nonempty (strip (lit " namaste duniya ")) = true /\
  extract_corrected_text
    (lit "Here you are. " ++ CORRECTED_TEXT ++ lit " namaste duniya "
       ++ FORMATTING_APPLIED ++ lit " none CHANGES_MADE: one matra") =
    VStr (lit "namaste duniya").
Proof.
  repeat (split; [reflexivity |]).
  apply (extract_corrected_text_block (lit "Here you are. ") (lit " namaste duniya ")
           (FORMATTING_APPLIED ++ lit " none CHANGES_MADE: one matra"));
    try reflexivity.
  right. exists FORMATTING_APPLIED, (lit " none CHANGES_MADE: one matra").
  split; [right; right; left; reflexivity | reflexivity].
Defined.

End ProofreadingFacts.

(** ** The size of the chunks *)

Section ChunkerLimit.




End ChunkerLimit.

(** ** The processors behind the dispatcher *)

Section Pipelines.

Context {W : Type}.
Variable time_time : W -> float * W.
Variable time_sleep : float -> W -> W.
Variable self : DocumentProcessor.
Variable chunks : list text.
Variable operation_name : text.

Section Answering.

Variable process_func : @processor W.
Variable P : text -> value -> Prop.
Hypothesis process_func_answers :
  forall u w, exists r, fst (process_func u w) = Returns r /\ P u r.

(** A processor that always answers is called once per unit, and what it
    answered decides the entry. *)
Lemma dispatch_answers (sched : list sched_event)
    (w : W) (last : float) (tracker : gmap text snapshot) :
  0 < max_workers self ->
  schedule_ok (length chunks) sched = true ->
  exists results s',
    process_chunks_parallel time_time time_sleep self chunks process_func
      operation_name sched (State w last tracker []) = (Returns results, s') /\
    length results = length chunks /\
    forall i u, chunks !! i = Some u ->
      exists r, calls_of i (trace s') = [(u, Returns r)] /\
                results !! i = Some (or_chunk r u) /\ P u r.
Proof.
  intros Hw Hok.
  rewrite (dispatch_returns time_time time_sleep self chunks process_func
             operation_name sched _ Hw). cbv zeta.
  destruct (dispatch_settles time_time time_sleep self chunks process_func
              operation_name sched (State w last tracker []) eq_refl Hok) as [Hlen Hall].
  cbv zeta in Hlen, Hall.
  eexists _, _. split; [reflexivity |]. split; [exact Hlen |].
  intros i u Hu. destruct (Hall i u Hu) as (v & Hv & Hd).
  pose proof (fold_recorded time_time time_sleep self chunks process_func operation_name
                (fun _ u' o => exists r, o = Returns r /\ P u' r)
                (fun _ u' w' _ => process_func_answers u' w') sched
                (Job (replicate (length chunks) Pending)
                   (replicate (length chunks) VNone) O (State w last tracker []))
                (length_replicate _ _) ltac:(constructor)) as Hrec.
  destruct (slot_done_calls i u _ v Hd)
    as [(o & Hc & _ & ->) | (e & o' & pre & evs & post & Hc & _)].
  - destruct (recorded_calls_of _ i u o _ Hrec) as (r & -> & Hr);
      [rewrite Hc; left; reflexivity |].
    exists r. split; [exact Hc |]. split; [exact Hv | exact Hr].
  - destruct (recorded_calls_of _ i u (Raises e) _ Hrec) as (r & Hr & _);
      [rewrite Hc; left; reflexivity | discriminate Hr].
Qed.

End Answering.

Lemma or_chunk_clean (u : text) (r : value) :
  r = VNone \/ r = VStr u \/ (exists x, r = VStr x /\ strip x = x) ->
  exists x, or_chunk r u = VStr x /\ (x = u \/ clean_text x).
Proof.
  unfold or_chunk, clean_text.
  intros [-> | [-> | (x & -> & Hx)]]; simpl.
  - exists u. split; [reflexivity | left; reflexivity].
  - exists u. split; [destruct (nonempty u); reflexivity | left; reflexivity].
  - destruct (nonempty x) eqn:Hne.
    + exists x. split; [reflexivity | right; split; assumption].
    + exists u. split; [reflexivity | left; reflexivity].
Qed.

Variable generate_content : text -> W -> outcome text * W.

Lemma proofread_chunk_answers (language u : text) (w : W) :
  exists r, fst (proofread_chunk generate_content language u w) = Returns r /\
            (r = VNone \/ r = VStr u \/ exists x, r = VStr x /\ strip x = x).
Proof.
  unfold proofread_chunk.
  destruct (generate_content _ w) as [[resp | e] w']; simpl.
  - eexists. split; [reflexivity |].
    pose proof (extract_spec resp) as H.
    destruct (extract_corrected_text resp) as [| x]; [left; reflexivity |].
    right. right. exists x. split; [reflexivity | apply H].
  - eexists. split; [reflexivity |]. right. left. reflexivity.
Qed.

Lemma translate_chunk_answers (source_lang target_lang u : text) (w : W) :
  exists r, fst (translate_chunk generate_content source_lang target_lang u w) = Returns r /\
            (r = VNone \/ r = VStr u \/ exists x, r = VStr x /\ strip x = x).
Proof.
  unfold translate_chunk.
  destruct (generate_content _ w) as [[resp | e] w']; simpl.
  - eexists. split; [reflexivity |]. right. right.
    exists (strip resp). split; [reflexivity | apply strip_idem].
  - eexists. split; [reflexivity |]. right. left. reflexivity.
Qed.

(** X15. A proofreading job. [proofread_chunk] turns every failure of
    the model into the original chunk, so behind the dispatcher it is
    called exactly once per chunk and never retried, whatever the model
    does and whatever the interleaving; every entry of the result is a
    string, the original chunk or a non-empty text without surrounding
    whitespace, never [None] and never empty unless the chunk is. *)
Theorem proofreading_job (language : text) (sched : list sched_event)
    (w : W) (last : float) (tracker : gmap text snapshot) :
  0 < max_workers self ->
  schedule_ok (length chunks) sched = true ->
  exists results s',
    process_chunks_parallel time_time time_sleep self chunks
      (proofread_chunk generate_content language) operation_name sched
      (State w last tracker []) = (Returns results, s') /\
    length results = length chunks /\
    forall i u, chunks !! i = Some u ->
      (exists r, calls_of i (trace s') = [(u, Returns r)]) /\
      exists x, results !! i = Some (VStr x) /\
                (x = u \/ (nonempty x = true /\ strip x = x)).
Proof.
  intros Hw Hok.
  destruct (dispatch_answers (proofread_chunk generate_content language) _
              (proofread_chunk_answers language) sched w last tracker Hw Hok)
    as (results & s' & Hrun & Hlen & Hall).
  exists results, s'. split; [exact Hrun |]. split; [exact Hlen |].
  intros i u Hu. destruct (Hall i u Hu) as (r & Hc & Hr & HP).
  split; [exists r; exact Hc |].
  destruct (or_chunk_clean u r HP) as (x & Hx & Hcl).
  exists x. rewrite Hr, Hx. split; [reflexivity | exact Hcl].
Qed.

(** X16. A translation job. [translate_chunk] also swallows every
    failure, so the dispatcher's retry for rate-limit errors is never
    taken: one call per chunk, and every entry is the original chunk or
    a non-empty stripped text; a blank translation is replaced by the
    original chunk. *)
Theorem translation_job (source_lang target_lang : text) (sched : list sched_event)
    (w : W) (last : float) (tracker : gmap text snapshot) :
  0 < max_workers self ->
  schedule_ok (length chunks) sched = true ->
  exists results s',
    process_chunks_parallel time_time time_sleep self chunks
      (translate_chunk generate_content source_lang target_lang) operation_name sched
      (State w last tracker []) = (Returns results, s') /\
    length results = length chunks /\
    forall i u, chunks !! i = Some u ->
      (exists r, calls_of i (trace s') = [(u, Returns r)]) /\
      exists x, results !! i = Some (VStr x) /\
                (x = u \/ (nonempty x = true /\ strip x = x)).
Proof.
  intros Hw Hok.
  destruct (dispatch_answers (translate_chunk generate_content source_lang target_lang) _
              (translate_chunk_answers source_lang target_lang) sched w last tracker Hw Hok)
    as (results & s' & Hrun & Hlen & Hall).
  exists results, s'. split; [exact Hrun |]. split; [exact Hlen |].
  intros i u Hu. destruct (Hall i u Hu) as (r & Hc & Hr & HP).
  split; [exists r; exact Hc |].
  destruct (or_chunk_clean u r HP) as (x & Hx & Hcl).
  exists x. rewrite Hr, Hx. split; [reflexivity | exact Hcl].
Qed.

Lemma or_chunk_self (u : text) : or_chunk (VStr u) u = VStr u.
Proof. unfold or_chunk. destruct (truthy (VStr u)); reflexivity. Qed.

Lemma results_unchanged (results : list value) :
  length results = length chunks ->
  (forall i u, chunks !! i = Some u -> results !! i = Some (VStr u)) ->
  results = map VStr chunks.
Proof.
  intros Hlen Hall. apply list_eq. intros i. rewrite list_lookup_fmap.
  destruct (chunks !! i) as [u |] eqn:Hu; simpl.
  - apply Hall, Hu.
  - apply lookup_ge_None. apply lookup_ge_None in Hu. lia.
Qed.

(** X24. When every request to the model fails, a proofreading job and
    a translation job still return normally, and what they return is the
    input, chunk by chunk: each chunk was tried once, and the failure,
    a quota error included, was turned into the chunk itself before the
    dispatcher could see it and retry. *)
Theorem jobs_when_model_fails (language source_lang target_lang : text)
    (sched : list sched_event) (w : W) (last : float)
    (tracker : gmap text snapshot) :
  0 < max_workers self ->
  schedule_ok (length chunks) sched = true ->
  (forall prompt w', exists e, fst (generate_content prompt w') = Raises e) ->
  (exists s',
     process_chunks_parallel time_time time_sleep self chunks
       (proofread_chunk generate_content language) operation_name sched
       (State w last tracker []) = (Returns (map VStr chunks), s') /\
     forall i u, chunks !! i = Some u ->
       calls_of i (trace s') = [(u, Returns (VStr u))]) /\
  (exists s',
     process_chunks_parallel time_time time_sleep self chunks
       (translate_chunk generate_content source_lang target_lang) operation_name sched
       (State w last tracker []) = (Returns (map VStr chunks), s') /\
     forall i u, chunks !! i = Some u ->
       calls_of i (trace s') = [(u, Returns (VStr u))]).
Proof.
  intros Hw Hok Hfail. split.
  - destruct (dispatch_answers (proofread_chunk generate_content language)
                (fun u r => r = VStr u)) with (sched := sched) (w := w) (last := last)
                (tracker := tracker) as (results & s' & Hrun & Hlen & Hall);
      [| exact Hw | exact Hok |].
    + intros u w0. unfold proofread_chunk.
      destruct (Hfail (proofread_prompt u language) w0) as [e He].
      destruct (generate_content _ w0) as [o w1]. simpl in He. subst o.
      eexists. split; reflexivity.
    + exists s'. rewrite Hrun.
      assert (Hres : results = map VStr chunks).
      { apply results_unchanged; [exact Hlen |]. intros i u Hu.
        destruct (Hall i u Hu) as (r & _ & Hr & ->). rewrite Hr, or_chunk_self.
        reflexivity. }
      rewrite Hres. split; [reflexivity |].
      intros i u Hu. destruct (Hall i u Hu) as (r & Hc & _ & ->). exact Hc.
  - destruct (dispatch_answers (translate_chunk generate_content source_lang target_lang)
                (fun u r => r = VStr u)) with (sched := sched) (w := w) (last := last)
                (tracker := tracker) as (results & s' & Hrun & Hlen & Hall);
      [| exact Hw | exact Hok |].
    + intros u w0. unfold translate_chunk.
      destruct (Hfail (translation_prompt target_lang (clean_sanskrit_formatting u)) w0)
        as [e He].
      destruct (generate_content _ w0) as [o w1]. simpl in He. subst o.
      eexists. split; reflexivity.
    + exists s'. rewrite Hrun.
      assert (Hres : results = map VStr chunks).
      { apply results_unchanged; [exact Hlen |]. intros i u Hu.
        destruct (Hall i u Hu) as (r & _ & Hr & ->). rewrite Hr, or_chunk_self.
        reflexivity. }
      rewrite Hres. split; [reflexivity |].
      intros i u Hu. destruct (Hall i u Hu) as (r & Hc & _ & ->). exact Hc.
Qed.

End Pipelines.

(** ** Translation *)

Section TranslationFacts.

Lemma ci_eq_refl (p : char) : ci_eq p p = true.
Proof. unfold ci_eq. rewrite N.eqb_refl. reflexivity. Qed.

(** A symbol of a pattern matches itself only. *)
Lemma ci_eq_symbol (m c : char) : symbol m -> ci_eq m c = true -> c = m.
Proof.
  unfold symbol, ci_eq, lower_char. intros Hm H.
  destruct (N.eqb_spec m c) as [-> | _]; [reflexivity |].
  destruct (N.eqb_spec m 105) as [-> | _]; [lia |].
  destruct (N.eqb_spec m 107) as [-> | _]; [lia |].
  destruct (N.eqb_spec m 115) as [-> | _]; [lia |].
  simpl in H. rewrite !orb_false_r in H.
  destruct (N.leb_spec 65 c), (N.leb_spec c 90); simpl in H;
    apply N.eqb_eq in H; lia.
Qed.

(** A marker character is matched by itself only. *)
Lemma ci_eq_marker (p c : char) : marker c = true -> ci_eq p c = true -> p = c.
Proof.
  unfold marker. intros Hm H.
  assert (Hc : (c = 42 \/ c = 47 \/ c = 60 \/ c = 91)%N).
  { destruct (N.eqb_spec c 42); [tauto |]. destruct (N.eqb_spec c 47); [tauto |].
    destruct (N.eqb_spec c 60); [tauto |]. destruct (N.eqb_spec c 91); [tauto |].
    discriminate Hm. }
  assert (Hl : lower_char c = c)
    by (destruct Hc as [-> | [-> | [-> | ->]]]; reflexivity).
  assert (H1 : ((c =? 304) || (c =? 305))%N = false)
    by (destruct Hc as [-> | [-> | [-> | ->]]]; reflexivity).
  assert (H2 : (c =? 8490)%N = false)
    by (destruct Hc as [-> | [-> | [-> | ->]]]; reflexivity).
  assert (H3 : (c =? 383)%N = false)
    by (destruct Hc as [-> | [-> | [-> | ->]]]; reflexivity).
  unfold ci_eq in H. rewrite Hl, H1, H2, H3, !andb_false_r, !orb_false_r in H.
  apply orb_true_iff in H as [H | H]; apply N.eqb_eq in H; congruence.
Qed.

Lemma marker_symbol (m : char) : marker m = true -> symbol m.
Proof.
  unfold marker, symbol. intros H.
  destruct (N.eqb_spec m 42); [lia |]. destruct (N.eqb_spec m 47); [lia |].
  destruct (N.eqb_spec m 60); [lia |]. destruct (N.eqb_spec m 91); [lia |].
  discriminate H.
Qed.

Lemma plain_without (m : char) (s : text) :
  marker m = true -> plain s = true -> ~ In m s.
Proof.
  unfold plain. intros Hm Hs Hin.
  rewrite forallb_forall in Hs. specialize (Hs m Hin).
  rewrite Hm in Hs. discriminate Hs.
Qed.

Lemma plain_app (a b : text) : plain (a ++ b) = plain a && plain b.
Proof. unfold plain. apply forallb_app. Qed.

Lemma In_lookup (m : char) (s : text) : In m s <-> exists i, s !! i = Some m.
Proof. rewrite <- list_elem_of_In. apply list_elem_of_lookup. Qed.

Lemma In_drop (m : char) (n : nat) (s : text) : In m (drop n s) -> In m s.
Proof.
  rewrite !In_lookup. intros [i Hi]. rewrite lookup_drop in Hi. eauto.
Qed.

(** What a match of a literal says about every position. *)
Lemma ci_startswith_lookup (p s : text) (k : nat) (pc : char) :
  ci_startswith p s = true -> p !! k = Some pc ->
  exists c, s !! k = Some c /\ ci_eq pc c = true.
Proof.
  revert s k. induction p as [| a p IH]; intros s k H Hk; [discriminate Hk |].
  destruct s as [| c s]; [discriminate H |].
  simpl in H. apply andb_true_iff in H as [Ha Hp].
  destruct k as [| k]; simpl in Hk.
  - injection Hk as <-. exists c. split; [reflexivity | exact Ha].
  - apply (IH s k Hp Hk).
Qed.

Lemma ci_startswith_app (p s r : text) :
  ci_startswith p s = true -> ci_startswith p (s ++ r) = true.
Proof.
  revert s. induction p as [| a p IH]; intros s H; [reflexivity |].
  destruct s as [| c s]; [discriminate H |].
  simpl in H |- *. apply andb_true_iff in H as [Ha Hp].
  rewrite Ha. simpl. apply IH, Hp.
Qed.

Lemma ci_startswith_length (p s : text) :
  ci_startswith p s = true -> (length p <= length s)%nat.
Proof.
  revert s. induction p as [| a p IH]; intros s H; [simpl; lia |].
  destruct s as [| c s]; [discriminate H |].
  simpl in H |- *. apply andb_true_iff in H as [_ Hp].
  apply IH in Hp. lia.
Qed.

Lemma ci_startswith_self (p r : text) : ci_startswith p (p ++ r) = true.
Proof.
  induction p as [| a p IH]; [reflexivity |].
  simpl. rewrite ci_eq_refl. exact IH.
Qed.

Lemma written_as_self (p : text) : written_as p p.
Proof.
  split; [reflexivity |]. rewrite <- (app_nil_r p) at 2. apply ci_startswith_self.
Qed.

(** A marker character in a tag written in any case is in the literal. *)
Lemma written_as_marker (p s : text) (m : char) :
  written_as p s -> marker m = true -> In m s -> In m p.
Proof.
  intros [Hlen Hp] Hm Hin. apply In_lookup in Hin as [j Hj].
  assert (Hlt : (j < length p)%nat) by (apply lookup_lt_Some in Hj; lia).
  destruct (lookup_lt_is_Some_2 p j Hlt) as [pc Hpc].
  destruct (ci_startswith_lookup p s j pc Hp Hpc) as (c & Hc & Heq).
  rewrite Hj in Hc. injection Hc as <-.
  apply (ci_eq_marker pc m Hm) in Heq. subst pc.
  apply In_lookup. eauto.
Qed.

(** A literal with the symbol [m] at position [k] matches nowhere in a
    text while position [k] of the match stays inside a part without
    [m]. *)
Lemma no_match_without (p a s : text) (k : nat) (m : char) (i : nat) :
  p !! k = Some m -> symbol m -> ~ In m a -> (i + k < length a)%nat ->
  ci_startswith p (drop i (a ++ s)) = false.
Proof.
  intros Hk Hm Ha Hi.
  destruct (ci_startswith p (drop i (a ++ s))) eqn:E; [| reflexivity].
  destruct (ci_startswith_lookup _ _ k m E Hk) as (c & Hc & Heq).
  apply (ci_eq_symbol m c Hm) in Heq. subst c.
  rewrite lookup_drop, lookup_app_l in Hc by exact Hi.
  exfalso. apply Ha, In_lookup. eauto.
Qed.

Lemma find_close_eq (close s : text) :
  find_close close s =
    if ci_startswith close s then Some ([], drop (length close) s)
    else
      match s with
      | [] => None
      | c :: s' =>
          match find_close close s' with
          | Some (content, rest) => Some (c :: content, rest)
          | None => None
          end
      end.
Proof. destruct s; reflexivity. Qed.

Lemma find_close_length (close s content rest : text) :
  find_close close s = Some (content, rest) ->
  (length content + length close <= length s)%nat.
Proof.
  revert content rest. induction s as [| c s IH]; intros content rest;
    rewrite find_close_eq.
  - destruct (ci_startswith close []) eqn:E; [| discriminate].
    intros H. injection H as <- _. apply ci_startswith_length in E. simpl in *. lia.
  - destruct (ci_startswith close (c :: s)) eqn:E.
    + intros H. injection H as <- _. apply ci_startswith_length in E. simpl in *. lia.
    + destruct (find_close close s) as [[content' rest'] |] eqn:F; [| discriminate].
      intros H. injection H as <- _. specialize (IH content' rest' eq_refl). simpl. lia.
Qed.

(** The closing tag is found only in a text that has its symbols. *)
Lemma find_close_symbol (close s content rest : text) (k : nat) (m : char) :
  close !! k = Some m -> symbol m ->
  find_close close s = Some (content, rest) -> In m s.
Proof.
  intros Hk Hm. revert content rest.
  induction s as [| c s IH]; intros content rest; rewrite find_close_eq.
  - destruct (ci_startswith close []) eqn:E; [| discriminate].
    destruct (ci_startswith_lookup _ _ k m E Hk) as (c & Hc & _). discriminate Hc.
  - destruct (ci_startswith close (c :: s)) eqn:E.
    + intros _. destruct (ci_startswith_lookup _ _ k m E Hk) as (c' & Hc & Heq).
      apply (ci_eq_symbol m c' Hm) in Heq. subst c'. apply In_lookup. eauto.
    + destruct (find_close close s) as [[content' rest'] |] eqn:F; [| discriminate].
      intros _. right. apply (IH content' rest' eq_refl).
Qed.

(** The shortest content: the first place where the closing tag
    matches. *)
Lemma find_close_first (close x c' after : text) :
  (forall i, (i < length x)%nat ->
     ci_startswith close (drop i (x ++ c' ++ after)) = false) ->
  written_as close c' ->
  find_close close (x ++ c' ++ after) = Some (x, after).
Proof.
  intros Hx [Hlen Hc]. induction x as [| h x IH]; rewrite find_close_eq.
  - simpl. rewrite (ci_startswith_app _ _ _ Hc).
    rewrite <- Hlen, drop_app_length. reflexivity.
  - pose proof (Hx 0%nat ltac:(simpl; lia)) as H0.
    change (drop 0 ((h :: x) ++ c' ++ after)) with ((h :: x) ++ c' ++ after) in H0.
    rewrite H0. simpl.
    rewrite IH; [reflexivity |].
    intros i Hi. apply (Hx (S i)). simpl. lia.
Qed.

Lemma sub_go_cons (open close : text) (h : char) (s : text) :
  sub_go open close O (h :: s) =
    if ci_startswith open (h :: s)
    then
      match find_close close (drop (length open) (h :: s)) with
      | Some (content, _) =>
          LT :: content ++ GT ::
            sub_go open close (Nat.pred (length open + length content + length close)) s
      | None => h :: sub_go open close O s
      end
    else h :: sub_go open close O s.
Proof. reflexivity. Qed.

Lemma sub_go_skip (open close a b : text) :
  sub_go open close (length a) (a ++ b) = sub_go open close O b.
Proof. induction a as [| h a IH]; [destruct b; reflexivity | exact IH]. Qed.

(** Where the opening tag does not match, the text passes through. *)
Lemma sub_go_passes (open close a s : text) :
  (forall i, (i < length a)%nat -> ci_startswith open (drop i (a ++ s)) = false) ->
  sub_go open close O (a ++ s) = a ++ sub_go open close O s.
Proof.
  induction a as [| h a IH]; intros Ha; [reflexivity |].
  pose proof (Ha 0%nat ltac:(simpl; lia)) as H0.
  change (drop 0 ((h :: a) ++ s)) with (h :: (a ++ s)) in H0.
  change ((h :: a) ++ s) with (h :: (a ++ s)). rewrite sub_go_cons, H0.
  rewrite IH; [reflexivity |].
  intros i Hi. apply (Ha (S i)). simpl. lia.
Qed.

(** No opening character, no substitution. *)
Lemma sub_go_without_open (open close s : text) (m : char) :
  open !! 0%nat = Some m -> symbol m -> ~ In m s ->
  sub_go open close O s = s.
Proof.
  intros Ho Hm Hs.
  rewrite <- (app_nil_r s) at 1. rewrite sub_go_passes; [apply app_nil_r |].
  intros i Hi. apply (no_match_without open s [] 0 m i Ho Hm Hs). lia.
Qed.

(** No closing symbol, no substitution. *)
Lemma sub_go_without_close (open close s : text) (k : nat) (m : char) :
  close !! k = Some m -> symbol m -> ~ In m s ->
  sub_go open close O s = s.
Proof.
  intros Hk Hm. induction s as [| h s IH]; intros Hs; [reflexivity |].
  rewrite sub_go_cons.
  assert (Hs' : ~ In m s) by (intros H; apply Hs; right; exact H).
  destruct (ci_startswith open (h :: s)); [| rewrite (IH Hs'); reflexivity].
  destruct (find_close close (drop (length open) (h :: s))) as [[content rest] |] eqn:F;
    [| rewrite (IH Hs'); reflexivity].
  exfalso. apply Hs.
  apply (In_drop m (length open)), (find_close_symbol close _ content rest k m Hk Hm F).
Qed.

(** A substitution puts two characters where two tags were. *)
Lemma sub_go_length (open close : text) (s : text) (skip : nat) :
  (2 <= length open + length close)%nat ->
  (length (sub_go open close skip s) <= length s - skip)%nat.
Proof.
  intros H2. revert skip. induction s as [| h s IH]; intros skip; [simpl; lia |].
  destruct skip as [| k].
  - rewrite sub_go_cons.
    destruct (ci_startswith open (h :: s)) eqn:E;
      [| specialize (IH O); simpl in *; lia].
    destruct (find_close close (drop (length open) (h :: s))) as [[content rest] |] eqn:F;
      [| specialize (IH O); simpl in *; lia].
    apply find_close_length in F. rewrite length_drop in F.
    apply ci_startswith_length in E.
    specialize (IH (Nat.pred (length open + length content + length close))).
    simpl in *. rewrite length_app. simpl. lia.
  - specialize (IH k). simpl in *. lia.
Qed.

(** One marker in a text that has no other place for a match. *)
Lemma sub_go_one (open close o' c' before x after : text) :
  written_as open o' -> written_as close c' -> open <> [] ->
  (forall i, (i < length before)%nat ->
     ci_startswith open (drop i (before ++ o' ++ x ++ c' ++ after)) = false) ->
  (forall i, (i < length x)%nat ->
     ci_startswith close (drop i (x ++ c' ++ after)) = false) ->
  sub_go open close O after = after ->
  sub_go open close O (before ++ o' ++ x ++ c' ++ after) =
    before ++ LT :: x ++ GT :: after.
Proof.
  intros [Hlo Ho] Hc Hne Hbefore Hx Hafter.
  rewrite (sub_go_passes _ _ _ _ Hbefore). f_equal.
  destruct o' as [| h o'']; [destruct open; [congruence | discriminate Hlo] |].
  change ((h :: o'') ++ x ++ c' ++ after) with (h :: (o'' ++ x ++ c' ++ after)).
  rewrite sub_go_cons.
  change (h :: (o'' ++ x ++ c' ++ after)) with ((h :: o'') ++ x ++ c' ++ after).
  rewrite (ci_startswith_app _ _ _ Ho).
  rewrite <- Hlo, drop_app_length.
  rewrite (find_close_first close x c' after Hx Hc).
  destruct Hc as [Hlc _].
  replace (Nat.pred (length (h :: o'') + length x + length close))
    with (length (o'' ++ x ++ c')) by (rewrite !length_app; simpl; lia).
  replace (o'' ++ x ++ c' ++ after) with ((o'' ++ x ++ c') ++ after)
    by (rewrite <- !app_assoc; reflexivity).
  rewrite sub_go_skip, Hafter. reflexivity.
Qed.

(** The closing tag cannot match before its place when the content has
    no slash. *)
Lemma no_close_before (close x c' after : text) (k : nat) :
  close !! k = Some 47%N ->
  (forall j, (j < k)%nat -> close !! j <> Some 47%N) ->
  written_as close c' -> ~ In 47%N x ->
  forall i, (i < length x)%nat ->
    ci_startswith close (drop i (x ++ c' ++ after)) = false.
Proof.
  intros Hk Hfirst [Hlen Hc] Hx i Hi.
  assert (Hsym : symbol 47%N) by (left; reflexivity).
  destruct (ci_startswith close (drop i (x ++ c' ++ after))) eqn:E; [| reflexivity].
  exfalso.
  destruct (ci_startswith_lookup _ _ k _ E Hk) as (c & Hlook & Heq).
  apply (ci_eq_symbol _ c Hsym) in Heq. subst c.
  rewrite lookup_drop in Hlook.
  destruct (Nat.lt_ge_cases (i + k) (length x)) as [Hin | Hout].
  - rewrite lookup_app_l in Hlook by exact Hin.
    apply Hx, In_lookup. eauto.
  - rewrite lookup_app_r in Hlook by exact Hout.
    assert (Hklt : (k < length close)%nat) by (apply lookup_lt_Some in Hk; exact Hk).
    set (j := (i + k - length x)%nat) in *.
    assert (Hj : (j < k)%nat) by (unfold j; lia).
    rewrite lookup_app_l in Hlook by lia.
    destruct (lookup_lt_is_Some_2 close j ltac:(lia)) as [pc Hpc].
    destruct (ci_startswith_lookup _ _ j pc Hc Hpc) as (c & Hc' & Heq).
    rewrite Hlook in Hc'. injection Hc' as <-.
    apply (ci_eq_marker pc 47%N eq_refl) in Heq. subst pc.
    apply (Hfirst j Hj Hpc).
Qed.

Lemma clean_steps (t : text) :
  clean_sanskrit_formatting t =
    sub_go (lit "<sanskrit>") (lit "</sanskrit>") O
      (sub_go (lit "[sanskrit]") (lit "[/sanskrit]") O
         (sub_go (lit "**sanskrit**") (lit "**/sanskrit**") O
            (sub_go (lit "*sanskrit*") (lit "*/sanskrit*") O t))).
Proof. reflexivity. Qed.

Lemma symbol_slash : symbol 47%N.
Proof. left. reflexivity. Qed.

Lemma symbol_star : symbol 42%N.
Proof. left. reflexivity. Qed.

Lemma symbol_bracket : symbol 91%N.
Proof. left. reflexivity. Qed.

Lemma symbol_angle : symbol 60%N.
Proof. left. reflexivity. Qed.

(** Without a slash no pattern can match. *)
Lemma clean_without_slash (t : text) :
  ~ In 47%N t -> clean_sanskrit_formatting t = t.
Proof.
  intros H. rewrite clean_steps.
  rewrite (sub_go_without_close _ (lit "*/sanskrit*") t 1 47%N eq_refl symbol_slash H).
  rewrite (sub_go_without_close _ (lit "**/sanskrit**") t 2 47%N eq_refl symbol_slash H).
  rewrite (sub_go_without_close _ (lit "[/sanskrit]") t 1 47%N eq_refl symbol_slash H).
  apply (sub_go_without_close _ (lit "</sanskrit>") t 1 47%N eq_refl symbol_slash H).
Qed.

(** X17. A text without a slash, or without any of the characters that
    open a marker (asterisk, square bracket, angle bracket), comes back
    from [clean_sanskrit_formatting] unchanged. *)
Theorem clean_sanskrit_formatting_unmarked (t : text) :
  ~ In 47%N t \/ (~ In 42%N t /\ ~ In 91%N t /\ ~ In 60%N t) ->
  clean_sanskrit_formatting t = t.
Proof.
  intros [H | (Hs & Hb & Ha)]; [apply clean_without_slash, H |].
  rewrite clean_steps.
  rewrite (sub_go_without_open (lit "*sanskrit*") _ t 42%N eq_refl symbol_star Hs).
  rewrite (sub_go_without_open (lit "**sanskrit**") _ t 42%N eq_refl symbol_star Hs).
  rewrite (sub_go_without_open (lit "[sanskrit]") _ t 91%N eq_refl symbol_bracket Hb).
  apply (sub_go_without_open (lit "<sanskrit>") _ t 60%N eq_refl symbol_angle Ha).
Qed.

Lemma clean_sanskrit_formatting_unmarked_witness :
  (~ In 47%N (lit "a < b, [1] * 2") \/
   (~ In 42%N (lit "a < b, [1] * 2") /\ ~ In 91%N (lit "a < b, [1] * 2") /\
    ~ In 60%N (lit "a < b, [1] * 2"))) /\
  clean_sanskrit_formatting (lit "a < b, [1] * 2") = lit "a < b, [1] * 2".
Proof.
  assert (H : ~ In 47%N (lit "a < b, [1] * 2")).
  { intros H. vm_compute in H.
    repeat (destruct H as [H | H]; [discriminate H |]). exact H. }
  split; [left; exact H |].
  apply clean_sanskrit_formatting_unmarked. left. exact H.
Defined.

(** X18. [clean_sanskrit_formatting] never makes a text longer. *)
Theorem clean_sanskrit_formatting_length (t : text) :
  len (clean_sanskrit_formatting t) <= len t.
Proof.
  rewrite clean_steps. unfold len.
  pose proof (sub_go_length (lit "*sanskrit*") (lit "*/sanskrit*") t O
                ltac:(vm_compute; lia)) as H1.
  pose proof (sub_go_length (lit "**sanskrit**") (lit "**/sanskrit**")
                (sub_go (lit "*sanskrit*") (lit "*/sanskrit*") O t) O
                ltac:(vm_compute; lia)) as H2.
  pose proof (sub_go_length (lit "[sanskrit]") (lit "[/sanskrit]")
                (sub_go (lit "**sanskrit**") (lit "**/sanskrit**") O
                   (sub_go (lit "*sanskrit*") (lit "*/sanskrit*") O t)) O
                ltac:(vm_compute; lia)) as H3.
  pose proof (sub_go_length (lit "<sanskrit>") (lit "</sanskrit>")
                (sub_go (lit "[sanskrit]") (lit "[/sanskrit]") O
                   (sub_go (lit "**sanskrit**") (lit "**/sanskrit**") O
                      (sub_go (lit "*sanskrit*") (lit "*/sanskrit*") O t))) O
                ltac:(vm_compute; lia)) as H4.
  lia.
Qed.

Lemma marked_without (m : char) (open close o' c' before x after : text) :
  marker m = true ->
  plain before = true -> plain x = true -> plain after = true ->
  written_as open o' -> written_as close c' ->
  ~ In m open -> ~ In m close ->
  ~ In m (before ++ o' ++ x ++ c' ++ after).
Proof.
  intros Hm Hb Hx Ha Ho Hc Hno Hnc Hin.
  repeat (apply in_app_or in Hin as [Hin | Hin]).
  - apply (plain_without m before Hm Hb Hin).
  - apply Hno, (written_as_marker open o' m Ho Hm Hin).
  - apply (plain_without m x Hm Hx Hin).
  - apply Hnc, (written_as_marker close c' m Hc Hm Hin).
  - apply (plain_without m after Hm Ha Hin).
Qed.

Lemma cleaned_without_slash (before x after : text) :
  plain before = true -> plain x = true -> plain after = true ->
  ~ In 47%N (before ++ LT :: x ++ GT :: after).
Proof.
  intros Hb Hx Ha Hin.
  apply in_app_or in Hin as [Hin | [Hin | Hin]];
    [apply (plain_without 47%N before eq_refl Hb Hin) | discriminate Hin |].
  apply in_app_or in Hin as [Hin | [Hin | Hin]];
    [apply (plain_without 47%N x eq_refl Hx Hin) | discriminate Hin |].
  apply (plain_without 47%N after eq_refl Ha Hin).
Qed.

Ltac not_in_literal :=
  let H := fresh in
  intros H; vm_compute in H;
  repeat (destruct H as [H | H]; [discriminate H |]); exact H.

(** One marker with a single delimiter, for each of the three forms. *)
Lemma sub_go_single (open close o' c' before x after : text) (m : char) :
  open !! 0%nat = Some m -> marker m = true ->
  close !! 1%nat = Some 47%N -> close !! 0%nat <> Some 47%N ->
  written_as open o' -> written_as close c' ->
  plain before = true -> plain x = true -> plain after = true ->
  sub_go open close O (before ++ o' ++ x ++ c' ++ after) =
    before ++ LT :: x ++ GT :: after.
Proof.
  intros Ho Hm Hk H0 Hwo Hwc Hb Hx Ha.
  apply sub_go_one; try assumption.
  - destruct open; [discriminate Ho | discriminate].
  - intros i Hi.
    apply (no_match_without open before _ 0 m i Ho (marker_symbol m Hm)
             (plain_without m before Hm Hb)). lia.
  - apply (no_close_before close x c' after 1 Hk); [| exact Hwc |].
    + intros j Hj. destruct j as [| j]; [exact H0 | lia].
    + apply (plain_without 47%N x eq_refl Hx).
  - apply (sub_go_without_close open close after 1 47%N Hk symbol_slash).
    apply (plain_without 47%N after eq_refl Ha).
Qed.

(** X19. Each of the three markers with a single delimiter,
    [*sanskrit*x*/sanskrit*], [[sanskrit]x[/sanskrit]] and
    [<sanskrit>x</sanskrit>], written in any mix of upper and lower case,
    is replaced by [<x>] and the text around it is kept, when the
    content and the text around it have none of the characters
    [* / < []. *)
Theorem clean_sanskrit_formatting_tagged (tags : text * text)
    (o' c' before x after : text) :
  In tags single_tags ->
  written_as (fst tags) o' -> written_as (snd tags) c' ->
  plain before = true -> plain x = true -> plain after = true ->
  clean_sanskrit_formatting (before ++ o' ++ x ++ c' ++ after) =
    before ++ LT :: x ++ GT :: after.
Proof.
  intros Htags Ho Hc Hb Hx Ha.
  pose proof (cleaned_without_slash before x after Hb Hx Ha) as Hclean.
  rewrite clean_steps.
  destruct Htags as [<- | [<- | [<- | []]]]; cbn [fst snd] in Ho, Hc.
  - rewrite (sub_go_single (lit "*sanskrit*") (lit "*/sanskrit*") o' c' before x after 42%N eq_refl eq_refl eq_refl
               ltac:(discriminate) Ho Hc Hb Hx Ha).
    rewrite (sub_go_without_close _ (lit "**/sanskrit**") _ 2 47%N eq_refl symbol_slash Hclean).
    rewrite (sub_go_without_close _ (lit "[/sanskrit]") _ 1 47%N eq_refl symbol_slash Hclean).
    apply (sub_go_without_close _ (lit "</sanskrit>") _ 1 47%N eq_refl symbol_slash Hclean).
  - assert (Hstar : ~ In 42%N (before ++ o' ++ x ++ c' ++ after)).
    { apply (marked_without 42%N (lit "[sanskrit]") (lit "[/sanskrit]")); try assumption;
        [reflexivity | not_in_literal | not_in_literal]. }
    rewrite (sub_go_without_open (lit "*sanskrit*") _ _ 42%N eq_refl symbol_star Hstar).
    rewrite (sub_go_without_open (lit "**sanskrit**") _ _ 42%N eq_refl symbol_star Hstar).
    rewrite (sub_go_single (lit "[sanskrit]") (lit "[/sanskrit]") o' c' before x after 91%N eq_refl eq_refl eq_refl
               ltac:(discriminate) Ho Hc Hb Hx Ha).
    apply (sub_go_without_close _ (lit "</sanskrit>") _ 1 47%N eq_refl symbol_slash Hclean).
  - assert (Hstar : ~ In 42%N (before ++ o' ++ x ++ c' ++ after)).
    { apply (marked_without 42%N (lit "<sanskrit>") (lit "</sanskrit>")); try assumption;
        [reflexivity | not_in_literal | not_in_literal]. }
    assert (Hbr : ~ In 91%N (before ++ o' ++ x ++ c' ++ after)).
    { apply (marked_without 91%N (lit "<sanskrit>") (lit "</sanskrit>")); try assumption;
        [reflexivity | not_in_literal | not_in_literal]. }
    rewrite (sub_go_without_open (lit "*sanskrit*") _ _ 42%N eq_refl symbol_star Hstar).
    rewrite (sub_go_without_open (lit "**sanskrit**") _ _ 42%N eq_refl symbol_star Hstar).
    rewrite (sub_go_without_open (lit "[sanskrit]") _ _ 91%N eq_refl symbol_bracket Hbr).
    apply (sub_go_single (lit "<sanskrit>") (lit "</sanskrit>") o' c' before x after 60%N eq_refl eq_refl eq_refl
             ltac:(discriminate) Ho Hc Hb Hx Ha).
Qed.

Lemma clean_sanskrit_formatting_tagged_witness :
  In (lit "[sanskrit]", lit "[/sanskrit]") single_tags /\
  written_as (lit "[sanskrit]") (lit "[Sanskrit]") /\
  written_as (lit "[/sanskrit]") (lit "[/SANSKRIT]") /\
  plain (lit "the word ") = true /\ plain (lit "dharma") = true /\
  plain (lit " is kept") = true /\
  clean_sanskrit_formatting
    (lit "the word " ++ lit "[Sanskrit]" ++ lit "dharma" ++ lit "[/SANSKRIT]"
       ++ lit " is kept") =
    lit "the word " ++ LT :: lit "dharma" ++ GT :: lit " is kept".
Proof.
  assert (H1 : In (lit "[sanskrit]", lit "[/sanskrit]") single_tags)
    by (right; left; reflexivity).
  assert (H2 : written_as (lit "[sanskrit]") (lit "[Sanskrit]"))
    by (split; reflexivity).
  assert (H3 : written_as (lit "[/sanskrit]") (lit "[/SANSKRIT]"))
    by (split; reflexivity).
  repeat (split; [first [exact H1 | exact H2 | exact H3 | reflexivity] |]).
  apply (clean_sanskrit_formatting_tagged (lit "[sanskrit]", lit "[/sanskrit]"));
    first [exact H1 | exact H2 | exact H3 | reflexivity].
Defined.

(** A tag written in some case, cut where its literal is cut. *)
Lemma written_as_app (p q s : text) :
  written_as (p ++ q) s ->
  exists s1 s2, s = s1 ++ s2 /\ written_as p s1 /\ written_as q s2.
Proof.
  revert s. induction p as [| a p IH]; intros s [Hlen Hs].
  - exists [], s. repeat split; assumption.
  - destruct s as [| c s]; [discriminate Hlen |].
    simpl in Hlen, Hs. apply andb_true_iff in Hs as [Ha Hs].
    assert (Hw : written_as (p ++ q) s) by (split; [lia | exact Hs]).
    destruct (IH s Hw) as (s1 & s2 & -> & [Hl1 H1] & H2).
    exists (c :: s1), s2. split; [reflexivity |]. split; [| exact H2].
    split; [simpl; lia |]. simpl. rewrite Ha. exact H1.
Qed.

Lemma written_as_symbol (m : char) (s : text) :
  symbol m -> written_as [m] s -> s = [m].
Proof.
  intros Hm [Hlen Hs].
  destruct s as [| c [| c' s]]; try discriminate Hlen.
  simpl in Hs. rewrite andb_true_r in Hs.
  apply (ci_eq_symbol m c Hm) in Hs. subst c. reflexivity.
Qed.

(** A tag between two asterisks is the tag with single asterisks,
    wrapped. *)
Lemma written_as_wrapped (p s : text) :
  written_as (42%N :: p ++ [42%N]) s ->
  exists s1, s = 42%N :: s1 ++ [42%N] /\ written_as p s1.
Proof.
  intros H.
  destruct (written_as_app [42%N] (p ++ [42%N]) s H) as (a & r & -> & Ha & Hr).
  destruct (written_as_app p [42%N] r Hr) as (s1 & b & -> & H1 & Hb).
  apply (written_as_symbol 42%N a symbol_star) in Ha.
  apply (written_as_symbol 42%N b symbol_star) in Hb. subst a b.
  exists s1. split; [reflexivity | exact H1].
Qed.

Lemma plain_without_slash (s : text) : plain s = true -> ~ In 47%N s.
Proof. apply (plain_without 47%N s eq_refl). Qed.

(** X20. The marker with double asterisks is not replaced as a whole:
    the pattern for single asterisks runs first and matches inside it,
    so that [**sanskrit**x**/sanskrit**] becomes [*<*x*>*], with the
    outer asterisks left in the text and the inner ones inside the
    brackets; the pattern written for double asterisks then finds
    nothing. *)
Theorem clean_sanskrit_formatting_double_asterisk (o' c' before x after : text) :
  written_as (lit "**sanskrit**") o' -> written_as (lit "**/sanskrit**") c' ->
  plain before = true -> plain x = true -> plain after = true ->
  clean_sanskrit_formatting (before ++ o' ++ x ++ c' ++ after) =
    before ++ lit "*<*" ++ x ++ lit "*>*" ++ after.
Proof.
  intros Ho Hc Hb Hx Ha.
  destruct (written_as_wrapped (lit "*sanskrit*") o' Ho) as (o1 & -> & Ho1).
  destruct (written_as_wrapped (lit "*/sanskrit*") c' Hc) as (c1 & -> & Hc1).
  pose proof (plain_without_slash before Hb) as Hb'.
  pose proof (plain_without_slash x Hx) as Hx'.
  pose proof (plain_without_slash after Ha) as Ha'.
  replace (before ++ (42%N :: o1 ++ [42%N]) ++ x ++ (42%N :: c1 ++ [42%N]) ++ after)
    with ((before ++ [42%N]) ++ o1 ++ (42%N :: x ++ [42%N]) ++ c1 ++ 42%N :: after)
    by (simpl; rewrite <- !app_assoc; reflexivity).
  assert (Hstep :
    sub_go (lit "*sanskrit*") (lit "*/sanskrit*") O
      ((before ++ [42%N]) ++ o1 ++ (42%N :: x ++ [42%N]) ++ c1 ++ 42%N :: after) =
      (before ++ [42%N]) ++ LT :: (42%N :: x ++ [42%N]) ++ GT :: 42%N :: after).
  { apply sub_go_one; [exact Ho1 | exact Hc1 | discriminate | | |].
    - intros i Hi. rewrite length_app in Hi. simpl in Hi.
      destruct (Nat.lt_ge_cases i (length before)) as [Hlt | Hge].
      + rewrite <- app_assoc.
        apply (no_match_without (lit "*sanskrit*") before _ 0 42%N i eq_refl symbol_star
                 (plain_without 42%N before eq_refl Hb)). lia.
      + assert (i = length before) by lia. subst i.
        rewrite <- app_assoc, drop_app_length.
        destruct (ci_startswith_lookup _ _ 0 42%N (proj2 Ho1) eq_refl)
          as (h & Hh & Heq).
        apply (ci_eq_symbol 42%N h symbol_star) in Heq. subst h.
        destruct o1 as [| h o1]; [discriminate Hh |].
        injection Hh as ->. reflexivity.
    - apply (no_close_before (lit "*/sanskrit*") _ c1 _ 1 eq_refl); [| exact Hc1 |].
      + intros j Hj. destruct j as [| j]; [discriminate | lia].
      + intros [H | H]; [discriminate H |].
        apply in_app_or in H as [H | [H | []]]; [exact (Hx' H) | discriminate H].
    - apply (sub_go_without_close _ (lit "*/sanskrit*") _ 1 47%N eq_refl symbol_slash).
      intros [H | H]; [discriminate H | exact (Ha' H)]. }
  rewrite clean_steps, Hstep.
  assert (Hclean :
    ~ In 47%N ((before ++ [42%N]) ++ LT :: (42%N :: x ++ [42%N]) ++ GT :: 42%N :: after)).
  { intros H.
    apply in_app_or in H as [H | H].
    - apply in_app_or in H as [H | [H | []]]; [exact (Hb' H) | discriminate H].
    - destruct H as [H | [H | H]]; [discriminate H | discriminate H |].
      apply in_app_or in H as [H | H].
      + apply in_app_or in H as [H | [H | []]]; [exact (Hx' H) | discriminate H].
      + destruct H as [H | [H | H]]; [discriminate H | discriminate H | exact (Ha' H)]. }
  rewrite (sub_go_without_close _ (lit "**/sanskrit**") _ 2 47%N eq_refl symbol_slash Hclean).
  rewrite (sub_go_without_close _ (lit "[/sanskrit]") _ 1 47%N eq_refl symbol_slash Hclean).
  rewrite (sub_go_without_close _ (lit "</sanskrit>") _ 1 47%N eq_refl symbol_slash Hclean).
  simpl. rewrite <- !app_assoc. reflexivity.
Qed.

Lemma clean_sanskrit_formatting_double_asterisk_witness :
  written_as (lit "**sanskrit**") (lit "**Sanskrit**") /\
  written_as (lit "**/sanskrit**") (lit "**/Sanskrit**") /\
  plain (lit "om ") = true /\ plain (lit "shanti") = true /\ plain (lit ".") = true /\
  clean_sanskrit_formatting
    (lit "om " ++ lit "**Sanskrit**" ++ lit "shanti" ++ lit "**/Sanskrit**" ++ lit ".") =
    lit "om " ++ lit "*<*" ++ lit "shanti" ++ lit "*>*" ++ lit ".".
Proof.
  assert (H1 : written_as (lit "**sanskrit**") (lit "**Sanskrit**"))
    by (split; reflexivity).
  assert (H2 : written_as (lit "**/sanskrit**") (lit "**/Sanskrit**"))
    by (split; reflexivity).
  repeat (split; [first [exact H1 | exact H2 | reflexivity] |]).
  apply clean_sanskrit_formatting_double_asterisk;
    first [exact H1 | exact H2 | reflexivity].
Defined.

End TranslationFacts.

(** ** More about the OCR page pipeline *)

Section OCRMore.

Context {W image : Type}.
Variable ocr_request : image -> W -> outcome text * W.
Variable job_id : option text.
Variable pages : list image.

Local Abbreviation ocr_step' := (ocr_step ocr_request job_id pages).
Local Abbreviation ocr_start s :=
  (OcrJob (replicate (length pages) Pending) (replicate (length pages) VNone) s).

Lemma extracts_of_In (i : nat) (o : outcome text) (tr : list event) :
  In o (extracts_of i tr) -> In (EvExtract i o) tr.
Proof.
  unfold extracts_of. rewrite in_flat_map. intros (e & He & Hin).
  destruct e as [| | | | k o']; try contradiction.
  destruct (k =? i)%nat eqn:Hk; [| contradiction].
  apply Nat.eqb_eq in Hk. subst k.
  destruct Hin as [Heq | []]. subst o'. exact He.
Qed.

(** When the interleaving is complete every page has one request on
    record and its text stored at its index. *)
Lemma ocr_settles (sched : list sched_event) (s0 : @state W) :
  trace s0 = [] ->
  schedule_ok (length pages) sched = true ->
  length (extracted_texts (fold_left ocr_step' sched (ocr_start s0))) = length pages /\
  forall i, (i < length pages)%nat ->
    exists o,
      extracts_of i (trace (ocr_st (fold_left ocr_step' sched (ocr_start s0)))) = [o] /\
      extracted_texts (fold_left ocr_step' sched (ocr_start s0)) !! i =
        Some (VStr (page_text o)).
Proof.
  intros Htr0 Hok.
  assert (H0 : ocr_inv (length pages) (ocr_start s0)).
  { split; [apply length_replicate |]. split; [apply length_replicate |].
    intros i Hi. unfold page_inv. simpl.
    rewrite lookup_replicate_2 by exact Hi. rewrite Htr0. reflexivity. }
  pose proof (ocr_fold_inv ocr_request job_id pages sched _ H0) as (Hlf & Hlr & Hslots).
  split; [exact Hlr |]. intros i Hi.
  pose proof (fold_all_yielded page_futures ocr_step' (length pages)
                (ocr_step_length ocr_request job_id pages)
                (ocr_step_runs ocr_request job_id pages)
                (ocr_step_started ocr_request job_id pages)
                (ocr_step_yields ocr_request job_id pages)
                (ocr_step_yielded ocr_request job_id pages)
                sched (ocr_start s0) i Hok (length_replicate _ _) Hi) as Hyi.
  specialize (Hslots i Hi). unfold page_inv in Hslots.
  rewrite Hyi in Hslots. exact Hslots.
Qed.

Section ExtractsRecorded.

Variable Q : nat -> outcome text -> Prop.
Hypothesis Q_spec : forall i img w, pages !! i = Some img -> Q i (fst (ocr_request img w)).

Lemma ocr_step_recorded (j : @ocr_job W) (ev : sched_event) :
  extracts_recorded Q (trace (ocr_st j)) ->
  extracts_recorded Q (trace (ocr_st (ocr_step' j ev))).
Proof.
  intros H. destruct ev as [k | k]; simpl.
  - destruct (page_futures j !! k) as [[| r |] |]; try exact H.
    destruct (pages !! k) as [img |] eqn:Himg; [| exact H].
    unfold ocr_page. simpl.
    pose proof (Q_spec k img (world (ocr_st j)) Himg) as HQ.
    destruct (ocr_request img (world (ocr_st j))) as [o w']. simpl.
    apply Forall_app. split; [exact H |]. constructor; [exact HQ | constructor].
  - destruct (page_futures j !! k) as [[| [k' t] |] |]; exact H.
Qed.

Lemma ocr_fold_recorded (sched : list sched_event) (j : @ocr_job W) :
  extracts_recorded Q (trace (ocr_st j)) ->
  extracts_recorded Q (trace (ocr_st (fold_left ocr_step' sched j))).
Proof.
  revert j. induction sched as [| ev sched IH]; intros j Hj; [exact Hj |].
  cbn [fold_left]. apply IH, ocr_step_recorded, Hj.
Qed.

End ExtractsRecorded.

(** X21. When what a page contributes depends on the page alone, the
    result of [perform_ocr] is the same for every interleaving of the
    workers: the non-empty contributions in page order, joined by a blank
    line, whatever the order in which the requests were made and
    finished. *)
Theorem perform_ocr_page_order (contribution : image -> text)
    (sched : list sched_event) (w : W) (last : float)
    (tracker : gmap text snapshot) :
  (forall img w', page_text (fst (ocr_request img w')) = contribution img) ->
  schedule_ok (length pages) sched = true ->
  fst (perform_ocr ocr_request job_id pages sched (State w last tracker [])) =
    Returns (join para_sep (List.filter nonempty (map contribution pages))).
Proof.
  intros Hpure Hok. unfold perform_ocr.
  destruct (pdf_to_images_spec job_id pages (State w last tracker [])) as [Himgs Htr0].
  destruct (pdf_to_images job_id pages _) as [images s0]. simpl in Himgs, Htr0.
  subst images. simpl.
  destruct (ocr_settles sched s0 Htr0 Hok) as [Hlen Hall].
  pose proof (ocr_fold_recorded
                (fun i o => exists img, pages !! i = Some img /\
                                        page_text o = contribution img)
                (fun i img w' Hi => ex_intro _ img (conj Hi (Hpure img w')))
                sched (ocr_start s0)) as Hrec.
  specialize (Hrec ltac:(simpl; rewrite Htr0; constructor)).
  assert (Hex : extracted_texts (fold_left ocr_step' sched (ocr_start s0)) =
                map (fun img => VStr (contribution img)) pages).
  { apply list_eq. intros i. rewrite list_lookup_fmap.
    destruct (pages !! i) as [img |] eqn:Himg; simpl.
    - assert (Hi : (i < length pages)%nat) by (apply lookup_lt_Some in Himg; exact Himg).
      destruct (Hall i Hi) as (o & Ho & Hv). rewrite Hv.
      assert (Hin : In (EvExtract i o)
                      (trace (ocr_st (fold_left ocr_step' sched (ocr_start s0))))).
      { apply extracts_of_In. rewrite Ho. left. reflexivity. }
      unfold extracts_recorded in Hrec. rewrite List.Forall_forall in Hrec.
      destruct (Hrec _ Hin) as (img' & Himg' & Hc).
      rewrite Himg in Himg'. injection Himg' as <-. rewrite Hc. reflexivity.
    - apply lookup_ge_None. apply lookup_ge_None in Himg. lia. }
  rewrite Hex. f_equal. f_equal.
  clear. induction pages as [| img l IH]; [reflexivity |].
  simpl. destruct (nonempty (contribution img)); simpl; [f_equal |]; exact IH.
Qed.

Lemma ocr_fold_length (sched : list sched_event) (j : @ocr_job W) :
  length (page_futures (fold_left ocr_step' sched j)) = length (page_futures j).
Proof.
  revert j. induction sched as [| ev sched IH]; intros j; [reflexivity |].
  cbn [fold_left]. rewrite IH. apply (ocr_step_length ocr_request job_id pages).
Qed.

Lemma ocr_fold_started (sched : list sched_event) (j : @ocr_job W) (i : nat) :
  started (page_futures j) i ->
  started (page_futures (fold_left ocr_step' sched j)) i.
Proof.
  revert j. induction sched as [| ev sched IH]; intros j Hj; [exact Hj |].
  cbn [fold_left]. apply IH, (ocr_step_started ocr_request job_id pages), Hj.
Qed.

(** A page whose task is in the interleaving has been started. *)
Lemma ocr_fold_runs (sched : list sched_event) (j : @ocr_job W) (i : nat) :
  In (Run i) sched -> (i < length pages)%nat ->
  length (page_futures j) = length pages ->
  started (page_futures (fold_left ocr_step' sched j)) i.
Proof.
  revert j. induction sched as [| ev sched IH]; intros j Hin Hi Hlen; [destruct Hin |].
  cbn [fold_left]. destruct Hin as [-> | Hin].
  - apply ocr_fold_started, (ocr_step_runs ocr_request job_id pages); assumption.
  - apply IH; [exact Hin | exact Hi |].
    rewrite (ocr_step_length ocr_request job_id pages). exact Hlen.
Qed.

(** A page whose task is not in the interleaving is still waiting. *)
Lemma ocr_fold_pending (sched : list sched_event) (j : @ocr_job W) (i : nat) :
  ~ In (Run i) sched -> page_futures j !! i = Some Pending ->
  page_futures (fold_left ocr_step' sched j) !! i = Some Pending.
Proof.
  revert j. induction sched as [| ev sched IH]; intros j Hin Hj; [exact Hj |].
  cbn [fold_left]. apply IH; [intros H; apply Hin; right; exact H |].
  destruct ev as [k | k].
  - rewrite (ocr_step_other ocr_request job_id pages); [exact Hj |].
    simpl. intros ->. apply Hin. left. reflexivity.
  - destruct (Nat.eq_dec k i) as [-> | Hne].
    + simpl. rewrite Hj. exact Hj.
    + rewrite (ocr_step_other ocr_request job_id pages); [exact Hj | exact Hne].
Qed.

(** Once every page has been started, the rest of the interleaving only
    collects results. *)
Lemma ocr_fold_idle (sched : list sched_event) (j : @ocr_job W) :
  length (page_futures j) = length pages ->
  (forall i, (i < length pages)%nat -> started (page_futures j) i) ->
  ocr_st (fold_left ocr_step' sched j) = ocr_st j.
Proof.
  revert j. induction sched as [| ev sched IH]; intros j Hlen Hall; [reflexivity |].
  cbn [fold_left].
  assert (Hst : ocr_st (ocr_step' j ev) = ocr_st j).
  { destruct ev as [k | k]; simpl.
    - destruct (page_futures j !! k) as [[| r |] |] eqn:Hk; try reflexivity.
      assert (Hlt : (k < length pages)%nat) by (apply lookup_lt_Some in Hk; lia).
      specialize (Hall k Hlt). unfold started in Hall. rewrite Hk in Hall.
      destruct Hall.
    - destruct (page_futures j !! k) as [[| [k' t] |] |]; reflexivity. }
  rewrite IH, Hst; [reflexivity | |].
  - rewrite (ocr_step_length ocr_request job_id pages). exact Hlen.
  - intros i Hi. apply (ocr_step_started ocr_request job_id pages), Hall, Hi.
Qed.

(** X22. The progress report that [perform_ocr] leaves behind is the one
    of the page whose task started last, not of the last page: with the
    job identifier [k], when page [i] starts after all the others the
    store ends with "Extracting text from page i+1/total" and the
    percentage of [i+1], although every page has been extracted. *)
Theorem perform_ocr_final_progress (k : text) (i : nat)
    (pre post : list sched_event) (w : W) (last : float)
    (tracker : gmap text snapshot) :
  job_id_set job_id = Some k ->
  (i < length pages)%nat ->
  ~ In (Run i) pre ->
  (forall j, (j < length pages)%nat -> j <> i -> In (Run j) pre) ->
  schedule_ok (length pages) (pre ++ Run i :: post) = true ->
  progress_tracker
    (snd (perform_ocr ocr_request job_id pages (pre ++ Run i :: post)
            (State w last tracker []))) !! k =
    Some (page_snapshot i (length pages)).
Proof.
  intros Hk Hi Hpre Hothers _. unfold perform_ocr.
  destruct (pdf_to_images_spec job_id pages (State w last tracker [])) as [Himgs _].
  destruct (pdf_to_images job_id pages _) as [images s0]. simpl in Himgs.
  subst images. simpl.
  rewrite fold_left_app. cbn [fold_left].
  set (j1 := fold_left ocr_step' pre (ocr_start s0)).
  assert (Hlen1 : length (page_futures j1) = length pages).
  { unfold j1. rewrite ocr_fold_length. apply length_replicate. }
  assert (Hpend : page_futures j1 !! i = Some Pending).
  { apply ocr_fold_pending; [exact Hpre |]. simpl.
    apply lookup_replicate_2. exact Hi. }
  assert (Hst1 : forall j, (j < length pages)%nat -> j <> i ->
            started (page_futures j1) j).
  { intros j Hj Hne. apply ocr_fold_runs; [apply Hothers; assumption | exact Hj |].
    apply length_replicate. }
  rewrite ocr_fold_idle.
  - destruct (lookup_lt_is_Some_2 pages i Hi) as [img Himg].
    simpl. rewrite Hpend, Himg. unfold ocr_page. simpl.
    destruct (ocr_request img (world (ocr_st j1))) as [o w']. simpl.
    unfold update_progress. rewrite Hk. apply lookup_insert_eq.
  - rewrite (ocr_step_length ocr_request job_id pages). exact Hlen1.
  - intros j Hj. destruct (Nat.eq_dec j i) as [-> | Hne].
    + apply (ocr_step_runs ocr_request job_id pages); assumption.
    + apply (ocr_step_started ocr_request job_id pages), Hst1; assumption.
Qed.

Lemma report_pages (k : text) (total a m : nat) (s : @state W) :
  job_id_set job_id = Some k ->
  fold_left
    (fun s page_num =>
       with_tracker
         (update_progress job_id (Z.of_nat (page_num + 1)) (Z.of_nat total)
            (page_status (lit "Converting page ") (page_num + 1) total)) s)
    (seq a (S m)) s =
  State (world s) (last_request_time s)
    (<[k := convert_snapshot (a + S m) total]> (progress_tracker s)) (trace s).
Proof.
  intros Hk. revert a s. induction m as [| m IH]; intros a s.
  - simpl. unfold with_tracker, update_progress. rewrite Hk.
    reflexivity.
  - change (seq a (S (S m))) with (a :: seq (S a) (S m)). cbn [fold_left].
    rewrite IH. unfold with_tracker, update_progress. rewrite Hk.
    cbn [world last_request_time progress_tracker trace].
    rewrite insert_insert_eq.
    replace (S a + S m)%nat with (a + S (S m))%nat by lia. reflexivity.
Qed.

(** X23. [pdf_to_images] hands over every page in order and reports
    each one; with a job identifier and at least one page the store ends
    with "Converting page n/n" for the [n] pages under that identifier,
    and nothing else of the state changes. Without pages nothing is
    reported. *)
Theorem pdf_to_images_progress (k : text) (s : @state W) :
  job_id_set job_id = Some k ->
  pdf_to_images job_id pages s =
    (pages,
     match pages with
     | [] => s
     | _ :: _ =>
         State (world s) (last_request_time s)
           (<[k := convert_snapshot (length pages) (length pages)]> (progress_tracker s))
           (trace s)
     end).
Proof.
  intros Hk. unfold pdf_to_images. f_equal.
  destruct pages as [| img l]; [reflexivity |].
  change (length (img :: l)) with (S (length l)).
  rewrite (report_pages k (S (length l)) 0 (length l) s Hk). reflexivity.
Qed.

End OCRMore.

(** ** The statements above on the concrete executions *)

Section MoreWitnesses.

Lemma dispatcher_calls_once_or_twice_witness :
  0 < max_workers demo_self /\
  schedule_ok (length demo_chunks) demo_sched = true /\
  exists results s',
    process_chunks_parallel demo_time demo_sleep demo_self demo_chunks always_quota
      (lit "Translating") demo_sched (State O (float_of_int 0) ∅ []) =
      (Returns results, s') /\
    (forall i u, demo_chunks !! i = Some u ->
       (exists o, calls_of i (trace s') = [(u, o)]) \/
       (exists e o', is_rate_limit e = true /\
                     calls_of i (trace s') = [(u, Raises e); (u, o')])) /\
    (forall i, (length demo_chunks <= i)%nat -> calls_of i (trace s') = []).
Proof.
  split; [reflexivity |]. split; [reflexivity |].
  apply (dispatcher_calls_once_or_twice demo_time demo_sleep demo_self demo_chunks
           always_quota (lit "Translating") demo_sched O (float_of_int 0) ∅);
    reflexivity.
Defined.

Lemma dispatcher_single_call_without_failure_witness :
  0 < max_workers demo_self /\
  schedule_ok (length demo_chunks) demo_sched = true /\
  (forall u w', exists r, fst (shouting u w') = Returns r) /\
  exists results s',
    process_chunks_parallel demo_time demo_sleep demo_self demo_chunks shouting
      (lit "Proofreading") demo_sched (State O (float_of_int 0) ∅ []) =
      (Returns results, s') /\
    forall i u, demo_chunks !! i = Some u ->
      exists r, calls_of i (trace s') = [(u, Returns r)] /\
                results !! i =
                  Some (match r with
                        | VStr (c :: answer) => VStr (c :: answer)
                        | VStr [] | VNone => VStr u
                        end).
Proof.
  assert (H : forall u (w' : nat), exists r, fst (shouting u w') = Returns r)
    by (intros u w'; eexists; reflexivity).
  split; [reflexivity |]. split; [reflexivity |]. split; [exact H |].
  apply (dispatcher_single_call_without_failure demo_time demo_sleep demo_self
           demo_chunks shouting (lit "Proofreading") demo_sched O (float_of_int 0) ∅);
    [reflexivity | reflexivity | exact H].
Defined.

Lemma dispatcher_final_progress_witness :
  0 < max_workers demo_self /\
  schedule_ok (length demo_chunks) demo_sched = true /\
  exists results s',
    process_chunks_parallel demo_time demo_sleep demo_self demo_chunks always_broken
      (lit "Proofreading") demo_sched (State O (float_of_int 0) ∅ []) =
      (Returns results, s') /\
    progress_tracker s' =
      match job_id_set (job_id demo_self), length demo_chunks with
      | Some k, S _ =>
          <[k := progress_snapshot (lit "Proofreading") (length demo_chunks)
                   (length demo_chunks)]> ∅
      | _, _ => ∅
      end.
Proof.
  split; [reflexivity |]. split; [reflexivity |].
  apply (dispatcher_final_progress demo_time demo_sleep demo_self demo_chunks
           always_broken (lit "Proofreading") ∅ demo_sched O (float_of_int 0));
    reflexivity.
Defined.

Lemma proofreading_job_witness :
  0 < max_workers demo_self /\
  schedule_ok (length demo_chunks) demo_sched = true /\
  exists results s',
    process_chunks_parallel demo_time demo_sleep demo_self demo_chunks
      (proofread_chunk terse_model (lit "Gujarati")) (lit "Proofreading") demo_sched
      (State O (float_of_int 0) ∅ []) = (Returns results, s') /\
    length results = length demo_chunks /\
    forall i u, demo_chunks !! i = Some u ->
      (exists r, calls_of i (trace s') = [(u, Returns r)]) /\
      exists x, results !! i = Some (VStr x) /\
                (x = u \/ (nonempty x = true /\ strip x = x)).
Proof.
  split; [reflexivity |]. split; [reflexivity |].
  apply (proofreading_job demo_time demo_sleep demo_self demo_chunks
           (lit "Proofreading") terse_model (lit "Gujarati") demo_sched
           O (float_of_int 0) ∅); reflexivity.
Defined.

Lemma translation_job_witness :
  0 < max_workers demo_self /\
  schedule_ok (length demo_chunks) demo_sched = true /\
  exists results s',
    process_chunks_parallel demo_time demo_sleep demo_self demo_chunks
      (translate_chunk terse_model (lit "Gujarati") (lit "English"))
      (lit "Translating") demo_sched
      (State O (float_of_int 0) ∅ []) = (Returns results, s') /\
    length results = length demo_chunks /\
    forall i u, demo_chunks !! i = Some u ->
      (exists r, calls_of i (trace s') = [(u, Returns r)]) /\
      exists x, results !! i = Some (VStr x) /\
                (x = u \/ (nonempty x = true /\ strip x = x)).
Proof.
  split; [reflexivity |]. split; [reflexivity |].
  apply (translation_job demo_time demo_sleep demo_self demo_chunks
           (lit "Translating") terse_model (lit "Gujarati") (lit "English") demo_sched
           O (float_of_int 0) ∅); reflexivity.
Defined.

Lemma jobs_when_model_fails_witness :
  0 < max_workers demo_self /\
  schedule_ok (length demo_chunks) demo_sched = true /\
  (forall prompt w', exists e, fst (busy_model prompt w') = Raises e) /\
  (exists s',
     process_chunks_parallel demo_time demo_sleep demo_self demo_chunks
       (proofread_chunk busy_model (lit "Hindi")) (lit "Job") demo_sched
       (State O (float_of_int 0) ∅ []) = (Returns (map VStr demo_chunks), s') /\
     forall i u, demo_chunks !! i = Some u ->
       calls_of i (trace s') = [(u, Returns (VStr u))]) /\
  (exists s',
     process_chunks_parallel demo_time demo_sleep demo_self demo_chunks
       (translate_chunk busy_model (lit "Hindi") (lit "English")) (lit "Job") demo_sched
       (State O (float_of_int 0) ∅ []) = (Returns (map VStr demo_chunks), s') /\
     forall i u, demo_chunks !! i = Some u ->
       calls_of i (trace s') = [(u, Returns (VStr u))]).
Proof.
  assert (H : forall prompt (w' : nat), exists e, fst (busy_model prompt w') = Raises e)
    by (intros prompt w'; eexists; reflexivity).
  split; [reflexivity |]. split; [reflexivity |]. split; [exact H |].
  apply (jobs_when_model_fails demo_time demo_sleep demo_self demo_chunks
           (lit "Job") busy_model (lit "Hindi") (lit "Hindi") (lit "English") demo_sched
           O (float_of_int 0) ∅); [reflexivity | reflexivity | exact H].
Defined.

Lemma perform_ocr_page_order_witness :
  (forall img w',
     page_text (fst (second_fails img w')) = page_text (fst (second_fails img O))) /\
  schedule_ok (length three_pages) ocr_sched = true /\
  fst (perform_ocr second_fails (Some (lit "job")) three_pages ocr_sched
         (State O (float_of_int 0) ∅ [])) =
    Returns (join para_sep
               (List.filter nonempty
                  (map (fun img => page_text (fst (second_fails img O))) three_pages))).
Proof.
  assert (H : forall img (w' : nat),
            page_text (fst (second_fails img w')) = page_text (fst (second_fails img O)))
    by (intros [| [| img]] w'; reflexivity).
  split; [exact H |]. split; [reflexivity |].
  apply (perform_ocr_page_order second_fails (Some (lit "job")) three_pages
           (fun img => page_text (fst (second_fails img O))) ocr_sched
           O (float_of_int 0) ∅); [exact H | reflexivity].
Defined.

Lemma perform_ocr_final_progress_witness :
  job_id_set (Some (lit "job")) = Some (lit "job") /\
  (0 < length three_pages)%nat /\
  ~ In (Run 0) [Run 2; Run 1]%nat /\
  (forall j, (j < length three_pages)%nat -> j <> 0%nat ->
     In (Run j) [Run 2; Run 1]%nat) /\
  schedule_ok (length three_pages)
    ([Run 2; Run 1] ++ Run 0 :: [Complete 0; Complete 1; Complete 2])%nat = true /\
  progress_tracker
    (snd (perform_ocr second_fails (Some (lit "job")) three_pages
            ([Run 2; Run 1] ++ Run 0 :: [Complete 0; Complete 1; Complete 2])%nat
            (State O (float_of_int 0) ∅ []))) !! lit "job" =
    Some (page_snapshot 0 (length three_pages)).
Proof.
  assert (H1 : ~ In (Run 0) [Run 2; Run 1]%nat)
    by (intros [H | [H | []]]; discriminate H).
  assert (H2 : forall j, (j < length three_pages)%nat -> j <> 0%nat ->
                 In (Run j) [Run 2; Run 1]%nat).
  { intros [| [| [| j]]] Hj Hne; simpl in Hj.
    - congruence.
    - right. left. reflexivity.
    - left. reflexivity.
    - lia. }
  split; [reflexivity |]. split; [simpl; lia |]. split; [exact H1 |].
  split; [exact H2 |]. split; [reflexivity |].
  apply (perform_ocr_final_progress second_fails (Some (lit "job")) three_pages
           (lit "job") 0%nat [Run 2; Run 1]%nat [Complete 0; Complete 1; Complete 2]%nat
           O (float_of_int 0) ∅);
    [reflexivity | simpl; lia | exact H1 | exact H2 | reflexivity].
Defined.

Lemma pdf_to_images_progress_witness :
  job_id_set (Some (lit "job")) = Some (lit "job") /\
  pdf_to_images (Some (lit "job")) three_pages demo_state =
    (three_pages,
     State (world demo_state) (last_request_time demo_state)
       (<[lit "job" := convert_snapshot (length three_pages) (length three_pages)]>
          (progress_tracker demo_state))
       (trace demo_state)).
Proof.
  split; [reflexivity |].
  apply (pdf_to_images_progress (Some (lit "job")) three_pages (lit "job") demo_state).
  reflexivity.
Defined.

(** The page that starts last is the first one: the job ends at 1/3. *)
Lemma demo_first_page_last :
  snap_current (page_snapshot 0 (length three_pages)) = 1 /\
  snap_total (page_snapshot 0 (length three_pages)) = 3 /\
  snap_percentage (page_snapshot 0 (length three_pages)) = 33.
Proof. repeat split; vm_compute; reflexivity. Qed.

End MoreWitnesses.

(** ** Chunks only ever grow at the end *)

Section ChunkerPrefix.

Lemma append_stripped_prefix (chunks : list text) (cur : text) :
  chunks `prefix_of` append_stripped chunks cur.
Proof.
  unfold append_stripped. destruct (nonempty cur); [| reflexivity].
  apply prefix_app_r. reflexivity.
Qed.

Lemma sentence_step_prefix (max_chunk_size : Z) (a : acc) (x : text) :
  fst a `prefix_of` fst (sentence_step max_chunk_size a x).
Proof.
  destruct a as [chunks cur]. unfold sentence_step.
  destruct (len (cur ++ x) >? max_chunk_size); simpl;
    [apply append_stripped_prefix | reflexivity].
Qed.

Lemma sentences_prefix (max_chunk_size : Z) (l : list text) (a : acc) :
  fst a `prefix_of` fst (fold_left (sentence_step max_chunk_size) l a).
Proof.
  revert a. induction l as [| x l IH]; intros a; [reflexivity |].
  cbn [fold_left]. etransitivity; [apply (sentence_step_prefix max_chunk_size a x) |].
  apply IH.
Qed.

Lemma paragraph_step_prefix (max_chunk_size : Z) (a : acc) (p : text) :
  fst a `prefix_of` fst (paragraph_step max_chunk_size a p).
Proof.
  destruct a as [chunks cur]. unfold paragraph_step.
  destruct (len p >? max_chunk_size).
  - etransitivity; [| apply sentences_prefix].
    destruct (nonempty cur); simpl; [apply prefix_app_r |]; reflexivity.
  - destruct (len (cur ++ p) >? max_chunk_size); simpl;
      [apply append_stripped_prefix | reflexivity].
Qed.

Lemma paragraphs_prefix (max_chunk_size : Z) (l : list text) (a : acc) :
  fst a `prefix_of` fst (fold_left (paragraph_step max_chunk_size) l a).
Proof.
  revert a. induction l as [| x l IH]; intros a; [reflexivity |].
  cbn [fold_left]. etransitivity; [apply (paragraph_step_prefix max_chunk_size a x) |].
  apply IH.
Qed.

(** X25. [chunk_text] can hand out an empty chunk: when the text begins
    with a blank line and the paragraph after it is longer than the
    limit, the buffer holding only the separator is flushed before that
    paragraph is cut up, and the first chunk is the empty string. *)
Theorem chunk_text_blank_line_first (t : text) (max_chunk_size : Z) :
  0 <= max_chunk_size ->
  max_chunk_size < len (hd [] (split para_sep t)) ->
  exists rest, chunk_text (para_sep ++ t) max_chunk_size = [] :: rest.
Proof.
  intros Hmax Hlong.
  assert (Hsplit : split para_sep (para_sep ++ t) = [] :: split para_sep t).
  { change (para_sep ++ t) with (NL :: ([NL] ++ t)). rewrite split_cons.
    change (NL :: ([NL] ++ t)) with (para_sep ++ t). rewrite startswith_self.
    reflexivity. }
  unfold chunk_text. rewrite Hsplit.
  destruct (split para_sep t) as [| p ps] eqn:Hps;
    [change (len (hd [] [])) with 0 in Hlong; lia |].
  simpl hd in Hlong. cbn [fold_left].
  assert (H1 : paragraph_step max_chunk_size ([], []) [] = ([], para_sep)).
  { unfold paragraph_step. change (len []) with 0.
    assert (E : (0 >? max_chunk_size) = false) by (apply gtb_false_iff; lia).
    rewrite E. simpl. change (len []) with 0. rewrite E. reflexivity. }
  rewrite H1.
  assert (H2 : [[]] `prefix_of`
                 fst (paragraph_step max_chunk_size ([], para_sep) p)).
  { unfold paragraph_step.
    assert (E : (len p >? max_chunk_size) = true) by (apply gtb_true_iff; lia).
    rewrite E. simpl nonempty. cbv iota.
    apply (sentences_prefix max_chunk_size (sentences_of p) ([] ++ [strip para_sep], [])). }
  pose proof (paragraphs_prefix max_chunk_size ps
                (paragraph_step max_chunk_size ([], para_sep) p)) as H3.
  destruct (fold_left _ ps _) as [chunks cur]. simpl in H3.
  pose proof (append_stripped_prefix chunks cur) as H4.
  destruct (transitivity H2 (transitivity H3 H4)) as [rest Hrest].
  exists rest. rewrite Hrest. reflexivity.
Qed.

Lemma chunk_text_blank_line_first_witness :
  0 <= 3 /\
  3 < len (hd [] (split para_sep (lit "abcdef"))) /\
  exists rest, chunk_text (para_sep ++ lit "abcdef") 3 = [] :: rest.
Proof.
  split; [lia |]. split; [vm_compute; reflexivity |].
  apply chunk_text_blank_line_first; [lia | vm_compute; reflexivity].
Defined.

End ChunkerPrefix.

(** ** The rate limiter *)

Section RateLimiterFacts.

(** The comparison of the limiter, on canonical numbers, is the exact
    comparison with 0.2. *)
Lemma flt_one_fifth (x : float) :
  canonical x -> flt x one_fifth = false -> ulps one_fifth <= ulps x.
Proof.
  unfold flt, SFltb, one_fifth. destruct x as [sx | sx | | sx m e]; simpl canonical.
  - intros _. destruct sx; discriminate.
  - intros [].
  - intros [].
  - intros Hb. unfold SFcompare. destruct sx; [discriminate |].
    unfold bounded, canonical_mantissa, fexp, emin, prec, emax in Hb.
    apply andb_true_iff in Hb as [Hc _]. apply Z.eqb_eq in Hc.
    destruct (e ?= -55) eqn:He; [| discriminate |].
    + apply Z.compare_eq in He. subst e. intros Hm.
      assert (Hge : (7205759403792794 <= m)%positive).
      { rewrite Pos.compare_cont_spec in Hm. simpl in Hm.
        destruct (m ?= 7205759403792794)%positive eqn:E; try discriminate.
        - apply Pos.compare_eq in E. subst. lia.
        - apply Pos.compare_gt_iff in E. lia. }
      unfold ulps, cond_Zopp.
      apply Z.mul_le_mono_nonneg_r; [apply Z.pow_nonneg; lia | lia].
    + intros _. apply Z.compare_gt_iff in He.
      assert (Hd : Zpos (digits2_pos m) = 53).
      { destruct (Z.max_spec (Z.pos (digits2_pos m) + e - 53) (3 - 1024 - 53))
          as [[_ Hm] | [_ Hm]]; rewrite Hm in Hc; lia. }
      pose proof (digits2_lower m) as Hl. rewrite Hd in Hl.
      unfold ulps, cond_Zopp.
      replace (e + 1074) with ((e + 55) + (-55 + 1074)) by lia.
      rewrite (Z.pow_add_r 2 (e + 55) (-55 + 1074)) by lia. rewrite Z.mul_assoc.
      apply Z.mul_le_mono_nonneg_r; [apply Z.pow_nonneg; lia |].
      assert (H2 : 2 ^ 1 <= 2 ^ (e + 55)) by (apply Z.pow_le_mono_r; lia).
      change (2 ^ 1) with 2 in H2. change (53 - 1) with 52 in Hl.
      assert (Hp : 2 ^ 52 = 4503599627370496) by reflexivity. rewrite Hp in Hl.
      nia.
Qed.

Context {W : Type}.
Variable time_time : W -> float * W.
Variable time_sleep : float -> W -> W.

Local Abbreviation limiter := (process_with_rate_limit time_time time_sleep).
Local Abbreviation honest := (honest_pass time_time time_sleep).
Local Abbreviation rapidly := (rapid time_time time_sleep).

(** One honest pass: the new start is at least the interval after the
    old one. *)
Lemma limiter_spacing (self : DocumentProcessor) (slot : nat)
    (process_func : @processor W) (arg : text) (s : @state W) :
  min_request_interval self = one_fifth ->
  honest self s ->
  apart (min_request_interval self) (last_request_time s)
    (last_request_time (snd (limiter self slot process_func arg s))).
Proof.
  intros HI. unfold honest_pass, apart.
  unfold process_with_rate_limit, now, sleep, log, with_world. simpl.
  destruct (time_time (world s)) as [t1 w1]. simpl.
  destruct (flt (fsub t1 (last_request_time s)) (min_request_interval self)) eqn:Hslept;
    simpl.
  - destruct (time_time (time_sleep _ w1)) as [t2 w2]. simpl.
    destruct (process_func arg w2) as [o w3]. simpl.
    intros (_ & He & Hs & _). destruct (Hs eq_refl) as [Hw Ht]. lia.
  - destruct (time_time w1) as [t2 w2]. simpl.
    destruct (process_func arg w2) as [o w3]. simpl.
    intros (Hc & He & _ & Hm). specialize (Hm eq_refl).
    rewrite HI in Hslept |- *.
    pose proof (flt_one_fifth _ Hc Hslept). lia.
Qed.

Lemma rapid_cons (self : DocumentProcessor) (process_func : @processor W)
    (call : nat * text) (calls : list (nat * text)) (s : @state W) :
  rapidly self process_func (call :: calls) s =
    rapidly self process_func calls
      (snd (limiter self (fst call) process_func (snd call) s)).
Proof. reflexivity. Qed.

(** C9 (amended). With the interval of 0.2 s, as long as the clock is
    honest during each pass (the limiter's subtractions are exact on its
    readings, a sleep lasts at least as long as asked, the clock does not
    run backwards), every pass through [process_with_rate_limit] records
    a start time at least the interval after the one recorded before it,
    so that [n] acquisitions in a row end at least [n] intervals after
    the start they began from; and in every pass the processor is called
    after the lock has been released. *)
Theorem rate_limit_spacing (self : DocumentProcessor) (process_func : @processor W)
    (calls : list (nat * text)) (s : @state W) :
  min_request_interval self = one_fifth ->
  (forall k, (k < length calls)%nat ->
     honest self (rapidly self process_func (take k calls) s)) ->
  (forall k slot arg, calls !! k = Some (slot, arg) ->
     apart (min_request_interval self)
       (last_request_time (rapidly self process_func (take k calls) s))
       (last_request_time (rapidly self process_func (take (S k) calls) s)) /\
     exists pace o,
       pacing pace /\
       trace (rapidly self process_func (take (S k) calls) s) =
         trace (rapidly self process_func (take k calls) s)
           ++ EvLock :: pace ++ [EvUnlock; EvCall slot arg o]) /\
  ulps (last_request_time s)
    + Z.of_nat (length calls) * ulps (min_request_interval self)
    <= ulps (last_request_time (rapidly self process_func calls s)).
Proof.
  intros HI. revert s. induction calls as [| call calls IH]; intros s Hh.
  - split; [intros k slot arg Hk; discriminate Hk |]. simpl. lia.
  - pose proof (Hh 0%nat ltac:(simpl; lia)) as H0. simpl in H0.
    pose proof (limiter_spacing self (fst call) process_func (snd call) s HI H0) as Hs.
    destruct (IH (snd (limiter self (fst call) process_func (snd call) s))) as [IH1 IH2].
    { intros k Hk. apply (Hh (S k)). simpl. lia. }
    split.
    + intros [| k] slot arg Hk.
      * simpl in Hk. injection Hk as ->. split; [exact Hs |].
        destruct (limiter_events time_time time_sleep self process_func slot arg s)
          as (evs & (pace & Hp & ->) & Ht).
        exists pace, (fst (limiter self slot process_func arg s)).
        split; [exact Hp | exact Ht].
      * simpl in Hk. apply (IH1 k slot arg Hk).
    + rewrite rapid_cons. unfold apart in Hs.
      change (length (call :: calls)) with (S (length calls)). lia.
Qed.

End RateLimiterFacts.

Section RateLimiterExamples.

(** C9 (counterexample). On the clock that loses no time, started at
    3000 s: the first pass records 3000 without sleeping; the second
    finds no time elapsed, sleeps 0.2 s and records the binary64 sum
    3000 + 0.2, which is 3000.1999999999998, so that the two recorded
    starts are less than 0.2 s apart, both exactly and as the code's own
    subtraction and comparison measure it. *)
Lemma rate_limit_spacing_counterexample :
  min_request_interval (init 5 None) = one_fifth /\
  last_request_time (after_first 3000) = float_of_int 3000 /\
  trace (after_second 3000) =
    [EvLock; EvUnlock; EvCall 0 (lit "a") (Returns (VStr (lit "a")));
     EvLock; EvSleep one_fifth; EvUnlock;
     EvCall 1 (lit "b") (Returns (VStr (lit "b")))] /\
  ~ apart one_fifth (last_request_time (after_first 3000))
      (last_request_time (after_second 3000)) /\
  flt (fsub (last_request_time (after_second 3000))
         (last_request_time (after_first 3000))) one_fifth = true.
Proof.
  split; [reflexivity |].
  split; [vm_compute; reflexivity |]. split; [vm_compute; reflexivity |].
  split; [| vm_compute; reflexivity].
  unfold apart. vm_compute. intros H. apply H. reflexivity.
Qed.

Lemma rate_limit_spacing_witness :
  min_request_interval (init 5 None) = one_fifth /\
  (forall k, (k < length three_calls)%nat ->
     honest_pass ideal_time ideal_sleep (init 5 None)
       (rapid ideal_time ideal_sleep (init 5 None) instant (take k three_calls)
          at_1000)) /\
  ulps (last_request_time at_1000)
    + Z.of_nat (length three_calls) * ulps (min_request_interval (init 5 None))
    <= ulps (last_request_time
               (rapid ideal_time ideal_sleep (init 5 None) instant three_calls at_1000)).
Proof.
  assert (Hh : forall k, (k < length three_calls)%nat ->
            honest_pass ideal_time ideal_sleep (init 5 None)
              (rapid ideal_time ideal_sleep (init 5 None) instant (take k three_calls)
                 at_1000)).
  { intros [| [| [| k]]] Hk; try (simpl in Hk; lia);
      (vm_compute; repeat split; try reflexivity;
       intros H; try discriminate H; try (repeat split; try reflexivity; discriminate)). }
  split; [reflexivity |]. split; [exact Hh |].
  apply (rate_limit_spacing ideal_time ideal_sleep (init 5 None) instant
           three_calls at_1000 eq_refl Hh).
Defined.

End RateLimiterExamples.
